(** * click_extra.colorize: a shallow embedding and its verified properties

    The development follows [src/click_extra/colorize.py]:
    - Python [str] values are lists of characters; a character is a code
      point below 256 (Rocq's [ascii]), which covers every pattern the
      module builds and every help screen written in ASCII or Latin-1;
    - exceptions are an explicit [result] type;
    - the two external libraries the module calls ([re]/[regex] and
      [boltons.strutils]) are embedded for the constructs the module uses;
    - [os.environ] is a finite map from variable names to values;
    - of [src/click_extra/run.py], the functions that compute
      ([args_cleanup], [env_copy]), and of
      [src/click_extra/tests/conftest.py] what the [invoke] fixture does
      to its arguments.  *)

From Stdlib Require Import Ascii String List Arith Lia Bool ZArith Sorted Permutation.
From Stdlib Require Import DecimalString DecimalZ DecimalPos.
From stdpp Require Import base strings gmap.
Import ListNotations.

#[local] Open Scope list_scope.
#[local] Set Default Proof Using "Type".

(** ** Strings and characters *)

Definition str := list ascii.

Definition s2l (s : string) : str := list_ascii_of_string s.

Definition ord (c : ascii) : nat := nat_of_ascii c.

Definition chr_eqb (a b : ascii) : bool := Ascii.eqb a b.

Fixpoint str_eqb (a b : str) : bool :=
  match a, b with
  | [], [] => true
  | x :: a', y :: b' => chr_eqb x y && str_eqb a' b'
  | _, _ => false
  end.

(** A Python [set] of strings is the list of its elements, without
    repetition, in the order the set iterates. *)
Definition set_mem (x : str) (s : list str) : bool := existsb (str_eqb x) s.

(** [s.add(x)] and [s.update(xs)] *)
Definition set_add (s : list str) (x : str) : list str :=
  if set_mem x s then s else s ++ [x].

Definition set_update (s : list str) (xs : list str) : list str :=
  fold_left set_add xs s.

(** Python compares [str] values lexicographically by code point. *)
Fixpoint str_ltb (a b : str) : bool :=
  match a, b with
  | [], [] => false
  | [], _ :: _ => true
  | _ :: _, [] => false
  | x :: a', y :: b' =>
      if ord x <? ord y then true
      else if ord y <? ord x then false
      else str_ltb a' b'
  end.

(** [sorted(xs)] and [sorted(xs, reverse=True)]: a stable insertion sort
    on the comparison, ascending or descending. *)
Fixpoint insert_by (lt : str -> str -> bool) (x : str) (l : list str) : list str :=
  match l with
  | [] => [x]
  | y :: l' => if lt y x then y :: insert_by lt x l'
               else if lt x y then x :: l
               else y :: insert_by lt x l'
  end.

Definition sort_by (lt : str -> str -> bool) (l : list str) : list str :=
  fold_right (insert_by lt) [] (rev l).

Definition sorted (l : list str) : list str := sort_by str_ltb l.

Definition sorted_reverse (l : list str) : list str :=
  sort_by (fun a b => str_ltb b a) l.

(** Character classes of [re] on [str] patterns (Unicode mode), for code
    points below 256. *)
Definition in_range (lo hi : nat) (c : ascii) : bool :=
  (lo <=? ord c) && (ord c <=? hi).

(** [\s] *)
Definition is_space (c : ascii) : bool :=
  in_range 9 13 c || in_range 28 32 c || (ord c =? 133) || (ord c =? 160).

(** [\w]: alphanumeric characters and the underscore. *)
Definition is_word (c : ascii) : bool :=
  in_range 48 57 c || in_range 65 90 c || in_range 97 122 c || (ord c =? 95)
  || (ord c =? 170) || (ord c =? 178) || (ord c =? 179) || (ord c =? 181)
  || (ord c =? 185) || (ord c =? 186) || in_range 188 190 c
  || in_range 192 214 c || in_range 216 246 c || in_range 248 255 c.

(** [str.lower()] on one character. *)
Definition lower (c : ascii) : ascii :=
  if in_range 65 90 c || in_range 192 214 c || in_range 216 222 c
  then ascii_of_nat (ord c + 32) else c.

Definition str_lower (s : str) : str := map lower s.

(** ** Exceptions *)

Inductive exn := AssertionError | ValueError | KeyError | Unmodelled.

Inductive result (A : Type) :=
| Ok (a : A)
| Raise (e : exn).
Arguments Ok {A} a.
Arguments Raise {A} e.

#[export] Instance result_bind : MBind result :=
  fun A B (f : A -> result B) (r : result A) =>
    match r with
    | Ok a => f a
    | Raise e => Raise e
    end.

(** ** The regular expressions the module builds

    Every pattern of [highlight_extra_keywords] is a sequence of capturing
    groups, named or not, with nothing between them (the patterns are
    compiled with [re.VERBOSE], so the layout and the comments vanish,
    except inside a character set).
    Inside a group there are single characters or classes, and the
    repetitions [*], [+] and [+?] of a class. *)

Inductive node :=
| One (p : ascii -> bool)        (* a character or a class  *)
| Star (p : ascii -> bool)       (* p*   greedy             *)
| Plus (p : ascii -> bool)       (* p+   greedy             *)
| PlusLazy (p : ascii -> bool).  (* p+?  lazy               *)

Record group := Group { gname : option string; gbody : list node }.

Definition pattern := list group.

(** A backtracking matcher in continuation-passing style.  [acc] holds the
    characters the current group has consumed so far, last one first; [k]
    is what remains to be matched, and the first alternative that lets [k]
    succeed wins, as in [re]. *)
Section Backtrack.
Context {R : Type}.

Definition cont := str -> str -> option R.

Definition one (p : ascii -> bool) (k : cont) (acc s : str) : option R :=
  match s with
  | c :: s' => if p c then k (c :: acc) s' else None
  | [] => None
  end.

Fixpoint star_greedy (p : ascii -> bool) (k : cont) (acc s : str) : option R :=
  match s with
  | c :: s' =>
      if p c then
        match star_greedy p k (c :: acc) s' with
        | Some r => Some r
        | None => k acc s
        end
      else k acc s
  | [] => k acc s
  end.

Fixpoint star_lazy (p : ascii -> bool) (k : cont) (acc s : str) : option R :=
  match k acc s with
  | Some r => Some r
  | None =>
      match s with
      | c :: s' => if p c then star_lazy p k (c :: acc) s' else None
      | [] => None
      end
  end.

Fixpoint m_nodes (ns : list node) (k : cont) : cont :=
  match ns with
  | [] => k
  | One p :: ns' => one p (m_nodes ns' k)
  | Star p :: ns' => star_greedy p (m_nodes ns' k)
  | Plus p :: ns' => one p (star_greedy p (m_nodes ns' k))
  | PlusLazy p :: ns' => one p (star_lazy p (m_nodes ns' k))
  end.
End Backtrack.

(** What a match object holds: the groups in order, each with its name (if
    any) and the text it captured. *)
Definition captured := (option string * str)%type.

Fixpoint m_groups (gs : pattern) (caps : list captured) (s : str)
  : option (list captured * str) :=
  match gs with
  | [] => Some (rev caps, s)
  | g :: gs' =>
      m_nodes (gbody g)
        (fun acc s' => m_groups gs' ((gname g, rev acc) :: caps) s')
        [] s
  end.

(** [pattern.match(s)]: the groups and the text left after the match. *)
Definition match_at (pat : pattern) (s : str) : option (list captured * str) :=
  m_groups pat [] s.

(** [match.groups()] and [match.group(0)]: the groups of these patterns
    tile the whole match. *)
Definition groups (caps : list captured) : list str := map snd caps.

Definition group0 (caps : list captured) : str := concat (groups caps).

(** [re.sub(pattern, repl, text)] with a function [repl]: scan from the
    left, replace each match, resume after it.  [skip] counts the
    characters of the current match still to be passed over.  The patterns
    of this module all consume at least two characters, so the special
    rules of [re] for empty matches never apply. *)
Fixpoint sub_from (pat : pattern) (repl : list captured -> result str)
  (skip : nat) (s : str) : result str :=
  match s with
  | [] => Ok []
  | c :: s' =>
      match skip with
      | S n => sub_from pat repl n s'
      | O =>
          match match_at pat s with
          | Some (caps, _) =>
              out ← repl caps;
              tl ← sub_from pat repl (length (group0 caps) - 1) s';
              Ok (out ++ tl)
          | None =>
              tl ← sub_from pat repl 0 s';
              Ok (c :: tl)
          end
      end
  end.

Definition re_sub (pat : pattern) (repl : list captured -> result str) (s : str)
  : result str :=
  sub_from pat repl 0 s.



(** ** Themes *)

Definition IStyle := str -> str.

(** [cloup._util.identity] *)
Definition identity : IStyle := fun s => s.

Definition ESC : ascii := ascii_of_nat 27.

(** [Style(fg=..., bold=...)] renders through [click.style]: the colour
    code, the bold code when asked for, the text, then the reset code. *)
Definition Style (fg : string) (bold : bool) : IStyle :=
  fun text =>
    (ESC :: s2l "[" ++ s2l fg ++ s2l "m")
      ++ (if bold then ESC :: s2l "[1m" else [])
      ++ text ++ (ESC :: s2l "[0m").

Record HelpExtraTheme := {
  invoked_command : IStyle;
  command_help : IStyle;
  heading : IStyle;
  constraint : IStyle;
  section_help : IStyle;
  col1 : IStyle;
  col2 : IStyle;
  epilog : IStyle;
  critical : IStyle;
  error : IStyle;
  warning : IStyle;
  info : IStyle;
  debug : IStyle;
  subheading : IStyle;
  option_ : IStyle;
  choice : IStyle;
  metavar : IStyle;
  search : IStyle;
  success : IStyle
}.

(** [HelpExtraTheme()]: every role defaults to [identity]. *)
Definition nocolor_theme : HelpExtraTheme :=
  {| invoked_command := identity; command_help := identity;
     heading := identity; constraint := identity; section_help := identity;
     col1 := identity; col2 := identity; epilog := identity;
     critical := identity; error := identity; warning := identity;
     info := identity; debug := identity; subheading := identity;
     option_ := identity; choice := identity; metavar := identity;
     search := identity; success := identity |}.

(** The colours are the codes [click.style] gives to the colour names. *)
Definition default_theme : HelpExtraTheme :=
  {| invoked_command := Style "97" false;
     command_help := identity;
     heading := Style "94" true;
     constraint := Style "35" false;
     section_help := identity;
     col1 := identity;
     col2 := identity;
     epilog := identity;
     critical := Style "31" false;
     error := Style "31" false;
     warning := Style "33" false;
     info := identity;
     debug := Style "34" false;
     subheading := Style "34" false;
     option_ := Style "36" false;
     choice := Style "35" false;
     metavar := Style "90" false;
     search := Style "32" true;
     success := Style "32" false |}.

(** [getattr(self.theme, group_id, None)] for the names of the roles. *)
Definition theme_getattr (t : HelpExtraTheme) (group_id : string) : option IStyle :=
  if String.eqb group_id "invoked_command" then Some (invoked_command t)
  else if String.eqb group_id "command_help" then Some (command_help t)
  else if String.eqb group_id "heading" then Some (heading t)
  else if String.eqb group_id "constraint" then Some (constraint t)
  else if String.eqb group_id "section_help" then Some (section_help t)
  else if String.eqb group_id "col1" then Some (col1 t)
  else if String.eqb group_id "col2" then Some (col2 t)
  else if String.eqb group_id "epilog" then Some (epilog t)
  else if String.eqb group_id "critical" then Some (critical t)
  else if String.eqb group_id "error" then Some (error t)
  else if String.eqb group_id "warning" then Some (warning t)
  else if String.eqb group_id "info" then Some (info t)
  else if String.eqb group_id "debug" then Some (debug t)
  else if String.eqb group_id "subheading" then Some (subheading t)
  else if String.eqb group_id "option" then Some (option_ t)
  else if String.eqb group_id "choice" then Some (choice t)
  else if String.eqb group_id "metavar" then Some (metavar t)
  else if String.eqb group_id "search" then Some (search t)
  else if String.eqb group_id "success" then Some (success t)
  else None.

(** ** HelpExtraFormatter *)

(** The formatter: its theme and the keyword sets.  A Python [set] is
    given as the list of its elements in the order the set iterates. *)
Record HelpExtraFormatter := {
  theme : HelpExtraTheme;
  cli_names : list str;
  subcommands : list str;
  command_aliases : list str;
  long_options : list str;
  short_options : list str;
  choices : list str;
  metavars : list str
}.

Definition style_alias (t : HelpExtraTheme) : list (string * IStyle) :=
  [ ("default_start"%string, metavar t);
    ("default_end"%string, metavar t);
    ("default_value"%string, choice t);
    ("subcommand"%string, option_ t);
    ("command_aliases"%string, option_ t);
    ("long_option"%string, option_ t);
    ("short_option"%string, option_ t) ].

Fixpoint assoc {V} (k : string) (d : list (string * V)) : option V :=
  match d with
  | [] => None
  | (k', v) :: d' => if String.eqb k k' then Some v else assoc k d'
  end.

Definition style_group (t : HelpExtraTheme) (str_to_style : str) (group_id : string)
  : result str :=
  match theme_getattr t group_id with
  | Some group_style => Ok (group_style str_to_style)
  | None =>
      match assoc group_id (style_alias t) with
      | Some group_style => Ok (group_style str_to_style)
      | None => Raise KeyError
      end
  end.

(** [match.groupdict()]: the named groups, in the order of the pattern. *)
Fixpoint groupdict (caps : list captured) : list (string * str) :=
  match caps with
  | [] => []
  | (Some name, text) :: caps' => (name, text) :: groupdict caps'
  | (None, _) :: caps' => groupdict caps'
  end.

(** A [dict] keyed by text, as an association list: [d[k] = v]. *)
Fixpoint dict_set (k : str) (v : string) (d : list (str * string)) : list (str * string) :=
  match d with
  | [] => [(k, v)]
  | (k', v') :: d' => if str_eqb k k' then (k, v) :: d' else (k', v') :: dict_set k v d'
  end.

Fixpoint dict_get (k : str) (d : list (str * string)) : option string :=
  match d with
  | [] => None
  | (k', v) :: d' => if str_eqb k k' then Some v else dict_get k d'
  end.

(** [{v: k for k, v in match.groupdict().items()}] *)
Definition invert (gd : list (string * str)) : list (str * string) :=
  fold_left (fun d kv => dict_set (snd kv) (fst kv) d) gd [].

Fixpoint colorize_groups (t : HelpExtraTheme) (match_group : list (str * string))
  (gs : list str) : result str :=
  match gs with
  | [] => Ok []
  | group :: gs' =>
      piece ← match dict_get group match_group with
              | Some group_id => style_group t group group_id
              | None => Ok group
              end;
      txt ← colorize_groups t match_group gs';
      Ok (piece ++ txt)
  end.

Definition colorize (t : HelpExtraTheme) (m : list captured) : result str :=
  let match_group := invert (groupdict m) in
  if length match_group =? length (groupdict m)
  then colorize_groups t match_group (groups m)
  else Raise AssertionError.

(** ** The patterns of [highlight_extra_keywords] *)

Definition chr (c : ascii) : ascii -> bool := fun x => chr_eqb x c.

(** A literal character under [re.IGNORECASE]. *)
Definition chr_i (c : ascii) : ascii -> bool := fun x => chr_eqb (lower x) (lower c).

(** [.] without and with [re.DOTALL]. *)
Definition dot : ascii -> bool := fun x => negb (chr_eqb x (ascii_of_nat 10)).
Definition dot_all : ascii -> bool := fun _ => true.

Definition not_space : ascii -> bool := fun x => negb (is_space x).
Definition not_word : ascii -> bool := fun x => negb (is_word x).

(** [re.escape(text)]: every character of [text] stands for itself. *)
Definition re_escape (text : str) : list node := map (fun c => One (chr c)) text.

Definition re_escape_i (text : str) : list node := map (fun c => One (chr_i c)) text.

(** [re.escape(text).replace("-", "-\\s*")]: a dash may be followed by
    blank characters. *)
Definition escape_for_help_sceen (text : str) : list node :=
  flat_map (fun c => if chr_eqb c "-" then [One (chr c); Star is_space]
                     else [One (chr c)]) text.

(** A character set [[...]].  [re.VERBOSE] strips neither blanks nor
    comments inside a set (the [re] documentation: whitespace is ignored
    "except when in a character class", and [#] starts a comment only
    when it "is not in a character class"), so a set is read as it is
    written. *)
Inductive set_item :=
| SChar (c : ascii)
| SRange (lo hi : ascii)
| SSpace.

Fixpoint parse_set (s : str) : list set_item :=
  match s with
  | [] => []
  | "\"%char :: "s"%char :: s' => SSpace :: parse_set s'
  | "\"%char :: c :: s' => SChar c :: parse_set s'
  | c :: "-"%char :: d :: s' => SRange c d :: parse_set s'
  | c :: s' => SChar c :: parse_set s'
  end.

Definition in_item (x : ascii) (i : set_item) : bool :=
  match i with
  | SChar c => chr_eqb x c
  | SRange lo hi => (ord lo <=? ord x) && (ord x <=? ord hi)
  | SSpace => is_space x
  end.

Definition in_set (items : list set_item) : ascii -> bool :=
  fun x => existsb (in_item x) items.

Definition NL : str := [ascii_of_nat 10].

(** The set that opens the keyword pattern, between its brackets, line by
    line as in the source. *)
Definition keyword_left_set_source : str :=
  s2l "               # A keyword is preceded with either:" ++ NL ++
  s2l "                        \s           # - a blank char" ++ NL ++
  s2l "                        \[           # - an opening square bracket (as in choice string)" ++ NL ++
  s2l "                        \|           # - a pipe (again like in choice strings)" ++ NL ++
  s2l "                        \(           # - an opening parenthesis" ++ NL ++
  s2l "                    ".

Definition keyword_left_context : ascii -> bool :=
  in_set (parse_set keyword_left_set_source).

Definition SP : ascii -> bool := chr " ".

Definition deprecated_pattern : pattern :=
  [ Group None [One is_space];
    Group (Some "warning"%string) (re_escape_i (s2l "(DEPRECATED)")) ].

Definition alias_pattern (alias : str) : pattern :=
  [ Group None [One SP; One SP; Plus not_space; One SP; One (chr "("); Star dot];
    Group (Some "command_aliases"%string) (re_escape alias);
    Group None [Star dot; One (chr ")")] ].

Definition subcommand_pattern (subcommand : str) : pattern :=
  [ Group None [One SP; One SP];
    Group (Some "subcommand"%string) (re_escape subcommand);
    Group None [One is_space] ].

Definition default_pattern : pattern :=
  [ Group None [One SP; One SP];
    Group (Some "default_start"%string) (re_escape (s2l "[default:") ++ [Plus is_space]);
    Group (Some "default_value"%string) [PlusLazy dot_all];
    Group (Some "default_end"%string) [One (chr "]")] ].

Definition cli_name_pattern (cli_name : str) : pattern :=
  [ Group None [One is_space];
    Group (Some "invoked_command"%string) (re_escape cli_name);
    Group None [One is_space] ].

Definition keyword_pattern (style_group_id : string) (keyword : str) : pattern :=
  [ Group None [One keyword_left_context];
    Group (Some style_group_id) (escape_for_help_sceen keyword);
    Group None [One not_word] ].

(** A [for] loop that rewrites [help_text] once per element. *)
Fixpoint sub_each (t : HelpExtraTheme) (mk : str -> pattern) (keys : list str)
  (help_text : str) : result str :=
  match keys with
  | [] => Ok help_text
  | k :: keys' =>
      help_text' ← re_sub (mk k) (colorize t) help_text;
      sub_each t mk keys' help_text'
  end.

(** The keyword passes, in the order of the source's tuple. *)
Definition keyword_passes (f : HelpExtraFormatter) : list (list str * string) :=
  [ (sorted_reverse (long_options f), "long_option"%string);
    (sorted (short_options f), "short_option"%string);
    (sorted_reverse (choices f), "choice"%string);
    (sorted_reverse (metavars f), "metavar"%string) ].

Fixpoint highlight_keywords (t : HelpExtraTheme) (passes : list (list str * string))
  (help_text : str) : result str :=
  match passes with
  | [] => Ok help_text
  | (matching_keywords, style_group_id) :: passes' =>
      help_text' ← sub_each t (keyword_pattern style_group_id) matching_keywords help_text;
      highlight_keywords t passes' help_text'
  end.

Definition highlight_extra_keywords (f : HelpExtraFormatter) (help_text : str)
  : result str :=
  let t := theme f in
  help_text ← re_sub deprecated_pattern (colorize t) help_text;
  help_text ← sub_each t alias_pattern (command_aliases f) help_text;
  help_text ← sub_each t subcommand_pattern (subcommands f) help_text;
  help_text ← re_sub default_pattern (colorize t) help_text;
  help_text ← sub_each t cli_name_pattern (cli_names f) help_text;
  highlight_keywords t (keyword_passes f) help_text.

(** ** boltons.strutils

    The functions [highlight] calls, on strings as the library has them. *)

#[local] Open Scope Z_scope.

Fixpoint insertZ (x : Z) (l : list Z) : list Z :=
  match l with
  | [] => [x]
  | y :: l' => if x <=? y then x :: l else y :: insertZ x l'
  end.

(** [sorted(l)] on integers *)
Definition sortedZ (l : list Z) : list Z := fold_right insertZ [] l.

(** [range(lo, hi)] *)
Definition rangeZ (lo hi : Z) : list Z :=
  map (fun k => lo + Z.of_nat k) (seq 0 (Z.to_nat (hi - lo))).

(** [f"{n}"] and ['{:d}'.format(n)]: the decimal digits, after a minus sign
    when [n] is negative. *)
Definition str_of_Z (n : Z) : str := s2l (NilZero.string_of_int (Z.to_int n)).

(** [int(x)] on what these functions pass to it: digits, with or without a
    minus sign in front.  Anything else raises [ValueError], the empty
    string included. *)
Definition int (x : str) : result Z :=
  match NilZero.int_of_string (string_of_list_ascii x) with
  | Some d => Ok (Z.of_int d)
  | None => Raise ValueError
  end.

(** [s.split(delim)] with a delimiter of one character *)
Fixpoint split (delim : ascii) (s : str) : list str :=
  match s with
  | [] => [[]]
  | c :: s' =>
      if chr_eqb c delim then [] :: split delim s'
      else match split delim s' with
           | piece :: pieces => (c :: piece) :: pieces
           | [] => [[c]]
           end
  end.

(** [delim.join(pieces)] *)
Fixpoint join (delim : str) (pieces : list str) : str :=
  match pieces with
  | [] => []
  | piece :: pieces' =>
      match pieces' with
      | [] => piece
      | _ :: _ => piece ++ delim ++ join delim pieces'
      end
  end.

Fixpoint lstrip (s : str) : str :=
  match s with
  | [] => []
  | c :: s' => if is_space c then lstrip s' else s
  end.

(** [s.strip()] *)
Definition strip (s : str) : str := rev (lstrip (rev (lstrip s))).

(** [delim in x] *)
Definition has_chr (delim : ascii) (x : str) : bool := existsb (chr_eqb delim) x.

(** [list(map(int, xs))] *)
Fixpoint map_int (xs : list str) : result (list Z) :=
  match xs with
  | [] => Ok []
  | x :: xs' =>
      n ← int x;
      ns ← map_int xs';
      Ok (n :: ns)
  end.

(** [min(l)] and [max(l)]; [split] never returns an empty list *)
Definition list_min (l : list Z) : Z :=
  match l with
  | [] => 0
  | x :: l' => fold_left Z.min l' x
  end.

Definition list_max (l : list Z) : Z :=
  match l with
  | [] => 0
  | x :: l' => fold_left Z.max l' x
  end.

(** The loop of [parse_int_list] *)
Fixpoint parse_pieces (pieces : list str) : result (list Z) :=
  match pieces with
  | [] => Ok []
  | x :: pieces' =>
      here ← (if has_chr "-" x then
                range_limits ← map_int (split "-" x);
                Ok (rangeZ (list_min range_limits) (list_max range_limits + 1))
              else
                match x with
                | [] => Ok []
                | _ :: _ => n ← int x; Ok [n]
                end);
      output ← parse_pieces pieces';
      Ok (here ++ output)
  end.

Definition parse_int_list (range_string : str) : result (list Z) :=
  output ← parse_pieces (split "," (strip range_string));
  Ok (sortedZ output).

(** What [format_int_list] appends to [output] for a contiguous run: the
    integer when the run has one element, ["lo-hi"] when it has more. *)
Definition range_substr (lo hi : Z) : str :=
  if lo =? hi then str_of_Z lo else str_of_Z lo ++ "-"%char :: str_of_Z hi.

(** The loop of [format_int_list] over the sorted integers: [cur] is the
    contiguous run being built (its least and greatest element), [output]
    the pieces already written, last one first. *)
Fixpoint format_runs (cur : option (Z * Z)) (output : list str) (l : list Z)
  : list str :=
  match l with
  | [] =>
      match cur with
      | None => rev output
      | Some (lo, hi) => rev (range_substr lo hi :: output)
      end
  | x :: l' =>
      match cur with
      | None => format_runs (Some (x, x)) output l'
      | Some (lo, hi) =>
          let delta := x - hi in
          if delta =? 1 then format_runs (Some (lo, x)) output l'
          else if delta >? 1
               then format_runs (Some (x, x)) (range_substr lo hi :: output) l'
               else format_runs cur output l'
      end
  end.

Definition format_int_list (int_list : list Z) : str :=
  join [","%char] (format_runs None [] (sortedZ int_list)).

Definition memZ (x : Z) (l : list Z) : bool := existsb (Z.eqb x) l.

Definition complement_int_list (range_string : str) (range_end : Z) : result str :=
  int_list ← parse_int_list range_string;
  Ok (format_int_list (List.filter (fun x => negb (memZ x int_list)) (rangeZ 0 range_end))).

(** The loop of [int_ranges_from_int_list] *)
Fixpoint int_tuples (pieces : list str) : result (list (Z * Z)) :=
  match pieces with
  | [] => Ok []
  | bounds :: pieces' =>
      tuple ← (if has_chr "-" bounds then
                 match split "-" bounds with
                 | [start; end_] => a ← int start; b ← int end_; Ok (a, b)
                 | _ => Raise ValueError
                 end
               else a ← int bounds; b ← int bounds; Ok (a, b));
      tuples ← int_tuples pieces';
      Ok (tuple :: tuples)
  end.

Definition int_ranges_from_int_list (range_string : str) : result (list (Z * Z)) :=
  int_list ← parse_int_list range_string;
  let range_string := format_int_list int_list in
  match range_string with
  | [] => Ok []
  | _ :: _ => int_tuples (split "," range_string)
  end.

(** ** highlight *)

Definition pair_leb (a b : Z * Z) : bool :=
  (fst a <? fst b) || ((fst a =? fst b) && (snd a <=? snd b)).

Fixpoint insert_pair (x : Z * Z) (l : list (Z * Z)) : list (Z * Z) :=
  match l with
  | [] => [x]
  | y :: l' => if pair_leb x y then x :: l else y :: insert_pair x l'
  end.

(** [sorted(l)] on tuples *)
Definition sorted_pairs (l : list (Z * Z)) : list (Z * Z) :=
  fold_right insert_pair [] l.

Definition mem_pair (x : Z * Z) (l : list (Z * Z)) : bool :=
  existsb (fun y => (fst x =? fst y) && (snd x =? snd y)) l.

(** [string[i:j]] for indices that are not negative. *)
Definition slice (string : str) (i j : Z) : str :=
  firstn (Z.to_nat j - Z.to_nat i) (skipn (Z.to_nat i) string).

(** [f"{match.start()}-{match.end() - 1}"] *)
Definition range_of_match (m : nat * nat) : str :=
  str_of_Z (Z.of_nat (fst m)) ++ "-"%char :: str_of_Z (Z.of_nat (snd m) - 1).

Section Highlight.
(** [regex.finditer(part, string, flags=flags, overlapped=True)]: the
    [(match.start(), match.end())] of the matches, or the exception the
    pattern raises. *)
Variable finditer : str -> str -> bool -> result (list (nat * nat)).

(** The loop over [set(substrings)]: [ranges] is the set of range strings
    gathered so far. *)
Fixpoint highlight_matches (ranges : list str) (substrings : list str) (string : str)
  (ignore_case : bool) : result (list str) :=
  match substrings with
  | [] => Ok ranges
  | part :: substrings' =>
      ms ← finditer part string ignore_case;
      highlight_matches (set_update ranges (map range_of_match ms))
        substrings' string ignore_case
  end.

Fixpoint highlight_segments (string : str) (styling_method : IStyle)
  (highlight_ranges all_ranges : list (Z * Z)) : str :=
  match all_ranges with
  | [] => []
  | (i, j) :: rest =>
      let segment := slice string i (j + 1) in
      (if mem_pair (i, j) highlight_ranges then styling_method segment else segment)
        ++ highlight_segments string styling_method highlight_ranges rest
  end.

(** What [highlight] computes before it styles: the highlighted and the
    untouched ranges. *)
Definition highlight_ranges_of (string : str) (substrings : list str)
  (ignore_case : bool) : result (list (Z * Z) * list (Z * Z)) :=
  ranges ← highlight_matches [] substrings string ignore_case;
  let ranges := join [","%char] ranges in
  highlight_ranges ← int_ranges_from_int_list ranges;
  complement ← complement_int_list ranges (Z.of_nat (length string));
  untouched_ranges ← int_ranges_from_int_list complement;
  Ok (highlight_ranges, untouched_ranges).

Definition highlight (string : str) (substrings : list str)
  (styling_method : IStyle) (ignore_case : bool) : result str :=
  rs ← highlight_ranges_of string substrings ignore_case;
  Ok (highlight_segments string styling_method (fst rs)
        (sorted_pairs (fst rs ++ snd rs))).
End Highlight.

#[local] Close Scope Z_scope.

(** ** The [regex] engine behind [highlight]

    [highlight] passes each element of [substrings] to [regex.finditer] as
    it is.  The syntax modelled here: a character that is not special
    stands for itself, [.] is any character but a line feed, and a
    backslash makes the punctuation character after it literal.  Any other
    construct is outside the model ([Unmodelled]). *)

Definition is_special (c : ascii) : bool :=
  existsb (chr_eqb c) (s2l "()[]{}?*+|^$\.").

Definition literal (ignore_case : bool) (c : ascii) : node :=
  One (if ignore_case then chr_i c else chr c).

Fixpoint re3_compile (ignore_case : bool) (part : str) : option (list node) :=
  match part with
  | [] => Some []
  | c :: rest =>
      if chr_eqb c "\" then
        match rest with
        | c' :: rest' =>
            if is_word c' then None
            else option_map (cons (literal ignore_case c')) (re3_compile ignore_case rest')
        | [] => None
        end
      else if chr_eqb c "." then option_map (cons (One dot)) (re3_compile ignore_case rest)
      else if is_special c then None
      else option_map (cons (literal ignore_case c)) (re3_compile ignore_case rest)
  end.

(** With [overlapped=True] the search for the next match starts one
    character after the start of the previous one: every position is
    tried, and yields at most one match. *)
Fixpoint overlapped_from (ns : list node) (pos : nat) (s : str) : list (nat * nat) :=
  let here :=
    match m_nodes ns (fun acc _ => Some (length acc)) [] s with
    | Some n => [(pos, pos + n)]
    | None => []
    end in
  match s with
  | [] => here
  | _ :: s' => here ++ overlapped_from ns (S pos) s'
  end.

Definition re3_finditer (part string : str) (ignore_case : bool)
  : result (list (nat * nat)) :=
  match re3_compile ignore_case part with
  | Some ns => Ok (overlapped_from ns 0 string)
  | None => Raise Unmodelled
  end.

(** ** ExtraHelpColorsMixin.collect_keywords *)

Record Param := {
  opts : list str;
  secondary_opts : list str;
  (** [Some choices] when [isinstance(param.type, Choice)] *)
  type_choices : option (list str);
  make_metavar : str
}.

Record Command := {
  collect_usage_pieces : list str;
  (** [None] when the command has no [list_commands]; otherwise the
      identifiers of the subcommands, each with
      [getattr(sub_cmd, "aliases", [])] *)
  list_commands : option (list (str * list str));
  params : list Param
}.

Record Context := {
  command_path : str;
  command : Command;
  help_option_names : list str
}.

(** The loop over [command.params]: the state is [(options, choices,
    metavars)]. *)
Definition collect_param (st : list str * list str * list str) (param : Param)
  : list str * list str * list str :=
  let '(options, choices, metavars) := st in
  let options := set_update options (opts param) in
  let options := set_update options (secondary_opts param) in
  let choices := match type_choices param with
                 | Some cs => set_update choices cs
                 | None => choices
                 end in
  (options, choices, set_add metavars (make_metavar param)).

(** The loop that splits the options: the state is
    [(long_options, short_options)]. *)
Definition split_option (st : list str * list str) (option_name : str)
  : list str * list str :=
  let '(long_options, short_options) := st in
  if length option_name <=? 2 then (long_options, set_add short_options option_name)
  else (set_add long_options option_name, short_options).

(** The options gathered before the split. *)
Definition collect_options (ctx : Context) : list str :=
  fst (fst (fold_left collect_param (params (command ctx))
              (set_update [] (help_option_names ctx), [], []))).

Definition collect_keywords (ctx : Context)
  : list str * list str * list str * list str * list str * list str * list str :=
  let cli_names := set_add [] (command_path ctx) in
  let cmd := command ctx in
  let metavars := set_update [] (collect_usage_pieces cmd) in
  let '(subcommands, command_aliases) :=
    match list_commands cmd with
    | Some subs =>
        (set_update [] (map fst subs),
         fold_left (fun acc sub => set_update acc (snd sub)) subs [])
    | None => ([], [])
    end in
  let options := set_update [] (help_option_names ctx) in
  let '(options, choices, metavars) :=
    fold_left collect_param (params cmd) (options, [], metavars) in
  let '(long_options, short_options) := fold_left split_option options ([], []) in
  (cli_names, subcommands, command_aliases, long_options, short_options,
   choices, metavars).

(** ** ColorOption.disable_colors *)

Definition color_env_vars : list (string * bool) :=
  [ ("COLOR", true); ("COLORS", true); ("CLICOLOR", true); ("CLICOLORS", true);
    ("FORCE_COLOR", true); ("FORCE_COLORS", true); ("CLICOLOR_FORCE", true);
    ("CLICOLORS_FORCE", true);
    ("NOCOLOR", false); ("NOCOLORS", false); ("NO_COLOR", false);
    ("NO_COLORS", false) ]%string.

(** [configparser.RawConfigParser.BOOLEAN_STATES] *)
Definition BOOLEAN_STATES : list (string * bool) :=
  [ ("1", true); ("yes", true); ("true", true); ("on", true);
    ("0", false); ("no", false); ("false", false); ("off", false) ]%string.

(** [click.core.ParameterSource] *)
Inductive ParameterSource :=
| COMMANDLINE
| ENVIRONMENT
| DEFAULT
| DEFAULT_MAP
| PROMPT.

Definition ParameterSource_eqb (a b : ParameterSource) : bool :=
  match a, b with
  | COMMANDLINE, COMMANDLINE | ENVIRONMENT, ENVIRONMENT | DEFAULT, DEFAULT
  | DEFAULT_MAP, DEFAULT_MAP | PROMPT, PROMPT => true
  | _, _ => false
  end.

Inductive callback := restore_original_styling.

(** What [disable_colors] reads and writes in the click context: the
    source of the [color] parameter, the [color] flag and the callbacks
    registered with [call_on_close]. *)
Record ClickContext := {
  color_source : ParameterSource;
  color : option bool;
  on_close : list callback
}.

Definition string_lower (v : string) : string :=
  string_of_list_ascii (str_lower (s2l v)).

(** The vote of one variable: [default ^ (not var_boolean)]. *)
Definition env_vote (default : bool) (var_value : string) : bool :=
  let var_boolean :=
    match assoc (string_lower var_value) BOOLEAN_STATES with
    | Some b => b
    | None => true
    end in
  xorb default (negb var_boolean).

(** The loop over [color_env_vars.items()]; the set of booleans is the
    list of the votes, in the order of the table. *)
Fixpoint colorize_from_env (environ : gmap string string) (vars : list (string * bool))
  : list bool :=
  match vars with
  | [] => []
  | (var, default) :: vars' =>
      match environ !! var with
      | Some var_value => env_vote default var_value :: colorize_from_env environ vars'
      | None => colorize_from_env environ vars'
      end
  end.

(** The value [disable_colors] settles on. *)
Definition resolve_color (environ : gmap string string) (source : ParameterSource)
  (value : bool) : bool :=
  let votes := colorize_from_env environ color_env_vars in
  match votes with
  | [] => value
  | _ :: _ =>
      let env_takes_precedence := ParameterSource_eqb source DEFAULT in
      if env_takes_precedence then existsb (Bool.eqb true) votes else value
  end.

Definition disable_colors (environ : gmap string string) (ctx : ClickContext)
  (value : bool) : ClickContext :=
  let value := resolve_color environ (color_source ctx) value in
  let ctx := {| color_source := color_source ctx; color := Some value;
                on_close := on_close ctx |} in
  if negb value
  then {| color_source := color_source ctx; color := color ctx;
          on_close := on_close ctx ++ [restore_original_styling] |}
  else ctx.

(** ** HelpExtraTheme.with_ *)

(** The keyword arguments of [with_]: [None] where the caller gives none. *)
Record with_kwargs := {
  arg_invoked_command : option IStyle;
  arg_command_help : option IStyle;
  arg_heading : option IStyle;
  arg_constraint : option IStyle;
  arg_section_help : option IStyle;
  arg_col1 : option IStyle;
  arg_col2 : option IStyle;
  arg_epilog : option IStyle;
  arg_critical : option IStyle;
  arg_error : option IStyle;
  arg_warning : option IStyle;
  arg_info : option IStyle;
  arg_debug : option IStyle;
  arg_subheading : option IStyle;
  arg_option : option IStyle;
  arg_choice : option IStyle;
  arg_metavar : option IStyle;
  arg_search : option IStyle;
  arg_success : option IStyle
}.

(** The values of [kwargs] once [self] is popped: the arguments that are
    not [None], in the order of the parameters. *)
Definition kwargs (a : with_kwargs) : list IStyle :=
  omap id
    [ arg_invoked_command a; arg_command_help a; arg_heading a; arg_constraint a;
      arg_section_help a; arg_col1 a; arg_col2 a; arg_epilog a; arg_critical a;
      arg_error a; arg_warning a; arg_info a; arg_debug a; arg_subheading a;
      arg_option a; arg_choice a; arg_metavar a; arg_search a; arg_success a ].

(** [self._replace] with the arguments that are not [None] *)
Definition _replace (self : HelpExtraTheme) (a : with_kwargs) : HelpExtraTheme :=
  let new (field : option IStyle) (old : IStyle) := default old field in
  {| invoked_command := new (arg_invoked_command a) (invoked_command self);
     command_help := new (arg_command_help a) (command_help self);
     heading := new (arg_heading a) (heading self);
     constraint := new (arg_constraint a) (constraint self);
     section_help := new (arg_section_help a) (section_help self);
     col1 := new (arg_col1 a) (col1 self);
     col2 := new (arg_col2 a) (col2 self);
     epilog := new (arg_epilog a) (epilog self);
     critical := new (arg_critical a) (critical self);
     error := new (arg_error a) (error self);
     warning := new (arg_warning a) (warning self);
     info := new (arg_info a) (info self);
     debug := new (arg_debug a) (debug self);
     subheading := new (arg_subheading a) (subheading self);
     option_ := new (arg_option a) (option_ self);
     choice := new (arg_choice a) (choice self);
     metavar := new (arg_metavar a) (metavar self);
     search := new (arg_search a) (search self);
     success := new (arg_success a) (success self) |}.

Definition with_ (self : HelpExtraTheme) (a : with_kwargs) : HelpExtraTheme :=
  match kwargs a with
  | _ :: _ => _replace self a
  | [] => self
  end.

(** ** run.args_cleanup

    From [src/click_extra/run.py]. *)

(** [Arg = Union[str, Path, None]]; a path is given by the string [str]
    turns it into. *)
Inductive Arg :=
| AStr (s : str)
| APath (p : str)
| ANone.

(** [NestedArgs]: arguments and iterables of them, at any depth. *)
Inductive NestedArg :=
| Atom (arg : Arg)
| Nested (items : list NestedArg).

(** [boltons.iterutils.flatten]: an item that is iterable, and no string,
    is replaced by its flattened items. *)
Fixpoint flatten_item (item : NestedArg) : list Arg :=
  match item with
  | Atom arg => [arg]
  | Nested items => flat_map flatten_item items
  end.

Definition flatten (iterable : list NestedArg) : list Arg :=
  flat_map flatten_item iterable.

(** [arg is not None] *)
Definition is_not_None (arg : Arg) : bool :=
  match arg with ANone => false | _ => true end.

(** [str(arg)] *)
Definition str_ (arg : Arg) : str :=
  match arg with
  | AStr s => s
  | APath p => p
  | ANone => s2l "None"
  end.

Definition args_cleanup (args : list NestedArg) : list str :=
  map str_ (List.filter is_not_None (flatten args)).

(** ** run.env_copy *)

(** What [env_copy] may be given: [None], a [dict], or a mapping of
    another type.  The keys are strings, the values of type
    [Optional[str]]. *)
Inductive EnvVars :=
| NoEnvVars
| DictEnvVars (d : gmap string (option string))
| OtherEnvVars (m : gmap string (option string)).

(** [isinstance(v, str)] for every value of the [dict] *)
Definition all_str (d : gmap string (option string)) : bool :=
  forallb (fun kv => match snd kv with Some _ => true | None => false end)
    (map_to_list d).

(** [env_copy = dict(os.environ); env_copy.update(extend)] *)
Definition updated (environ : gmap string string) (extend : gmap string (option string))
  : gmap string string :=
  omap id extend ∪ environ.

Definition env_copy (environ : gmap string string) (extend : EnvVars)
  : result (option (gmap string string)) :=
  match extend with
  | DictEnvVars d =>
      if all_str d
      then Ok (if decide (d = ∅) then None else Some (updated environ d))
      else Raise AssertionError
  | OtherEnvVars m => if decide (m = ∅) then Ok None else Raise AssertionError
  | NoEnvVars => Ok None
  end.

(** ** The [invoke] fixture

    From [src/click_extra/tests/conftest.py]: what [_run] does to its
    arguments before it invokes the command. *)

(** [type(arg) == str] *)
Definition is_str (arg : Arg) : bool :=
  match arg with AStr _ => true | _ => false end.

(** [args = list(filter(None.__ne__, flatten(args)))], then
    [assert same(map(type, args), str)] when the list is not empty.
    [None.__ne__] answers [False] for [None] and [NotImplemented], which
    [filter] takes for true, for anything else. *)
Definition invoke_args (args : list NestedArg) : result (list Arg) :=
  let args := List.filter is_not_None (flatten args) in
  match args with
  | [] => Ok args
  | _ :: _ => if forallb is_str args then Ok args else Raise AssertionError
  end.

(** * Vocabulary of the statements *)

(** The spellings [collect_keywords] gathers for the split. *)
Definition option_spelling (ctx : Context) (x : str) : Prop :=
  In x (help_option_names ctx) \/
  exists p, In p (params (command ctx)) /\ (In x (opts p) \/ In x (secondary_opts p)).

(** The long and the short options in the tuple [collect_keywords] returns. *)
Definition kw_long (k : list str * list str * list str * list str * list str * list str * list str) :=
  let '(_, _, _, long_options, _, _, _) := k in long_options.

Definition kw_short (k : list str * list str * list str * list str * list str * list str * list str) :=
  let '(_, _, _, _, short_options, _, _) := k in short_options.

(** A command with one option and the usual help option. *)
Definition example_context : Context :=
  {| command_path := s2l "cli";
     command := {| collect_usage_pieces := [s2l "[OPTIONS]"];
                   list_commands := None;
                   params := [ {| opts := [s2l "--verbose"; s2l "-v"];
                                  secondary_opts := [s2l "--no-verbose"];
                                  type_choices := None;
                                  make_metavar := s2l "BOOLEAN" |} ] |};
     help_option_names := [s2l "--help"; s2l "-h"] |}.

(** [pat] is a prefix of [s], character by character under [f]. *)
Fixpoint starts_with (f : ascii -> ascii -> bool) (pat s : str) : bool :=
  match pat, s with
  | [], _ => true
  | c :: pat', x :: s' => f c x && starts_with f pat' s'
  | _ :: _, [] => false
  end.

(** The words a node, and a sequence of nodes, stand for. *)
Definition node_match (n : node) (u : str) : Prop :=
  match n with
  | One p => exists c, u = [c] /\ p c = true
  | Star p => forallb p u = true
  | Plus p | PlusLazy p => u <> [] /\ forallb p u = true
  end.

Fixpoint nodes_match (ns : list node) (u : str) : Prop :=
  match ns with
  | [] => u = []
  | n :: ns' => exists u1 u2, u = u1 ++ u2 /\ node_match n u1 /\ nodes_match ns' u2
  end.

(** [m] consumes a word of [L] and goes on with [k]. *)
Definition sound {R} (L : str -> Prop) (m : @cont R -> @cont R) : Prop :=
  forall k acc s r,
    m k acc s = Some r ->
    exists u s', L u /\ s = u ++ s' /\ k (rev u ++ acc) s' = Some r.

(** A group and what it captured. *)
Definition group_match (g : group) (cap : captured) : Prop :=
  fst cap = gname g /\ nodes_match (gbody g) (snd cap).

(** The first group of the pattern starts with a single character, so a
    match is never empty. *)
Definition consuming (pat : pattern) : Prop :=
  exists name p ns gs, pat = Group name (One p :: ns) :: gs.

(** The group names [style_group] can resolve. *)
Definition known_id (id : string) : bool :=
  match theme_getattr nocolor_theme id, assoc id (style_alias nocolor_theme) with
  | None, None => false
  | _, _ => true
  end.

(** What the assertion of [colorize] checks. *)
Definition groups_invertible (m : list captured) : bool :=
  length (invert (groupdict m)) =? length (groupdict m).






(** [t] is [keyword] with blank characters allowed after each dash. *)
Inductive spaced : str -> str -> Prop :=
| spaced_nil : spaced [] []
| spaced_char c keyword t :
    c <> "-"%char -> spaced keyword t -> spaced (c :: keyword) (c :: t)
| spaced_dash keyword blanks t :
    forallb is_space blanks = true -> spaced keyword t ->
    spaced ("-"%char :: keyword) ("-"%char :: blanks ++ t).

(** Every match of [pat] has the character [c] at offset [n]. *)
Definition requires (pat : pattern) (n : nat) (c : ascii) : Prop :=
  forall s caps rest, match_at pat s = Some (caps, rest) -> nth_error s n = Some c.






(** The other sets in the tuple [collect_keywords] returns. *)
Definition kw_cli_names (k : list str * list str * list str * list str * list str * list str * list str) :=
  let '(cli_names, _, _, _, _, _, _) := k in cli_names.

Definition kw_subcommands (k : list str * list str * list str * list str * list str * list str * list str) :=
  let '(_, subcommands, _, _, _, _, _) := k in subcommands.

Definition kw_command_aliases (k : list str * list str * list str * list str * list str * list str * list str) :=
  let '(_, _, command_aliases, _, _, _, _) := k in command_aliases.

Definition kw_choices (k : list str * list str * list str * list str * list str * list str * list str) :=
  let '(_, _, _, _, _, choices, _) := k in choices.

Definition kw_metavars (k : list str * list str * list str * list str * list str * list str * list str) :=
  let '(_, _, _, _, _, _, metavars) := k in metavars.

(** The boolean [disable_colors] reads in the value of a variable:
    [RawConfigParser.BOOLEAN_STATES.get(var_value.lower(), True)]. *)
Definition var_boolean (var_value : string) : bool :=
  match assoc (string_lower var_value) BOOLEAN_STATES with
  | Some b => b
  | None => true
  end.

(** A keyword that holds no blank character and does not end with a
    dash. *)
Definition plain_keyword (keyword : str) : Prop :=
  forallb not_space keyword = true /\ List.last keyword "x"%char <> "-"%char.

(** The arguments of [with_] that name every role of a theme. *)
Definition every_role (t : HelpExtraTheme) : with_kwargs :=
  {| arg_invoked_command := Some (invoked_command t);
     arg_command_help := Some (command_help t);
     arg_heading := Some (heading t);
     arg_constraint := Some (constraint t);
     arg_section_help := Some (section_help t);
     arg_col1 := Some (col1 t);
     arg_col2 := Some (col2 t);
     arg_epilog := Some (epilog t);
     arg_critical := Some (critical t);
     arg_error := Some (error t);
     arg_warning := Some (warning t);
     arg_info := Some (info t);
     arg_debug := Some (debug t);
     arg_subheading := Some (subheading t);
     arg_option := Some (option_ t);
     arg_choice := Some (choice t);
     arg_metavar := Some (metavar t);
     arg_search := Some (search t);
     arg_success := Some (success t) |}.

(** No argument at all. *)
Definition no_kwargs : with_kwargs :=
  {| arg_invoked_command := None; arg_command_help := None; arg_heading := None;
     arg_constraint := None; arg_section_help := None; arg_col1 := None;
     arg_col2 := None; arg_epilog := None; arg_critical := None; arg_error := None;
     arg_warning := None; arg_info := None; arg_debug := None;
     arg_subheading := None; arg_option := None; arg_choice := None;
     arg_metavar := None; arg_search := None; arg_success := None |}.

(** The arguments of two calls in a row, as one: where both name a role,
    the second call wins. *)
Definition then_kwargs (a b : with_kwargs) : with_kwargs :=
  let both (x y : option IStyle) := match y with Some _ => y | None => x end in
  {| arg_invoked_command := both (arg_invoked_command a) (arg_invoked_command b);
     arg_command_help := both (arg_command_help a) (arg_command_help b);
     arg_heading := both (arg_heading a) (arg_heading b);
     arg_constraint := both (arg_constraint a) (arg_constraint b);
     arg_section_help := both (arg_section_help a) (arg_section_help b);
     arg_col1 := both (arg_col1 a) (arg_col1 b);
     arg_col2 := both (arg_col2 a) (arg_col2 b);
     arg_epilog := both (arg_epilog a) (arg_epilog b);
     arg_critical := both (arg_critical a) (arg_critical b);
     arg_error := both (arg_error a) (arg_error b);
     arg_warning := both (arg_warning a) (arg_warning b);
     arg_info := both (arg_info a) (arg_info b);
     arg_debug := both (arg_debug a) (arg_debug b);
     arg_subheading := both (arg_subheading a) (arg_subheading b);
     arg_option := both (arg_option a) (arg_option b);
     arg_choice := both (arg_choice a) (arg_choice b);
     arg_metavar := both (arg_metavar a) (arg_metavar b);
     arg_search := both (arg_search a) (arg_search b);
     arg_success := both (arg_success a) (arg_success b) |}.

(** A call that returns, or fails on an assertion. *)
Definition returns_or_asserts {A} (r : result A) : Prop :=
  (exists a, r = Ok a) \/ r = Raise AssertionError.

#[local] Open Scope Z_scope.

(** Strictly increasing lists. *)
Definition increasing (l : list Z) : Prop := StronglySorted Z.lt l.

(** Lists in ascending order, repetitions allowed. *)
Definition ascendingZ (l : list Z) : Prop := StronglySorted Z.le l.

(** The integers a range string stands for. *)
Definition expand (rs : list (Z * Z)) : list Z :=
  flat_map (fun r => rangeZ (fst r) (snd r + 1)) rs.

(** [format_runs], run by run. *)
Fixpoint grow (lo hi : Z) (l : list Z) : list (Z * Z) :=
  match l with
  | [] => [(lo, hi)]
  | x :: l' =>
      if x - hi =? 1 then grow lo x l'
      else if x - hi >? 1 then (lo, hi) :: grow x x l'
      else grow lo hi l'
  end.

(** Ranges compared by their first index. *)
Definition by_start (r r' : Z * Z) : Prop := fst r <= fst r'.

(** The slices of a list of ranges, unstyled. *)
Definition plain_segments (s : str) (rs : list (Z * Z)) : str :=
  flat_map (fun r => slice s (fst r) (snd r + 1)) rs.

(** The decimal digits. *)
Definition is_digit (c : ascii) : bool := in_range 48 57 c.

(** The characters of a range string. *)
Definition range_char (c : ascii) : bool :=
  is_digit c || chr_eqb c "-" || chr_eqb c ",".

(** The piece of a range string that stands for a range. *)
Definition range_substr_of (r : Z * Z) : str := range_substr (fst r) (snd r).

Definition encodes (s : str) (r : Z * Z) : Prop :=
  0 <= fst r <= snd r /\
  (s = str_of_Z (fst r) ++ "-"%char :: str_of_Z (snd r) \/
   (fst r = snd r /\ s = str_of_Z (fst r))).

(** The runs of a list of integers: what [format_int_list] writes. *)
Definition runs (l : list Z) : list (Z * Z) :=
  match sortedZ l with
  | [] => []
  | x :: l' => grow x x l'
  end.

(** A range string piece written by [highlight] for a match that is not
    empty and lies within a string of length [len]. *)
Definition match_range (len : Z) (s : str) : Prop :=
  exists r, (0 <= fst r <= snd r /\ snd r < len) /\
            s = str_of_Z (fst r) ++ "-"%char :: str_of_Z (snd r).

(** Ranges in order with a gap between one and the next: the end of a
    range and the start of the next are at least two apart. *)
Definition separated (rs : list (Z * Z)) : Prop :=
  StronglySorted (fun r r' => snd r + 1 < fst r') rs.

(** Every element of [substrings] is a pattern the engine accepts, and
    every match is non-empty and lies within the string. *)
Definition proper_matches (finditer : str -> str -> bool -> result (list (nat * nat)))
  (string : str) (substrings : list str) (ignore_case : bool) : Prop :=
  forall part, In part substrings ->
    exists ms, finditer part string ignore_case = Ok ms /\
               Forall (fun m => (fst m < snd m <= length string)%nat) ms.

(** The index [k] lies within a match of one of the [substrings]. *)
Definition covered (finditer : str -> str -> bool -> result (list (nat * nat)))
  (string : str) (substrings : list str) (ignore_case : bool) (k : Z) : Prop :=
  exists part ms m, In part substrings /\ finditer part string ignore_case = Ok ms /\
                    In m ms /\ Z.of_nat (fst m) <= k < Z.of_nat (snd m).

(** The indices [boltons] reads in the range string of a match: from
    [start] to [end - 1] for a match that is not empty, and the two
    indices [start - 1] and [start] for an empty match, whose range string
    has its bounds in reverse order. *)
Definition flag_range (m : nat * nat) : Z * Z :=
  (Z.min (Z.of_nat (fst m)) (Z.of_nat (snd m) - 1),
   Z.max (Z.of_nat (fst m)) (Z.of_nat (snd m) - 1)).

(** Every element of [substrings] is a pattern the engine accepts, and no
    match ends at index 0. *)
Definition no_match_ends_at_0 (finditer : str -> str -> bool -> result (list (nat * nat)))
  (string : str) (substrings : list str) (ignore_case : bool) : Prop :=
  forall part, In part substrings ->
    exists ms, finditer part string ignore_case = Ok ms /\
               Forall (fun m => (1 <= snd m)%nat) ms.

(** The index [k] is flagged by a match of one of the [substrings]. *)
Definition flagged (finditer : str -> str -> bool -> result (list (nat * nat)))
  (string : str) (substrings : list str) (ignore_case : bool) (k : Z) : Prop :=
  exists part ms m, In part substrings /\ finditer part string ignore_case = Ok ms /\
                    In m ms /\ fst (flag_range m) <= k <= snd (flag_range m).

#[local] Close Scope Z_scope.

(** * Properties *)

(** ** Strings *)

Lemma chr_eqb_eq (a b : ascii) : chr_eqb a b = true <-> a = b.
Proof. unfold chr_eqb. apply Ascii.eqb_eq. Qed.

Lemma str_eqb_eq (a b : str) : str_eqb a b = true <-> a = b.
Proof.
  revert b. induction a as [|x a IH]; intros [|y b]; simpl; split; intros H;
    try congruence; try discriminate.
  - apply andb_true_iff in H as [H1 H2].
    apply chr_eqb_eq in H1. apply IH in H2. congruence.
  - injection H as -> ->. apply andb_true_iff. split.
    + now apply chr_eqb_eq.
    + now apply IH.
Qed.

(** ** Sets as lists *)

Lemma set_mem_In (x : str) (s : list str) : set_mem x s = true <-> In x s.
Proof.
  unfold set_mem. rewrite existsb_exists. split.
  - intros (y & Hy & E). apply str_eqb_eq in E. now subst.
  - intros H. exists x. split; [assumption | now apply str_eqb_eq].
Qed.

Lemma In_set_add (x y : str) (s : list str) :
  In x (set_add s y) <-> In x s \/ x = y.
Proof.
  unfold set_add. destruct (set_mem y s) eqn:E.
  - apply set_mem_In in E. split; [tauto | intros [H | ->]; assumption].
  - rewrite in_app_iff. simpl. intuition.
Qed.

Lemma In_set_update (x : str) (xs s : list str) :
  In x (set_update s xs) <-> In x s \/ In x xs.
Proof.
  unfold set_update. revert s. induction xs as [|y xs IH]; intros s; simpl.
  - tauto.
  - rewrite IH, In_set_add. intuition.
Qed.

(** ** collect_keywords *)

Lemma In_collect_param (x : str) (ps : list Param) (o c m : list str) :
  In x (fst (fst (fold_left collect_param ps (o, c, m)))) <->
  In x o \/ exists p, In p ps /\ (In x (opts p) \/ In x (secondary_opts p)).
Proof.
  revert o c m. induction ps as [|p ps IH]; intros o c m; simpl.
  - split; [tauto | intros [H | (p & [] & _)]; assumption].
  - destruct (type_choices p); rewrite IH, !In_set_update.
    all: split;
      [ intros [[[H | H] | H] | (q & Hq & H)]; eauto 6
      | intros [H | (q & [<- | Hq] & [H | H])]; eauto 6 ].
Qed.

Lemma In_split_option (x : str) (options long short : list str) :
  (In x (fst (fold_left split_option options (long, short))) <->
     In x long \/ (In x options /\ 2 < length x)) /\
  (In x (snd (fold_left split_option options (long, short))) <->
     In x short \/ (In x options /\ length x <= 2)).
Proof.
  revert long short. induction options as [|o options IH]; intros long short; simpl.
  - tauto.
  - change (split_option (long, short) o)
      with (if length o <=? 2 then (long, set_add short o) else (set_add long o, short)).
    destruct (Nat.leb_spec (length o) 2) as [Hl | Hl].
    + destruct (IH long (set_add short o)) as [IH1 IH2].
      rewrite IH1, IH2, In_set_add. split.
      * split; [intuition | intros [H | [[-> | H] H2]]; [tauto | lia | tauto]].
      * split; [intros [[H | ->] | H]; tauto | intros [H | [[-> | H] H2]]; tauto].
    + destruct (IH (set_add long o) short) as [IH1 IH2].
      rewrite IH1, IH2, In_set_add. split.
      * split; [intros [[H | ->] | H]; tauto | intros [H | [[-> | H] H2]]; tauto].
      * split; [intuition | intros [H | [[-> | H] H2]]; [tauto | lia | tauto]].
Qed.

Lemma collect_param_options (ps : list Param) (o c m c' m' : list str) :
  fst (fst (fold_left collect_param ps (o, c, m))) =
  fst (fst (fold_left collect_param ps (o, c', m'))).
Proof.
  revert o c m c' m'. induction ps as [|p ps IH]; intros o c m c' m'; simpl.
  - reflexivity.
  - destruct (type_choices p); apply IH.
Qed.

Lemma collect_keywords_split (ctx : Context) :
  kw_long (collect_keywords ctx) =
    fst (fold_left split_option (collect_options ctx) ([], [])) /\
  kw_short (collect_keywords ctx) =
    snd (fold_left split_option (collect_options ctx) ([], [])).
Proof.
  unfold collect_keywords, collect_options.
  destruct (list_commands (command ctx)) as [subs|].
  all: set (m := set_update [] (collect_usage_pieces (command ctx))).
  all: generalize (set_update [] (help_option_names ctx)); intros o.
  all: rewrite (collect_param_options (params (command ctx)) o [] [] [] m).
  all: destruct (fold_left collect_param (params (command ctx)) (o, [], m)) as [[o' c'] m'].
  all: simpl; destruct (fold_left split_option o' ([], [])); simpl; auto.
Qed.

(** C9. Every option spelling gathered by [collect_keywords] (the help
    option names, and the primary and secondary spellings of every
    parameter) lands in the short options exactly when its length is at
    most 2, and in the long options exactly when it is longer. *)
Theorem collect_keywords_short_iff_length_le_2 (ctx : Context) (option_name : str) :
  option_spelling ctx option_name ->
  (In option_name (kw_short (collect_keywords ctx)) <-> length option_name <= 2) /\
  (In option_name (kw_long (collect_keywords ctx)) <-> 2 < length option_name).
Proof.
  intros Hs.
  assert (Ho : In option_name (collect_options ctx)).
  { unfold collect_options. apply In_collect_param.
    destruct Hs as [H | H]; [left | right; exact H].
    apply In_set_update. now right. }
  destruct (collect_keywords_split ctx) as [-> ->].
  destruct (In_split_option option_name (collect_options ctx) [] []) as [H1 H2].
  rewrite H1, H2. simpl. split; split; try tauto; intros; right; tauto.
Qed.

Lemma collect_keywords_short_iff_length_le_2_witness :
  option_spelling example_context (s2l "-v") /\
  ((In (s2l "-v") (kw_short (collect_keywords example_context)) <-> length (s2l "-v") <= 2) /\
   (In (s2l "-v") (kw_long (collect_keywords example_context)) <-> 2 < length (s2l "-v"))).
Proof.
  assert (H : option_spelling example_context (s2l "-v")).
  { right. eexists. split; [left; reflexivity | left; right; left; reflexivity]. }
  split; [exact H | exact (collect_keywords_short_iff_length_le_2 _ _ H)].
Defined.

(** ** disable_colors *)

(** With a recognized variable in the environment and the value taken
    from the option's default, the environment decides: colours are on
    exactly when one vote is [true]. *)
Lemma resolve_color_default (environ : gmap string string) (value : bool) :
  colorize_from_env environ color_env_vars <> [] ->
  resolve_color environ DEFAULT value =
    existsb (Bool.eqb true) (colorize_from_env environ color_env_vars).
Proof.
  unfold resolve_color. destruct (colorize_from_env environ color_env_vars).
  - congruence.
  - reflexivity.
Qed.

(** From any other source the value is kept, the configuration file
    ([DEFAULT_MAP]) included. *)
Lemma resolve_color_other_source (environ : gmap string string)
  (source : ParameterSource) (value : bool) :
  source <> DEFAULT -> resolve_color environ source value = value.
Proof.
  intros H. unfold resolve_color.
  destruct (colorize_from_env environ color_env_vars); [reflexivity|].
  destruct source; try reflexivity. congruence.
Qed.

(** A value that is no boolean word leaves the polarity of the variable
    as its vote. *)
Lemma env_vote_unparseable (default : bool) (var_value : string) :
  assoc (string_lower var_value) BOOLEAN_STATES = None ->
  env_vote default var_value = default.
Proof. intros H. unfold env_vote. rewrite H. now destruct default. Qed.

(** C3. The environment is meant to override a value that comes from the
    default or from the configuration file (so says the comment in
    [disable_colors]), but the code compares the source with
    [ParameterSource.DEFAULT] only.  With [NO_COLOR=1]: a default [true]
    is overridden and colours are disabled, while a [true] read from the
    configuration file (source [DEFAULT_MAP]) stays [true]. *)
Theorem disable_colors_config_file_value_not_overridden :
  color (disable_colors {[ "NO_COLOR"%string := "1"%string ]}
           {| color_source := DEFAULT; color := None; on_close := [] |} true)
    = Some false /\
  color (disable_colors {[ "NO_COLOR"%string := "1"%string ]}
           {| color_source := DEFAULT_MAP; color := None; on_close := [] |} true)
    = Some true.
Proof. split; vm_compute; reflexivity. Qed.

(** C4. When the value of the option comes from the command line,
    [disable_colors] keeps it, whatever the environment holds; so
    [--color] with [NO_COLOR=1] leaves colours enabled. *)
Theorem disable_colors_commandline_value_wins
  (environ : gmap string string) (c : option bool) (cbs : list callback) (value : bool) :
  color (disable_colors environ
           {| color_source := COMMANDLINE; color := c; on_close := cbs |} value)
    = Some value /\
  color (disable_colors {[ "NO_COLOR"%string := "1"%string ]}
           {| color_source := COMMANDLINE; color := c; on_close := cbs |} true)
    = Some true.
Proof.
  assert (H : forall e v, resolve_color e COMMANDLINE v = v).
  { intros e v. unfold resolve_color.
    destruct (colorize_from_env e color_env_vars); reflexivity. }
  split; unfold disable_colors; cbn [color_source]; rewrite H.
  - destruct value; reflexivity.
  - reflexivity.
Qed.

(** ** The matcher on literal text *)

Lemma m_nodes_literals {R} (f : ascii -> ascii -> bool) (pat : str)
  (k : @cont R) (acc s : str) :
  m_nodes (map (fun c => One (f c)) pat) k acc s =
    if starts_with f pat s
    then k (rev (firstn (length pat) s) ++ acc) (skipn (length pat) s)
    else None.
Proof.
  revert acc s. induction pat as [|c pat IH]; intros acc s; simpl.
  - reflexivity.
  - destruct s as [|x s]; simpl; [reflexivity|].
    destruct (f c x); simpl; [|reflexivity].
    rewrite IH. rewrite <- app_assoc. reflexivity.
Qed.

Lemma starts_with_chr (pat s : str) :
  starts_with chr pat s = true <-> firstn (length pat) s = pat.
Proof.
  revert s. induction pat as [|c pat IH]; intros [|x s]; simpl; try tauto.
  - split; discriminate.
  - rewrite andb_true_iff, IH. unfold chr. rewrite chr_eqb_eq.
    split; [intros [-> ->]; reflexivity | intros H; injection H; auto].
Qed.



(** ** highlight on literal substrings *)

(** Evaluates the ranges of a call of [highlight] on closed arguments and
    leaves the styling function applied to the slices. *)
Ltac eval_highlight :=
  lazymatch goal with
  | |- highlight ?f ?s ?subs ?st ?ic = _ =>
      unfold highlight;
      let r := eval vm_compute in (highlight_ranges_of f s subs ic) in
      change (highlight_ranges_of f s subs ic) with r;
      unfold mbind, result_bind; cbn; rewrite ?app_nil_r
  end.




(** C10. The elements of [substrings] reach the regex engine unescaped:
    the substring ["."] occurs nowhere in ["abc"], yet every character of
    ["abc"] is flagged and the whole string comes back styled. *)
Theorem highlight_reads_substrings_as_patterns (styling_method : IStyle) :
  ~ In "."%char (s2l "abc") /\
  highlight_ranges_of re3_finditer (s2l "abc") [s2l "."] false
    = Ok ([(0%Z, 2%Z)], []) /\
  highlight re3_finditer (s2l "abc") [s2l "."] styling_method false
    = Ok (styling_method (s2l "abc")).
Proof.
  split; [|split].
  - simpl. intros [H | [H | [H | []]]]; discriminate H.
  - vm_compute. reflexivity.
  - eval_highlight. reflexivity.
Qed.

(** C1. An element of [substrings] that matches the empty string at index
    0 (the empty substring does) is recorded as the range ["0--1"], which
    [boltons] cannot parse: [highlight] raises [ValueError] instead of
    returning the string. *)
Theorem highlight_empty_substring_raises (styling_method : IStyle) :
  re3_finditer [] (s2l "a") false = Ok [(0, 0); (1, 1)] /\
  highlight_matches re3_finditer [] [[]] (s2l "a") false
    = Ok [s2l "0--1"; s2l "1-0"] /\
  split "-" (s2l "0--1") = [s2l "0"; []; s2l "1"] /\
  int [] = Raise ValueError /\
  highlight re3_finditer (s2l "a") [[]] styling_method false = Raise ValueError.
Proof. repeat split; vm_compute; reflexivity. Qed.

(** ** Soundness of the matcher

    What the matcher hands to its continuation is a split of the input:
    the part consumed belongs to the language of the nodes, and nothing is
    lost or reordered. *)

Lemma sound_one {R} (p : ascii -> bool) :
  @sound R (fun u => exists c, u = [c] /\ p c = true) (one p).
Proof.
  intros k acc [|c s] r H; simpl in H; [discriminate|].
  destruct (p c) eqn:E; [|discriminate].
  exists [c], s. repeat split; eauto.
Qed.

Lemma sound_star_greedy {R} (p : ascii -> bool) :
  @sound R (fun u => forallb p u = true) (star_greedy p).
Proof.
  intros k acc s. revert acc. induction s as [|c s IH]; intros acc r H; simpl in H.
  - exists [], []. auto.
  - destruct (p c) eqn:E; [|exists [], (c :: s); auto].
    destruct (star_greedy p k (c :: acc) s) as [r'|] eqn:E'.
    + injection H as ->. destruct (IH _ _ E') as (u & s' & Hu & -> & Hk).
      exists (c :: u), s'. simpl. rewrite E, Hu, <- app_assoc. auto.
    + exists [], (c :: s). auto.
Qed.

Lemma sound_star_lazy {R} (p : ascii -> bool) :
  @sound R (fun u => forallb p u = true) (star_lazy p).
Proof.
  intros k acc s. revert acc. induction s as [|c s IH]; intros acc r H; simpl in H.
  - destruct (k acc []) eqn:E; [|discriminate]. exists [], []. rewrite <- H. auto.
  - destruct (k acc (c :: s)) eqn:E.
    + exists [], (c :: s). rewrite <- H. auto.
    + destruct (p c) eqn:Ep; [|discriminate].
      destruct (IH _ _ H) as (u & s' & Hu & -> & Hk).
      exists (c :: u), s'. simpl. rewrite Ep, Hu, <- app_assoc. auto.
Qed.

Lemma sound_comp {R} (L1 L2 : str -> Prop) (m1 m2 : @cont R -> @cont R) :
  sound L1 m1 -> sound L2 m2 ->
  sound (fun u => exists u1 u2, u = u1 ++ u2 /\ L1 u1 /\ L2 u2) (fun k => m1 (m2 k)).
Proof.
  intros H1 H2 k acc s r H.
  destruct (H1 _ _ _ _ H) as (u1 & s1 & Hu1 & -> & Hk1).
  destruct (H2 _ _ _ _ Hk1) as (u2 & s2 & Hu2 & -> & Hk2).
  exists (u1 ++ u2), s2. rewrite rev_app_distr, <- !app_assoc. eauto 8.
Qed.

Lemma sound_m_nodes {R} (ns : list node) : @sound R (nodes_match ns) (m_nodes ns).
Proof.
  induction ns as [|n ns IH].
  - intros k acc s r H. exists [], s. simpl. auto.
  - intros k acc s r H.
    assert (S1 : sound (fun u => exists u1 u2, u = u1 ++ u2 /\ node_match n u1 /\ nodes_match ns u2)
                   (fun k : @cont R => m_nodes (n :: ns) k)).
    { destruct n as [p | p | p | p]; simpl.
      - apply (sound_comp _ _ (one p) (m_nodes ns)); [apply sound_one | exact IH].
      - apply (sound_comp _ _ (star_greedy p) (m_nodes ns));
          [apply sound_star_greedy | exact IH].
      - intros k' acc' s' r' H'.
        destruct (sound_one p _ _ _ _ H') as (u1 & s1 & (c & -> & Hc) & -> & Hk1).
        destruct (sound_star_greedy p _ _ _ _ Hk1) as (u2 & s2 & Hu2 & -> & Hk2).
        destruct (IH _ _ _ _ Hk2) as (u3 & s3 & Hu3 & -> & Hk3).
        exists ((c :: u2) ++ u3), s3. split; [|split].
        + exists (c :: u2), u3. repeat split; simpl; [discriminate | now rewrite Hc, Hu2 | auto].
        + simpl. now rewrite <- app_assoc.
        + simpl. rewrite rev_app_distr. simpl in Hk3. rewrite <- !app_assoc in *.
          simpl. exact Hk3.
      - intros k' acc' s' r' H'.
        destruct (sound_one p _ _ _ _ H') as (u1 & s1 & (c & -> & Hc) & -> & Hk1).
        destruct (sound_star_lazy p _ _ _ _ Hk1) as (u2 & s2 & Hu2 & -> & Hk2).
        destruct (IH _ _ _ _ Hk2) as (u3 & s3 & Hu3 & -> & Hk3).
        exists ((c :: u2) ++ u3), s3. split; [|split].
        + exists (c :: u2), u3. repeat split; simpl; [discriminate | now rewrite Hc, Hu2 | auto].
        + simpl. now rewrite <- app_assoc.
        + simpl. rewrite rev_app_distr. simpl in Hk3. rewrite <- !app_assoc in *.
          simpl. exact Hk3. }
    exact (S1 _ _ _ _ H).
Qed.

Lemma m_groups_sound (gs : pattern) (caps : list captured) (s : str)
  (caps' : list captured) (rest : str) :
  m_groups gs caps s = Some (caps', rest) ->
  exists new, caps' = rev caps ++ new /\ Forall2 group_match gs new /\
              s = group0 new ++ rest.
Proof.
  revert caps s. induction gs as [|g gs IH]; intros caps s H; simpl in H.
  - injection H as <- <-. exists []. rewrite app_nil_r. auto.
  - destruct (sound_m_nodes (gbody g) _ _ _ _ H) as (u & s' & Hu & -> & Hk).
    rewrite app_nil_r, rev_involutive in Hk.
    destruct (IH _ _ Hk) as (new & -> & HF & ->).
    exists ((gname g, u) :: new). simpl. rewrite <- app_assoc. repeat split.
    + constructor; [split; auto | exact HF].
    + unfold group0. simpl. now rewrite <- app_assoc.
Qed.

(** A match is a split of the text: the groups, one per group of the
    pattern and each in the language of its group, then the rest. *)
Lemma match_at_sound (pat : pattern) (s : str) (caps : list captured) (rest : str) :
  match_at pat s = Some (caps, rest) ->
  Forall2 group_match pat caps /\ s = group0 caps ++ rest.
Proof.
  intros H. destruct (m_groups_sound _ _ _ _ _ H) as (new & -> & HF & ->). auto.
Qed.

(** ** re.sub when the replacement gives the match back *)

Lemma match_at_consumes (pat : pattern) (s : str) (caps : list captured) (rest : str) :
  consuming pat -> match_at pat s = Some (caps, rest) -> 0 < length (group0 caps).
Proof.
  intros (name & p & ns & gs & ->) H.
  destruct (match_at_sound _ _ _ _ H) as [HF _].
  inversion HF as [|g cap gs' caps' [_ Hm] HF']; subst.
  simpl in Hm. destruct Hm as (u1 & u2 & E & (c & -> & _) & _).
  unfold group0. simpl. rewrite E. simpl. lia.
Qed.


(** ** colorize with the no-color theme *)




Lemma dict_get_set (k k' : str) (v : string) (d : list (str * string)) (v' : string) :
  dict_get k' (dict_set k v d) = Some v' -> v' = v \/ dict_get k' d = Some v'.
Proof.
  induction d as [|[k0 v0] d IH]; simpl.
  - destruct (str_eqb k' k); [intros H; injection H; auto | discriminate].
  - destruct (str_eqb k k0) eqn:E; simpl.
    + apply str_eqb_eq in E. subst k0.
      destruct (str_eqb k' k); [intros H; injection H; auto | auto].
    + destruct (str_eqb k' k0); auto.
Qed.

Lemma dict_get_invert (gd : list (string * str)) (k : str) (v : string) :
  dict_get k (invert gd) = Some v -> In v (map fst gd).
Proof.
  unfold invert.
  enough (H : forall d, dict_get k (fold_left (fun d kv => dict_set (snd kv) (fst kv) d) gd d) = Some v ->
                        In v (map fst gd) \/ dict_get k d = Some v).
  { intros E. destruct (H [] E) as [H' | H']; [exact H' | discriminate]. }
  induction gd as [|[n t] gd IH]; intros d; simpl; [auto|].
  intros E. destruct (IH _ E) as [H | H]; [auto|].
  apply dict_get_set in H. simpl in H. destruct H as [-> | H]; auto.
Qed.

Lemma In_groupdict (caps : list captured) (id : string) :
  In id (map fst (groupdict caps)) -> In (Some id) (map fst caps).
Proof.
  induction caps as [|[[n|] t] caps IH]; simpl; [tauto | | auto].
  intros [-> | H]; auto.
Qed.


Lemma keys_dict_set (k : str) (v : string) (d : list (str * string)) :
  map fst (dict_set k v d) = set_add (map fst d) k.
Proof.
  unfold set_add. induction d as [|[k0 v0] d IH]; simpl; [reflexivity|].
  destruct (str_eqb k k0) eqn:E; simpl.
  - apply str_eqb_eq in E. now subst.
  - rewrite IH. fold (set_mem k (map fst d)). destruct (set_mem k (map fst d)); reflexivity.
Qed.

Lemma keys_fold_dict_set (gd : list (string * str)) (d : list (str * string)) :
  map fst (fold_left (fun d kv => dict_set (snd kv) (fst kv) d) gd d) =
  set_update (map fst d) (map snd gd).
Proof.
  unfold set_update. revert d. induction gd as [|[n t] gd IH]; intros d; simpl.
  - reflexivity.
  - rewrite IH, keys_dict_set. reflexivity.
Qed.

Lemma length_set_update_le (xs s : list str) :
  length (set_update s xs) <= length s + length xs.
Proof.
  unfold set_update. revert s. induction xs as [|y xs IH]; intros s; simpl; [lia|].
  specialize (IH (set_add s y)). unfold set_add in *.
  destruct (set_mem y s); [|rewrite length_app in IH; simpl in IH]; lia.
Qed.

Lemma length_set_update_eq (xs s : list str) :
  length (set_update s xs) = length s + length xs <->
  List.NoDup xs /\ forall x, In x xs -> ~ In x s.
Proof.
  revert s. induction xs as [|y xs IH]; intros s.
  - simpl. split; [intros _; split; [constructor | tauto] | lia].
  - change (set_update s (y :: xs)) with (set_update (set_add s y) xs).
    pose proof (length_set_update_le xs (set_add s y)) as Hle.
    unfold set_add in *. destruct (set_mem y s) eqn:E.
    + apply set_mem_In in E. simpl. split; [lia|].
      intros [_ H]. exfalso. apply (H y); auto.
    + assert (Hy : ~ In y s) by (rewrite <- set_mem_In; congruence).
      specialize (IH (s ++ [y])). rewrite length_app in IH. simpl in *.
      replace (length s + S (length xs)) with (length s + 1 + length xs) by lia.
      rewrite IH. split.
      * intros [Hnd H]. split.
        -- constructor; [|exact Hnd]. intros Hin. apply (H y Hin).
           apply in_app_iff. right. now left.
        -- intros x [<- | Hx]; [exact Hy|]. intros Hs. apply (H x Hx).
           apply in_app_iff. now left.
      * intros [Hnd H]. inversion Hnd as [|? ? Hny Hnd']; subst. split; [exact Hnd'|].
        intros x Hx Hin. apply in_app_iff in Hin as [Hin | [<- | []]].
        -- apply (H x); auto.
        -- exact (Hny Hx).
Qed.

(** The assertion of [colorize] holds exactly when the named groups
    captured texts that differ from one another. *)
Lemma groups_invertible_NoDup (m : list captured) :
  groups_invertible m = true <-> List.NoDup (map snd (groupdict m)).
Proof.
  unfold groups_invertible. rewrite Nat.eqb_eq.
  rewrite <- (length_map fst (invert (groupdict m))).
  unfold invert. rewrite keys_fold_dict_set.
  rewrite <- (length_map snd (groupdict m)).
  change (length (map snd (groupdict m)))
    with (length (map fst (@nil (str * string))) + length (map snd (groupdict m))).
  rewrite length_set_update_eq. simpl. tauto.
Qed.


Lemma Forall2_group_names (pat : pattern) (caps : list captured) :
  Forall2 group_match pat caps -> map fst caps = map gname pat.
Proof.
  induction 1 as [|g cap gs caps [E _] _ IH]; simpl; [reflexivity|].
  now rewrite E, IH.
Qed.















(** ** sorted *)




Lemma ord_inj (x y : ascii) : ord x = ord y -> x = y.
Proof.
  unfold ord. intros H. rewrite <- (ascii_nat_embedding x), <- (ascii_nat_embedding y).
  now rewrite H.
Qed.

(** Two strings neither of which is below the other are equal. *)
Lemma str_ltb_total (a b : str) :
  str_ltb a b = false -> str_ltb b a = false -> a = b.
Proof.
  revert b. induction a as [|x a IH]; intros [|y b]; simpl; try congruence.
  destruct (Nat.ltb_spec (ord x) (ord y)), (Nat.ltb_spec (ord y) (ord x));
    try congruence; try lia.
  intros H1 H2. f_equal; [apply ord_inj; lia | now apply IH].
Qed.

Section Sorting.
Variable lt : str -> str -> bool.
Hypothesis lt_trans : forall a b c, lt a b = true -> lt b c = true -> lt a c = true.
Hypothesis lt_asym : forall a b, lt a b = true -> lt b a = false.





End Sorting.



(** ** The keyword passes *)

Lemma escape_for_help_sceen_spaced (keyword t : str) :
  nodes_match (escape_for_help_sceen keyword) t -> spaced keyword t.
Proof.
  revert t. induction keyword as [|c keyword IH]; intros t; simpl.
  - intros ->. constructor.
  - destruct (chr_eqb c "-") eqn:E; simpl.
    + apply chr_eqb_eq in E. subst c.
      intros (u1 & u2 & -> & (x & -> & Hx) & w & v & -> & Hw & Hv).
      apply chr_eqb_eq in Hx. subst x. simpl. apply spaced_dash; auto.
    + intros (u1 & u2 & -> & (x & -> & Hx) & Hv).
      apply chr_eqb_eq in Hx. subst x. simpl. apply spaced_char; auto.
      intros ->. discriminate E.
Qed.


Lemma keyword_match_contexts (id : string) (keyword s : str)
  (caps : list captured) (rest : str) :
  match_at (keyword_pattern id keyword) s = Some (caps, rest) ->
  exists l t r,
    caps = [(None, [l]); (Some id, t); (None, [r])] /\
    s = l :: t ++ r :: rest /\
    keyword_left_context l = true /\ is_word r = false /\ spaced keyword t.
Proof.
  intros H. destruct (match_at_sound _ _ _ _ H) as [HF ->].
  inversion HF as [|g1 [n1 t1] gs1 caps1 [E1 M1] HF1]; subst.
  inversion HF1 as [|g2 [n2 t2] gs2 caps2 [E2 M2] HF2]; subst.
  inversion HF2 as [|g3 [n3 t3] gs3 caps3 [E3 M3] HF3]; subst.
  inversion HF3; subst. simpl in *. subst.
  destruct M1 as (u1 & u2 & -> & (l & -> & Hl) & ->).
  destruct M3 as (v1 & v2 & -> & (r & -> & Hr) & ->).
  exists l, t2, r. unfold group0. simpl. rewrite <- ?app_assoc. simpl.
  repeat split; auto.
  - unfold not_word in Hr. now apply negb_true_iff in Hr.
  - now apply escape_for_help_sceen_spaced.
Qed.




(** ** Scanning a text with re.sub *)

Lemma sub_from_no_match (pat : pattern) (repl : list captured -> result str)
  (c : ascii) (s : str) :
  match_at pat (c :: s) = None ->
  sub_from pat repl 0 (c :: s) = (tl ← sub_from pat repl 0 s; Ok (c :: tl)).
Proof. intros H. simpl. now rewrite H. Qed.

Lemma sub_from_match (pat : pattern) (repl : list captured -> result str)
  (c : ascii) (s : str) (caps : list captured) (rest : str) :
  match_at pat (c :: s) = Some (caps, rest) ->
  sub_from pat repl 0 (c :: s) =
    (out ← repl caps;
     tl ← sub_from pat repl (length (group0 caps) - 1) s;
     Ok (out ++ tl)).
Proof. intros H. simpl. now rewrite H. Qed.

Lemma nth_error_In_firstn (l : str) (m n : nat) (c : ascii) :
  nth_error l m = Some c -> m < n -> In c (firstn n l).
Proof.
  revert m n. induction l as [|x l IH]; intros [|m] [|n] H Hlt; simpl in *;
    try discriminate; try lia.
  - left. congruence.
  - right. apply (IH m); [exact H | lia].
Qed.

(** No match starts in a prefix that lacks the required character. *)
Lemma sub_from_prefix (pat : pattern) (repl : list captured -> result str)
  (n : nat) (c : ascii) (pre rest : str) :
  requires pat n c -> ~ In c pre -> ~ In c (firstn n rest) ->
  sub_from pat repl 0 (pre ++ rest) =
    (tl ← sub_from pat repl 0 rest; Ok (pre ++ tl)).
Proof.
  intros Hreq Hpre Hrest. induction pre as [|x pre IH].
  - simpl. destruct (sub_from pat repl 0 rest); reflexivity.
  - assert (Hno : match_at pat ((x :: pre) ++ rest) = None).
    { destruct (match_at pat ((x :: pre) ++ rest)) as [[caps r]|] eqn:E; [|reflexivity].
      exfalso. apply Hreq in E.
      destruct (Nat.lt_ge_cases n (length (x :: pre))) as [Hn | Hn].
      - rewrite nth_error_app1 in E by exact Hn. apply nth_error_In in E. auto.
      - rewrite nth_error_app2 in E by exact Hn.
        apply Hrest, (nth_error_In_firstn _ _ _ _ E).
        cbn [length] in *. lia. }
    simpl app in *. rewrite (sub_from_no_match _ _ _ _ Hno), IH.
    + destruct (sub_from pat repl 0 rest); reflexivity.
    + intros H. apply Hpre. now right.
Qed.


Lemma chr_i_paren (x : ascii) : chr_i "(" x = true -> x = "("%char.
Proof.
  destruct x as [b0 b1 b2 b3 b4 b5 b6 b7].
  destruct b0, b1, b2, b3, b4, b5, b6, b7; vm_compute; congruence.
Qed.

Lemma deprecated_requires : requires deprecated_pattern 1 "(".
Proof.
  intros s caps rest H. destruct (match_at_sound _ _ _ _ H) as [HF ->].
  inversion HF as [|g1 [n1 t1] gs1 caps1 [_ M1] HF1]; subst.
  inversion HF1 as [|g2 [n2 t2] gs2 caps2 [_ M2] HF2]; subst.
  simpl in M1, M2.
  destruct M1 as (u1 & u2 & -> & (a & -> & _) & ->).
  destruct M2 as (v1 & v2 & -> & (x & -> & Hx) & _).
  apply chr_i_paren in Hx. subst x. reflexivity.
Qed.





(** ** The default-value annotation *)






(** ** Two options, one a prefix of the other *)

Lemma one_cons_true {R} (p : ascii -> bool) (k : @cont R) (acc : str) (c : ascii) (s : str) :
  p c = true -> one p k acc (c :: s) = k (c :: acc) s.
Proof. intros H. simpl. now rewrite H. Qed.








Lemma str_eqb_refl (a : str) : str_eqb a a = true.
Proof. now apply str_eqb_eq. Qed.





Section TwoOptions.
Variables (t : HelpExtraTheme) (pre mid post : str) (l1 r1 l2 r2 : ascii).
Hypothesis Hstyle : option_ t = Style "36" false.
Hypothesis Hpre : ~ In "-"%char pre.
Hypothesis Hmid : ~ In "-"%char (r1 :: mid).
Hypothesis Hpost : ~ In "-"%char (r2 :: post).
Hypothesis Hl1 : is_space l1 || chr_eqb l1 "|" = true.
Hypothesis Hl2 : is_space l2 || chr_eqb l2 "|" = true.
Hypothesis Hr1 : is_word r1 = false.
Hypothesis Hr2 : is_word r2 = false.





End TwoOptions.





(** ** The ranges of highlight

    When no match is empty, the highlighted and the untouched ranges tile
    the string. *)

#[local] Open Scope Z_scope.

Lemma In_rangeZ (lo hi x : Z) : In x (rangeZ lo hi) <-> lo <= x < hi.
Proof.
  unfold rangeZ. rewrite in_map_iff. split.
  - intros (k & <- & Hk). apply in_seq in Hk. lia.
  - intros H. exists (Z.to_nat (x - lo)). split; [lia|]. apply in_seq. lia.
Qed.

Lemma rangeZ_nil (lo hi : Z) : hi <= lo -> rangeZ lo hi = [].
Proof.
  intros H. unfold rangeZ. replace (Z.to_nat (hi - lo)) with 0%nat by lia. reflexivity.
Qed.

Lemma rangeZ_cons (lo hi : Z) : lo < hi -> rangeZ lo hi = lo :: rangeZ (lo + 1) hi.
Proof.
  intros H. unfold rangeZ.
  replace (Z.to_nat (hi - lo)) with (S (Z.to_nat (hi - (lo + 1)))) by lia.
  simpl. f_equal; [lia|]. rewrite <- seq_shift, map_map.
  apply map_ext. intros k. lia.
Qed.

Lemma rangeZ_app (lo mid hi : Z) :
  lo <= mid <= hi -> rangeZ lo hi = rangeZ lo mid ++ rangeZ mid hi.
Proof.
  intros H. unfold rangeZ.
  replace (Z.to_nat (hi - lo)) with (Z.to_nat (mid - lo) + Z.to_nat (hi - mid))%nat by lia.
  rewrite seq_app, map_app. f_equal.
  generalize 0%nat. induction (Z.to_nat (hi - mid)) as [|n IH]; intros k; simpl.
  - reflexivity.
  - f_equal; [lia|]. rewrite <- Nat.add_succ_l. apply IH.
Qed.

Lemma increasing_rangeZ (lo hi : Z) : increasing (rangeZ lo hi).
Proof.
  unfold increasing.
  remember (Z.to_nat (hi - lo)) as n eqn:En. revert lo En.
  induction n as [|n IH]; intros lo En.
  - rewrite rangeZ_nil by lia. constructor.
  - rewrite rangeZ_cons by lia. constructor.
    + apply IH. lia.
    + apply List.Forall_forall. intros x Hx. apply In_rangeZ in Hx. lia.
Qed.

Lemma increasing_app (l1 l2 : list Z) :
  increasing l1 -> increasing l2 ->
  (forall a b, In a l1 -> In b l2 -> a < b) ->
  increasing (l1 ++ l2).
Proof.
  unfold increasing. intros H1 H2 H. induction H1 as [|x l1 Hs IH Hx]; simpl.
  - exact H2.
  - constructor.
    + apply IH. intros a b Ha Hb. apply H; [now right | exact Hb].
    + apply List.Forall_app. split; [exact Hx|].
      apply List.Forall_forall. intros b Hb. apply H; [now left | exact Hb].
Qed.

Lemma increasing_NoDup (l : list Z) : increasing l -> List.NoDup l.
Proof.
  induction 1 as [|x l Hs IH Hx]; constructor; [|exact IH].
  intros Hin. rewrite List.Forall_forall in Hx. specialize (Hx _ Hin). lia.
Qed.

(** Two increasing lists with the same elements are the same list. *)
Lemma increasing_ext (l1 l2 : list Z) :
  increasing l1 -> increasing l2 -> (forall x, In x l1 <-> In x l2) -> l1 = l2.
Proof.
  intros H1. revert l2. induction H1 as [|x l1 Hs IH Hx]; intros l2 H2 H.
  - destruct l2 as [|y l2]; [reflexivity|]. exfalso. apply (H y). now left.
  - destruct H2 as [|y l2 Hs2 Hy].
    + exfalso. apply (H x). now left.
    + rewrite List.Forall_forall in Hx, Hy.
      assert (x = y).
      { destruct (proj1 (H x) (or_introl eq_refl)) as [E | Hin]; [congruence|].
        destruct (proj2 (H y) (or_introl eq_refl)) as [E | Hin']; [congruence|].
        specialize (Hx _ Hin'). specialize (Hy _ Hin). lia. }
      subst y. f_equal. apply IH; [exact Hs2|].
      intros z. split; intros Hz.
      * destruct (proj1 (H z) (or_intror Hz)) as [E | Hin]; [|exact Hin].
        subst z. specialize (Hx _ Hz). lia.
      * destruct (proj2 (H z) (or_intror Hz)) as [E | Hin]; [|exact Hin].
        subst z. specialize (Hy _ Hz). lia.
Qed.

(** [sortedZ] *)
Lemma In_insertZ (x y : Z) (l : list Z) : In y (insertZ x l) <-> y = x \/ In y l.
Proof.
  induction l as [|z l IH]; simpl; [intuition|].
  destruct (x <=? z); simpl; rewrite ?IH; intuition.
Qed.

Lemma In_sortedZ (y : Z) (l : list Z) : In y (sortedZ l) <-> In y l.
Proof.
  unfold sortedZ. induction l as [|x l IH]; simpl; [tauto|].
  rewrite In_insertZ, IH. intuition.
Qed.

Lemma insertZ_sorted (x : Z) (l : list Z) : ascendingZ l -> ascendingZ (insertZ x l).
Proof.
  unfold ascendingZ. induction 1 as [|z l Hs IH Hz]; simpl.
  - constructor; constructor.
  - destruct (Z.leb_spec x z).
    + constructor; [now constructor|]. constructor; [exact H|].
      rewrite List.Forall_forall in *. intros y Hy. specialize (Hz _ Hy). lia.
    + constructor; [exact IH|]. rewrite List.Forall_forall in *.
      intros y Hy. apply In_insertZ in Hy as [-> | Hy]; [lia | now apply Hz].
Qed.

Lemma sortedZ_sorted (l : list Z) : ascendingZ (sortedZ l).
Proof.
  unfold sortedZ. induction l as [|x l IH]; simpl.
  - constructor.
  - now apply insertZ_sorted.
Qed.

Lemma string_of_uint_digits (d : Decimal.uint) :
  forallb is_digit (s2l (NilEmpty.string_of_uint d)) = true.
Proof. induction d; simpl; auto. Qed.

Lemma str_of_Z_digits (n : Z) :
  0 <= n -> forallb is_digit (str_of_Z n) = true /\ str_of_Z n <> [].
Proof.
  intros Hn. unfold str_of_Z. destruct n as [|p|p]; try lia.
  - split; [reflexivity | discriminate].
  - simpl. pose proof (Unsigned.to_uint_nonnil p) as Hp.
    destruct (Pos.to_uint p) eqn:E; try congruence;
      (split; [exact (string_of_uint_digits _) | discriminate]).
Qed.

Lemma int_str_of_Z (n : Z) : int (str_of_Z n) = Ok n.
Proof.
  unfold int, str_of_Z, s2l. rewrite string_of_list_ascii_of_string.
  rewrite NilZero.isi.
  - now rewrite DecimalZ.of_to.
  - destruct n; simpl; try discriminate.
    intros H. injection H. apply Unsigned.to_uint_nonnil.
  - destruct n; simpl; try discriminate.
    intros H. injection H. apply Unsigned.to_uint_nonnil.
Qed.

Lemma digits_no_chr (c : ascii) (s : str) :
  is_digit c = false -> forallb is_digit s = true -> has_chr c s = false.
Proof.
  intros Hc. induction s as [|x s IH]; simpl; [reflexivity|].
  rewrite andb_true_iff. intros [Hx Hs]. rewrite (IH Hs), orb_false_r.
  destruct (chr_eqb c x) eqn:E; [|reflexivity].
  apply chr_eqb_eq in E. congruence.
Qed.

(** [split] and [join] *)
Lemma split_no_delim (d : ascii) (s : str) : has_chr d s = false -> split d s = [s].
Proof.
  induction s as [|c s IH]; simpl; [reflexivity|].
  rewrite orb_false_iff. intros [Hc Hs]. rewrite (IH Hs).
  destruct (chr_eqb c d) eqn:E; [|reflexivity].
  apply chr_eqb_eq in E. subst c.
  assert (chr_eqb d d = true) by now apply chr_eqb_eq. congruence.
Qed.

Lemma split_app (d : ascii) (a b : str) :
  has_chr d a = false -> split d (a ++ d :: b) = a :: split d b.
Proof.
  induction a as [|c a IH]; simpl.
  - intros _. assert (chr_eqb d d = true) as -> by now apply chr_eqb_eq. reflexivity.
  - rewrite orb_false_iff. intros [Hc Ha]. rewrite (IH Ha).
    destruct (chr_eqb c d) eqn:E; [|reflexivity].
    apply chr_eqb_eq in E. subst c.
    assert (chr_eqb d d = true) by now apply chr_eqb_eq. congruence.
Qed.

Lemma split_join (d : ascii) (pieces : list str) :
  pieces <> [] -> Forall (fun p => has_chr d p = false) pieces ->
  split d (join [d] pieces) = pieces.
Proof.
  intros Hne H. induction H as [|p pieces Hp H IH]; [congruence|].
  destruct pieces as [|q pieces].
  - simpl. now apply split_no_delim.
  - change (join [d] (p :: q :: pieces)) with (p ++ d :: join [d] (q :: pieces)).
    rewrite (split_app _ _ _ Hp), IH; [reflexivity | discriminate].
Qed.

Lemma lstrip_id (s : str) : forallb (fun c => negb (is_space c)) s = true -> lstrip s = s.
Proof.
  destruct s as [|c s]; simpl; [reflexivity|].
  rewrite andb_true_iff, negb_true_iff. now intros [-> _].
Qed.

Lemma strip_id (s : str) : forallb (fun c => negb (is_space c)) s = true -> strip s = s.
Proof.
  intros H. unfold strip. rewrite (lstrip_id _ H), lstrip_id, rev_involutive; [reflexivity|].
  rewrite forallb_forall in *. intros c Hc. apply H. now apply in_rev.
Qed.

Lemma range_char_not_space (c : ascii) : range_char c = true -> negb (is_space c) = true.
Proof.
  destruct c as [b0 b1 b2 b3 b4 b5 b6 b7].
  destruct b0, b1, b2, b3, b4, b5, b6, b7; vm_compute; congruence.
Qed.

Lemma digits_range_chars (s : str) :
  forallb is_digit s = true -> forallb range_char s = true.
Proof.
  rewrite !forallb_forall. intros H c Hc. unfold range_char. now rewrite (H c Hc).
Qed.

Lemma encodes_range_substr (r : Z * Z) :
  0 <= fst r <= snd r -> encodes (range_substr_of r) r.
Proof.
  intros H. split; [exact H|]. unfold range_substr_of, range_substr.
  destruct (Z.eqb_spec (fst r) (snd r)); auto.
Qed.

Lemma encodes_chars (s : str) (r : Z * Z) :
  encodes s r ->
  forallb range_char s = true /\ has_chr "," s = false /\ s <> [].
Proof.
  intros [Hr Hs].
  destruct (str_of_Z_digits (fst r)) as [Da Na]; [lia|].
  destruct (str_of_Z_digits (snd r)) as [Db Nb]; [lia|].
  destruct Hs as [-> | [_ ->]].
  - split; [|split].
    + rewrite forallb_app. simpl. now rewrite !digits_range_chars.
    + unfold has_chr. rewrite existsb_app. simpl.
      fold (has_chr "," (str_of_Z (fst r))). fold (has_chr "," (str_of_Z (snd r))).
      now rewrite !digits_no_chr.
    + destruct (str_of_Z (fst r)); discriminate.
  - split; [now apply digits_range_chars | split; [now apply digits_no_chr | exact Na]].
Qed.

Lemma rangeZ_one (a : Z) : rangeZ a (a + 1) = [a].
Proof. rewrite rangeZ_cons, rangeZ_nil by lia. reflexivity. Qed.

Lemma parse_pieces_encoded (ss : list str) (rs : list (Z * Z)) :
  Forall2 encodes ss rs -> parse_pieces ss = Ok (expand rs).
Proof.
  induction 1 as [|s [a b] ss rs [Hr Hs] _ IH]; [reflexivity|].
  cbn [parse_pieces]. rewrite IH. simpl in Hr, Hs.
  destruct (str_of_Z_digits a) as [Da Na]; [lia|].
  destruct (str_of_Z_digits b) as [Db Nb]; [lia|].
  destruct Hs as [-> | [<- ->]].
  - assert (has_chr "-" (str_of_Z a ++ "-"%char :: str_of_Z b) = true) as ->.
    { unfold has_chr. rewrite existsb_app. simpl. now rewrite orb_true_r. }
    rewrite split_app by now apply digits_no_chr.
    rewrite split_no_delim by now apply digits_no_chr.
    cbn [map_int]. rewrite !int_str_of_Z. cbn [mbind result_bind].
    cbn [list_min list_max fold_left]. rewrite Z.min_l, Z.max_r by lia. reflexivity.
  - rewrite digits_no_chr by (exact Da || reflexivity).
    destruct (str_of_Z a) as [|c t] eqn:E; [congruence|]. rewrite <- E.
    rewrite int_str_of_Z. cbn [mbind result_bind expand flat_map fst snd].
    now rewrite rangeZ_one.
Qed.

Lemma forallb_join (P : ascii -> bool) (d : ascii) (ss : list str) :
  P d = true -> Forall (fun s => forallb P s = true) ss ->
  forallb P (join [d] ss) = true.
Proof.
  intros Hd. induction 1 as [|s ss Hs _ IH]; [reflexivity|].
  destruct ss as [|s' ss]; [exact Hs|].
  change (join [d] (s :: s' :: ss)) with (s ++ d :: join [d] (s' :: ss)).
  rewrite forallb_app. cbn [forallb]. rewrite Hs, Hd. exact IH.
Qed.

Lemma join_nonempty (d : str) (s : str) (ss : list str) : s <> [] -> join d (s :: ss) <> [].
Proof.
  intros Hs. destruct ss; simpl; [exact Hs|].
  destruct s; [congruence | discriminate].
Qed.

Lemma split_join_encoded (ss : list str) (rs : list (Z * Z)) :
  Forall2 encodes ss rs -> ss <> [] ->
  split "," (strip (join [","%char] ss)) = ss.
Proof.
  intros H Hne. rewrite strip_id.
  - apply split_join; [exact Hne|].
    induction H as [|s r ss rs Hs _ IH]; constructor.
    + now apply (encodes_chars s r).
    + destruct ss; [constructor | apply IH; discriminate].
  - apply forallb_forall. intros c Hc. apply range_char_not_space.
    revert c Hc. apply forallb_forall. apply forallb_join; [reflexivity|].
    clear Hne. induction H as [|s r ss rs Hs _ IH]; constructor; [|exact IH].
    now apply (encodes_chars s r).
Qed.

Lemma parse_int_list_encoded (ss : list str) (rs : list (Z * Z)) :
  Forall2 encodes ss rs ->
  parse_int_list (join [","%char] ss) = Ok (sortedZ (expand rs)).
Proof.
  intros H. unfold parse_int_list. destruct ss as [|s ss].
  - inversion H. reflexivity.
  - rewrite (split_join_encoded _ _ H) by discriminate.
    now rewrite (parse_pieces_encoded _ _ H).
Qed.

Lemma format_runs_grow (lo hi : Z) (output : list str) (l : list Z) :
  format_runs (Some (lo, hi)) output l
  = rev output ++ map range_substr_of (grow lo hi l).
Proof.
  revert lo hi output. induction l as [|x l IH]; intros lo hi output; simpl.
  - reflexivity.
  - destruct (x - hi =? 1); [apply IH|].
    destruct (x - hi >? 1); [|apply IH].
    rewrite IH. simpl. now rewrite <- app_assoc.
Qed.

Lemma format_int_list_runs (l : list Z) :
  format_int_list l = join [","%char] (map range_substr_of (runs l)).
Proof.
  unfold format_int_list, runs. destruct (sortedZ l) as [|x s]; [reflexivity|].
  cbn [format_runs]. now rewrite format_runs_grow.
Qed.

Lemma grow_spec (l : list Z) (lo hi : Z) :
  lo <= hi -> ascendingZ l -> Forall (fun x => hi <= x) l ->
  increasing (expand (grow lo hi l)) /\
  (forall x, In x (expand (grow lo hi l)) <-> lo <= x <= hi \/ In x l) /\
  Forall (fun r => fst r <= snd r) (grow lo hi l).
Proof.
  revert lo hi. induction l as [|y l IH]; intros lo hi Hle Hs Hhi.
  - simpl. rewrite app_nil_r. split; [apply increasing_rangeZ|]. split.
    + intros x. rewrite In_rangeZ. simpl.
      assert (lo <= x < hi + 1 <-> lo <= x <= hi) by lia. tauto.
    + constructor; [exact Hle | constructor].
  - apply StronglySorted_inv in Hs as [Hs Hy].
    apply List.Forall_cons_iff in Hhi as [Hy' Hhi]. cbn [grow].
    destruct (Z.eqb_spec (y - hi) 1) as [E | E].
    + destruct (IH lo y) as (I1 & I2 & I3); [lia | exact Hs | exact Hy |].
      split; [exact I1|]. split; [|exact I3].
      intros x. rewrite I2. simpl.
      assert (lo <= x <= y <-> lo <= x <= hi \/ y = x) by lia. tauto.
    + destruct (Z.gtb_spec (y - hi) 1) as [G | G].
      * destruct (IH y y) as (I1 & I2 & I3); [lia | exact Hs | exact Hy |].
        cbn [expand flat_map fst snd]. fold (expand (grow y y l)). split; [|split].
        -- apply increasing_app; [apply increasing_rangeZ | exact I1 |].
           intros a b Ha Hb. apply In_rangeZ in Ha. apply I2 in Hb.
           rewrite List.Forall_forall in Hy. destruct Hb as [Hb | Hb]; [lia|].
           specialize (Hy _ Hb). lia.
        -- intros x. rewrite in_app_iff, In_rangeZ, I2. simpl.
           assert (y <= x <= y <-> y = x) by lia.
           assert (lo <= x < hi + 1 <-> lo <= x <= hi) by lia. tauto.
        -- constructor; [exact Hle | exact I3].
      * assert (y = hi) by lia. subst y.
        destruct (IH lo hi) as (I1 & I2 & I3); [lia | exact Hs | exact Hhi |].
        split; [exact I1|]. split; [|exact I3].
        intros x. rewrite I2. simpl.
        assert (hi = x -> lo <= x <= hi) by lia. tauto.
Qed.

Lemma runs_spec (l : list Z) :
  increasing (expand (runs l)) /\
  (forall x, In x (expand (runs l)) <-> In x l) /\
  Forall (fun r => fst r <= snd r) (runs l).
Proof.
  unfold runs. pose proof (sortedZ_sorted l) as Hs.
  assert (Hin : forall x, In x (sortedZ l) <-> In x l) by (intros; apply In_sortedZ).
  destruct (sortedZ l) as [|y s].
  - simpl. split; [constructor|]. split; [|constructor]. intros x. now rewrite <- Hin.
  - apply StronglySorted_inv in Hs as [Hs Hy].
    destruct (grow_spec s y y) as (I1 & I2 & I3); [lia | exact Hs | exact Hy |].
    split; [exact I1|]. split; [|exact I3].
    intros x. rewrite I2, <- Hin. simpl.
    assert (y <= x <= y <-> y = x) by lia. tauto.
Qed.

Lemma In_expand (k : Z) (rs : list (Z * Z)) :
  In k (expand rs) <-> exists r, In r rs /\ fst r <= k <= snd r.
Proof.
  unfold expand. rewrite in_flat_map. split; intros (r & Hr & Hk); exists r;
    (split; [exact Hr|]); apply In_rangeZ in Hk || apply In_rangeZ; lia.
Qed.

(** The runs of integers that are not negative are ranges a range string
    can hold. *)
Lemma runs_nonneg (l : list Z) :
  Forall (fun x => 0 <= x) l -> Forall (fun r => 0 <= fst r <= snd r) (runs l).
Proof.
  intros Hl. destruct (runs_spec l) as (_ & Hin & Hle).
  rewrite List.Forall_forall in *. intros r Hr. specialize (Hle _ Hr).
  split; [|exact Hle]. apply Hl, Hin, In_expand. exists r. split; [exact Hr | lia].
Qed.

Lemma Forall2_encodes_runs (rs : list (Z * Z)) :
  Forall (fun r => 0 <= fst r <= snd r) rs ->
  Forall2 encodes (map range_substr_of rs) rs.
Proof.
  induction 1 as [|r rs Hr _ IH]; constructor; [|exact IH].
  now apply encodes_range_substr.
Qed.

Lemma int_tuples_runs (rs : list (Z * Z)) :
  Forall (fun r => 0 <= fst r <= snd r) rs ->
  int_tuples (map range_substr_of rs) = Ok rs.
Proof.
  induction 1 as [|[a b] rs Hr _ IH]; [reflexivity|].
  cbn [map int_tuples]. rewrite IH. simpl in Hr.
  destruct (str_of_Z_digits a) as [Da Na]; [lia|].
  destruct (str_of_Z_digits b) as [Db Nb]; [lia|].
  unfold range_substr_of, range_substr. cbn [fst snd].
  destruct (Z.eqb_spec a b) as [<- | Hne].
  - rewrite digits_no_chr by (exact Da || reflexivity).
    now rewrite int_str_of_Z.
  - assert (has_chr "-" (str_of_Z a ++ "-"%char :: str_of_Z b) = true) as ->.
    { unfold has_chr. rewrite existsb_app. simpl. now rewrite orb_true_r. }
    rewrite split_app by now apply digits_no_chr.
    rewrite split_no_delim by now apply digits_no_chr.
    now rewrite !int_str_of_Z.
Qed.

Lemma encoded_nonneg (ss : list str) (rs : list (Z * Z)) :
  Forall2 encodes ss rs -> Forall (fun r => 0 <= fst r <= snd r) rs.
Proof. induction 1 as [|s r ss rs [Hr _] _ IH]; constructor; assumption. Qed.

Lemma expand_nonneg (rs : list (Z * Z)) :
  Forall (fun r => 0 <= fst r <= snd r) rs -> Forall (fun x => 0 <= x) (expand rs).
Proof.
  intros H. rewrite List.Forall_forall in *. intros x Hx.
  apply In_expand in Hx as (r & Hr & Hx). specialize (H _ Hr). lia.
Qed.

Lemma sortedZ_nonneg (l : list Z) :
  Forall (fun x => 0 <= x) l -> Forall (fun x => 0 <= x) (sortedZ l).
Proof.
  rewrite !List.Forall_forall. intros H x Hx. now apply H, In_sortedZ.
Qed.

Lemma split_join_runs (rs : list (Z * Z)) :
  Forall (fun r => 0 <= fst r <= snd r) rs -> rs <> [] ->
  split "," (join [","%char] (map range_substr_of rs)) = map range_substr_of rs.
Proof.
  intros H Hne. apply split_join.
  - destruct rs; [congruence | discriminate].
  - apply List.Forall_map. revert H. apply List.Forall_impl. intros r Hr.
    now apply (encodes_chars _ r), encodes_range_substr.
Qed.

(** [int_ranges_from_int_list] on a range string whose pieces stand for
    the ranges [rs]: the runs of the integers of [rs]. *)
Lemma int_ranges_from_int_list_encoded (ss : list str) (rs : list (Z * Z)) :
  Forall2 encodes ss rs ->
  int_ranges_from_int_list (join [","%char] ss) = Ok (runs (sortedZ (expand rs))).
Proof.
  intros H. unfold int_ranges_from_int_list.
  rewrite (parse_int_list_encoded _ _ H). cbn [mbind result_bind].
  rewrite format_int_list_runs.
  assert (Hnn : Forall (fun r => 0 <= fst r <= snd r) (runs (sortedZ (expand rs))))
    by (apply runs_nonneg, sortedZ_nonneg, expand_nonneg, (encoded_nonneg _ _ H)).
  destruct (runs (sortedZ (expand rs))) as [|r rs'] eqn:E; [reflexivity|].
  destruct (join [","%char] (map range_substr_of (r :: rs'))) as [|c t] eqn:Ej.
  - exfalso. revert Ej. apply join_nonempty.
    apply List.Forall_cons_iff in Hnn as [Hr _].
    now apply (encodes_chars _ r), encodes_range_substr.
  - rewrite <- Ej, split_join_runs by (exact Hnn || discriminate).
    now apply int_tuples_runs.
Qed.
Lemma memZ_In (x : Z) (l : list Z) : memZ x l = true <-> In x l.
Proof.
  unfold memZ. rewrite existsb_exists. split.
  - intros (y & Hy & E). apply Z.eqb_eq in E. now subst.
  - intros H. exists x. split; [exact H | apply Z.eqb_refl].
Qed.

(** [sorted] on the ranges. *)
Lemma insert_pair_perm (x : Z * Z) (l : list (Z * Z)) :
  Permutation (insert_pair x l) (x :: l).
Proof.
  induction l as [|y l IH]; simpl; [reflexivity|].
  destruct (pair_leb x y); [reflexivity|].
  rewrite IH. apply perm_swap.
Qed.

Lemma sorted_pairs_perm (l : list (Z * Z)) : Permutation (sorted_pairs l) l.
Proof.
  unfold sorted_pairs. induction l as [|x l IH]; simpl; [reflexivity|].
  now rewrite insert_pair_perm, IH.
Qed.

Lemma pair_leb_start (x y : Z * Z) :
  (pair_leb x y = true -> fst x <= fst y) /\ (pair_leb x y = false -> fst y <= fst x).
Proof.
  unfold pair_leb.
  destruct (Z.ltb_spec (fst x) (fst y)), (Z.eqb_spec (fst x) (fst y)); simpl;
    split; intros; try lia; discriminate.
Qed.

Lemma insert_pair_sorted (x : Z * Z) (l : list (Z * Z)) :
  StronglySorted by_start l -> StronglySorted by_start (insert_pair x l).
Proof.
  induction 1 as [|y l Hs IH Hy]; simpl.
  - constructor; constructor.
  - destruct (pair_leb x y) eqn:E.
    + apply pair_leb_start in E. constructor; [now constructor|].
      constructor; [exact E|]. rewrite List.Forall_forall in *.
      intros z Hz. specialize (Hy _ Hz). unfold by_start in *. lia.
    + apply pair_leb_start in E. constructor; [exact IH|].
      rewrite List.Forall_forall in *. intros z Hz.
      apply (Permutation_in _ (insert_pair_perm x l)) in Hz as [<- | Hz];
        [exact E | now apply Hy].
Qed.

Lemma sorted_pairs_sorted (l : list (Z * Z)) : StronglySorted by_start (sorted_pairs l).
Proof.
  unfold sorted_pairs. induction l as [|x l IH]; simpl.
  - constructor.
  - now apply insert_pair_sorted.
Qed.

Lemma NoDup_app_disjoint (l1 l2 : list Z) (x : Z) :
  List.NoDup (l1 ++ l2) -> In x l1 -> ~ In x l2.
Proof.
  induction l1 as [|y l1 IH]; simpl; [tauto|].
  intros Hnd [-> | Hx] H2; apply List.NoDup_cons_iff in Hnd as [Hy Hnd].
  - apply Hy, in_app_iff. now right.
  - exact (IH Hnd Hx H2).
Qed.

(** Ranges sorted by their start that share no integer follow one another. *)
Lemma increasing_expand (rs : list (Z * Z)) :
  StronglySorted by_start rs -> Forall (fun r => fst r <= snd r) rs ->
  List.NoDup (expand rs) -> increasing (expand rs).
Proof.
  induction 1 as [|[a b] rs Hs IH Hr]; intros Hne Hnd; [constructor|].
  apply List.Forall_cons_iff in Hne as [Hab Hne]. simpl in Hab.
  cbn [expand flat_map fst snd] in *. fold (expand rs) in *.
  pose proof (List.NoDup_app_remove_l _ _ Hnd) as Hnd'.
  apply increasing_app; [apply increasing_rangeZ | now apply IH |].
  intros x y Hx Hy. apply In_rangeZ in Hx.
  destruct (Z.lt_ge_cases x y) as [Hlt | Hge]; [exact Hlt | exfalso].
  apply In_expand in Hy as ([c d] & Hin & Hcd). simpl in Hcd.
  rewrite List.Forall_forall in Hr. specialize (Hr _ Hin). unfold by_start in Hr.
  simpl in Hr.
  assert (Hc1 : In c (rangeZ a (b + 1))) by (apply In_rangeZ; lia).
  assert (Hc2 : In c (expand rs)) by (apply In_expand; exists (c, d); simpl; split; [exact Hin | lia]).
  exact (NoDup_app_disjoint _ _ _ Hnd Hc1 Hc2).
Qed.

(** Slices *)
Lemma slice_split (s : str) (a b : Z) :
  0 <= a < b -> slice s a b = slice s a (a + 1) ++ slice s (a + 1) b.
Proof.
  intros H. unfold slice.
  replace (Z.to_nat (a + 1) - Z.to_nat a)%nat with 1%nat by lia.
  replace (Z.to_nat b - Z.to_nat a)%nat with (1 + (Z.to_nat b - Z.to_nat (a + 1)))%nat by lia.
  replace (Z.to_nat (a + 1)) with (1 + Z.to_nat a)%nat by lia.
  rewrite <- skipn_skipn.
  generalize (Z.to_nat b - (1 + Z.to_nat a))%nat. intros n.
  destruct (skipn (Z.to_nat a) s) as [|c t]; simpl.
  - now rewrite firstn_nil.
  - reflexivity.
Qed.

Lemma slice_chars (s : str) (a b : Z) :
  0 <= a -> slice s a b = flat_map (fun k => slice s k (k + 1)) (rangeZ a b).
Proof.
  intros Ha. remember (Z.to_nat (b - a)) as n eqn:En. revert a Ha En.
  induction n as [|n IH]; intros a Ha En.
  - rewrite rangeZ_nil by lia. unfold slice.
    replace (Z.to_nat b - Z.to_nat a)%nat with 0%nat by lia. reflexivity.
  - rewrite rangeZ_cons by lia. simpl. rewrite <- IH by lia.
    apply slice_split. lia.
Qed.

Lemma slice_whole (s : str) : slice s 0 (Z.of_nat (length s)) = s.
Proof.
  unfold slice. simpl. rewrite Nat.sub_0_r, Nat2Z.id. apply firstn_all.
Qed.

Lemma highlight_segments_identity (s : str) (hr rs : list (Z * Z)) :
  highlight_segments s identity hr rs = plain_segments s rs.
Proof.
  induction rs as [|[i j] rs IH]; simpl; [reflexivity|].
  rewrite IH. destruct (mem_pair (i, j) hr); reflexivity.
Qed.

Lemma plain_segments_expand (s : str) (rs : list (Z * Z)) :
  Forall (fun r => 0 <= fst r) rs ->
  plain_segments s rs = flat_map (fun k => slice s k (k + 1)) (expand rs).
Proof.
  induction 1 as [|[a b] rs Ha _ IH]; simpl in *; [reflexivity|].
  rewrite flat_map_app, <- slice_chars by exact Ha. now rewrite IH.
Qed.

Lemma highlight_matches_within (finditer : str -> str -> bool -> result (list (nat * nat)))
  (string : str) (ignore_case : bool) (substrings : list str) (acc : list str) :
  (forall part, In part substrings ->
     exists ms, finditer part string ignore_case = Ok ms /\
                Forall (fun m => (fst m < snd m <= length string)%nat) ms) ->
  Forall (match_range (Z.of_nat (length string))) acc ->
  exists ranges,
    highlight_matches finditer acc substrings string ignore_case = Ok ranges /\
    Forall (match_range (Z.of_nat (length string))) ranges.
Proof.
  revert acc. induction substrings as [|part substrings IH]; intros acc H Hacc; simpl.
  - exists acc. split; [reflexivity | exact Hacc].
  - destruct (H part (or_introl eq_refl)) as (ms & -> & Hms). cbn [mbind result_bind].
    apply IH; [intros p Hp; apply H; now right|].
    rewrite List.Forall_forall in *. intros s Hs.
    apply In_set_update in Hs as [Hs | Hs]; [now apply Hacc|].
    apply in_map_iff in Hs as ([a b] & <- & Hm). specialize (Hms _ Hm). simpl in Hms.
    exists (Z.of_nat a, Z.of_nat b - 1). simpl. split; [lia | reflexivity].
Qed.

Lemma match_ranges_encoded (len : Z) (ss : list str) :
  Forall (match_range len) ss ->
  exists rs, Forall2 encodes ss rs /\ Forall (fun r => snd r < len) rs.
Proof.
  induction 1 as [|s ss (r & [Hr Hlen] & ->) _ (rs & IH1 & IH2)].
  - exists []. split; constructor.
  - exists (r :: rs). split; constructor; auto. split; [exact Hr | now left].
Qed.

(** When every match is non-empty, [highlight] returns: the highlighted and
    the untouched ranges share no index and cover the indices 0 to
    length-1, taken in order they follow one another from 0, and the
    slices, left unstyled, concatenate to the original string. *)
Lemma highlight_ranges_tile (finditer : str -> str -> bool -> result (list (nat * nat)))
  (string : str) (substrings : list str) (ignore_case : bool) :
  (forall part, In part substrings ->
     exists ms, finditer part string ignore_case = Ok ms /\
                Forall (fun m => (fst m < snd m <= length string)%nat) ms) ->
  exists highlight_ranges untouched_ranges,
    highlight_ranges_of finditer string substrings ignore_case
      = Ok (highlight_ranges, untouched_ranges) /\
    List.NoDup (expand (highlight_ranges ++ untouched_ranges)) /\
    (forall k, In k (expand (highlight_ranges ++ untouched_ranges)) <->
               0 <= k < Z.of_nat (length string)) /\
    expand (sorted_pairs (highlight_ranges ++ untouched_ranges))
      = rangeZ 0 (Z.of_nat (length string)) /\
    highlight finditer string substrings identity ignore_case = Ok string.
Proof.
  intros Hm.
  destruct (highlight_matches_within _ _ _ _ [] Hm) as (ranges & Eranges & Hranges);
    [constructor|].
  destruct (match_ranges_encoded _ _ Hranges) as (rs & Henc & Hlen).
  pose proof (encoded_nonneg _ _ Henc) as Hpos.
  set (len := Z.of_nat (length string)) in *.
  set (H := sortedZ (expand rs)).
  set (hr := runs H).
  set (U := List.filter (fun x => negb (memZ x H)) (rangeZ 0 len)).
  set (cr := runs U).
  set (ur := runs (sortedZ (expand cr))).
  assert (HinH : forall k, In k H <-> In k (expand rs)) by (intros; apply In_sortedZ).
  assert (HH : forall k, In k H -> 0 <= k < len).
  { intros k Hk. apply HinH, In_expand in Hk as (r & Hr & Hk).
    rewrite List.Forall_forall in Hlen, Hpos.
    specialize (Hlen _ Hr). specialize (Hpos _ Hr). lia. }
  assert (HinU : forall k, In k U <-> 0 <= k < len /\ ~ In k H).
  { intros k. unfold U. rewrite filter_In, In_rangeZ, negb_true_iff.
    rewrite <- memZ_In. destruct (memZ k H); intuition congruence. }
  destruct (runs_spec H) as (Ihr & Mhr & Nhr). fold hr in Ihr, Mhr, Nhr.
  destruct (runs_spec U) as (Icr & Mcr & Ncr). fold cr in Icr, Mcr, Ncr.
  destruct (runs_spec (sortedZ (expand cr))) as (Iur & Mur & Nur).
  fold ur in Iur, Mur, Nur.
  assert (Hcr : Forall (fun r => 0 <= fst r <= snd r) cr).
  { apply runs_nonneg. rewrite List.Forall_forall. intros k Hk. apply HinU in Hk. lia. }
  assert (Mur' : forall k, In k (expand ur) <-> 0 <= k < len /\ ~ In k H).
  { intros k. now rewrite Mur, In_sortedZ, Mcr, HinU. }
  assert (Eall : expand (hr ++ ur) = expand hr ++ expand ur)
    by (unfold expand; apply flat_map_app).
  assert (Hnd : List.NoDup (expand (hr ++ ur))).
  { rewrite Eall. apply List.NoDup_app; try (now apply increasing_NoDup).
    intros k Hk1 Hk2. apply Mhr in Hk1. apply Mur' in Hk2. tauto. }
  assert (Hcover : forall k, In k (expand (hr ++ ur)) <-> 0 <= k < len).
  { intros k. rewrite Eall, in_app_iff, Mhr, Mur'. split.
    - intros [Hk | Hk]; [now apply HH | tauto].
    - intros Hk. destruct (memZ k H) eqn:E.
      + left. now apply memZ_In.
      + right. split; [exact Hk|]. rewrite <- memZ_In. congruence. }
  pose proof (sorted_pairs_perm (hr ++ ur)) as Hperm.
  assert (Hperm' : Permutation (expand (sorted_pairs (hr ++ ur))) (expand (hr ++ ur)))
    by (unfold expand; now apply Permutation_flat_map).
  assert (Hne : Forall (fun r => fst r <= snd r) (sorted_pairs (hr ++ ur))).
  { rewrite List.Forall_forall in *. intros r Hr.
    apply (Permutation_in _ Hperm), in_app_iff in Hr as [Hr | Hr]; auto. }
  assert (Htile : expand (sorted_pairs (hr ++ ur)) = rangeZ 0 len).
  { apply increasing_ext.
    - apply increasing_expand; [apply sorted_pairs_sorted | exact Hne |].
      apply (Permutation_NoDup (Permutation_sym Hperm') Hnd).
    - apply increasing_rangeZ.
    - intros k. rewrite In_rangeZ, <- Hcover. split; apply Permutation_in;
        [exact Hperm' | now apply Permutation_sym]. }
  assert (Eranges_of : highlight_ranges_of finditer string substrings ignore_case
                       = Ok (hr, ur)).
  { unfold highlight_ranges_of. rewrite Eranges. cbn [mbind result_bind].
    rewrite (int_ranges_from_int_list_encoded _ _ Henc). cbn [mbind result_bind].
    unfold complement_int_list. rewrite (parse_int_list_encoded _ _ Henc).
    cbn [mbind result_bind]. rewrite format_int_list_runs.
    change (runs (List.filter _ _)) with cr.
    rewrite (int_ranges_from_int_list_encoded _ _ (Forall2_encodes_runs _ Hcr)).
    reflexivity. }
  exists hr, ur.
  split; [exact Eranges_of | split; [exact Hnd | split; [exact Hcover | split; [exact Htile|]]]].
  unfold highlight. rewrite Eranges_of. cbn [mbind result_bind fst snd].
  rewrite highlight_segments_identity, plain_segments_expand, Htile.
  - rewrite <- slice_chars by lia. now rewrite slice_whole.
  - rewrite List.Forall_forall. intros r Hr.
    assert (Hin : In (fst r) (expand (sorted_pairs (hr ++ ur)))).
    { apply In_expand. exists r. rewrite List.Forall_forall in Hne.
      specialize (Hne _ Hr). split; [exact Hr | lia]. }
    rewrite Htile in Hin. apply In_rangeZ in Hin. lia.
Qed.

#[local] Close Scope Z_scope.

(** ** The ranges of highlight, run by run

    [format_int_list] writes maximal runs, so the ranges [highlight] works
    with are determined by the indices they hold. *)

#[local] Open Scope Z_scope.

Lemma grow_separated (l : list Z) (lo hi : Z) :
  lo <= hi -> ascendingZ l -> Forall (fun x => hi <= x) l ->
  separated (grow lo hi l) /\ Forall (fun r => lo <= fst r) (grow lo hi l).
Proof.
  revert lo hi. induction l as [|y l IH]; intros lo hi Hle Hs Hhi.
  - simpl. split; repeat constructor. simpl. lia.
  - apply StronglySorted_inv in Hs as [Hs Hy].
    apply List.Forall_cons_iff in Hhi as [Hy' Hhi]. cbn [grow].
    destruct (Z.eqb_spec (y - hi) 1) as [E | E].
    + apply IH; [lia | exact Hs | exact Hy].
    + destruct (Z.gtb_spec (y - hi) 1) as [G | G].
      * destruct (IH y y) as (I1 & I2); [lia | exact Hs | exact Hy |]. split.
        -- constructor; [exact I1|].
           eapply List.Forall_impl; [|exact I2]. simpl. intros; lia.
        -- constructor; [simpl; lia|].
           eapply List.Forall_impl; [|exact I2]. simpl. intros; lia.
      * apply IH; [lia | exact Hs | exact Hhi].
Qed.

Lemma runs_separated (l : list Z) : separated (runs l).
Proof.
  unfold runs. pose proof (sortedZ_sorted l) as Hs.
  destruct (sortedZ l) as [|y s]; [constructor|].
  apply StronglySorted_inv in Hs as [Hs Hy].
  apply grow_separated; [lia | exact Hs | exact Hy].
Qed.

Lemma separated_tail_above (a b : Z) (rs : list (Z * Z)) (k : Z) :
  separated ((a, b) :: rs) -> Forall (fun r => fst r <= snd r) rs ->
  In k (expand rs) -> b + 1 < k.
Proof.
  intros Hs Hne Hk. apply StronglySorted_inv in Hs as [_ Hs].
  apply In_expand in Hk as (r & Hr & Hk).
  rewrite List.Forall_forall in Hs. specialize (Hs _ Hr). simpl in Hs. lia.
Qed.

(** Separated lists of ranges that hold the same integers are equal. *)
Lemma separated_ext (rs rs' : list (Z * Z)) :
  separated rs -> Forall (fun r => fst r <= snd r) rs ->
  separated rs' -> Forall (fun r => fst r <= snd r) rs' ->
  (forall k, In k (expand rs) <-> In k (expand rs')) -> rs = rs'.
Proof.
  revert rs'. induction rs as [|[a b] rs IH]; intros rs' Hs Hne Hs' Hne' Hin.
  - destruct rs' as [|[c d] rs']; [reflexivity|]. exfalso.
    apply List.Forall_cons_iff in Hne' as [Hcd _]. simpl in Hcd.
    apply (Hin c). apply In_expand. exists (c, d). simpl. split; [now left | lia].
  - apply List.Forall_cons_iff in Hne as [Hab Hne]. simpl in Hab.
    destruct rs' as [|[c d] rs'].
    + exfalso. apply (Hin a). apply In_expand. exists (a, b). simpl. split; [now left | lia].
    + apply List.Forall_cons_iff in Hne' as [Hcd Hne']. simpl in Hcd.
      pose proof (fun k => separated_tail_above a b rs k Hs Hne) as T.
      pose proof (fun k => separated_tail_above c d rs' k Hs' Hne') as T'.
      assert (Hhead : forall k, In k (expand ((a, b) :: rs)) <-> a <= k <= b \/ In k (expand rs)).
      { intros k. cbn [expand flat_map fst snd]. fold (expand rs).
        rewrite in_app_iff, In_rangeZ. assert (a <= k < b + 1 <-> a <= k <= b) by lia. tauto. }
      assert (Hhead' : forall k, In k (expand ((c, d) :: rs')) <-> c <= k <= d \/ In k (expand rs')).
      { intros k. cbn [expand flat_map fst snd]. fold (expand rs').
        rewrite in_app_iff, In_rangeZ. assert (c <= k < d + 1 <-> c <= k <= d) by lia. tauto. }
      assert (Eac : a = c).
      { assert (c <= a).
        { destruct (proj1 (Hhead' a)) as [H | H]; [apply Hin, Hhead; lia | lia |].
          specialize (T' _ H). lia. }
        assert (a <= c).
        { destruct (proj1 (Hhead c)) as [H' | H']; [apply Hin, Hhead'; lia | lia |].
          specialize (T _ H'). lia. }
        lia. }
      subst c.
      assert (Ebd : b = d).
      { destruct (Z.lt_trichotomy b d) as [L | [E | L]]; [exfalso | exact E | exfalso].
        - destruct (proj1 (Hhead (b + 1))) as [H | H]; [apply Hin, Hhead'; lia | lia |].
          specialize (T _ H). lia.
        - destruct (proj1 (Hhead' (d + 1))) as [H | H]; [apply Hin, Hhead; lia | lia |].
          specialize (T' _ H). lia. }
      subst d. f_equal. apply IH.
      * now apply StronglySorted_inv in Hs.
      * exact Hne.
      * now apply StronglySorted_inv in Hs'.
      * exact Hne'.
      * intros k. split; intros Hk.
        -- destruct (proj1 (Hhead' k)) as [H | H]; [apply Hin, Hhead; now right | | exact H].
           specialize (T _ Hk). lia.
        -- destruct (proj1 (Hhead k)) as [H | H]; [apply Hin, Hhead'; now right | | exact H].
           specialize (T' _ Hk). lia.
Qed.

Lemma expand_nil_inv (rs : list (Z * Z)) :
  Forall (fun r => fst r <= snd r) rs -> (forall k, ~ In k (expand rs)) -> rs = [].
Proof.
  intros Hne H. destruct rs as [|[a b] rs]; [reflexivity|]. exfalso.
  apply List.Forall_cons_iff in Hne as [Hab _]. simpl in Hab.
  apply (H a). apply In_expand. exists (a, b). simpl. split; [now left | lia].
Qed.

(** A range string stands for one match only. *)
Lemma str_of_Z_inj (n m : Z) : str_of_Z n = str_of_Z m -> n = m.
Proof.
  intros E. pose proof (int_str_of_Z n) as Hn. rewrite E, int_str_of_Z in Hn. congruence.
Qed.

Lemma range_of_match_split (m : nat * nat) :
  (1 <= snd m)%nat ->
  has_chr "-" (range_of_match m) = true /\
  split "-" (range_of_match m)
    = [str_of_Z (Z.of_nat (fst m)); str_of_Z (Z.of_nat (snd m) - 1)].
Proof.
  destruct m as [a b]. unfold range_of_match. cbn [fst snd]. intros Hb.
  destruct (str_of_Z_digits (Z.of_nat a)) as [Da _]; [lia|].
  destruct (str_of_Z_digits (Z.of_nat b - 1)) as [Db _]; [lia|].
  split.
  - unfold has_chr. rewrite existsb_app. simpl. now rewrite orb_true_r.
  - rewrite split_app by now apply digits_no_chr.
    now rewrite split_no_delim by now apply digits_no_chr.
Qed.

Lemma range_of_match_inj (m m' : nat * nat) :
  (1 <= snd m)%nat -> (1 <= snd m')%nat ->
  range_of_match m = range_of_match m' -> m = m'.
Proof.
  intros Hm Hm' E.
  destruct (range_of_match_split m Hm) as [_ S].
  destruct (range_of_match_split m' Hm') as [_ S'].
  rewrite E, S' in S. injection S as E1 E2.
  apply str_of_Z_inj in E1, E2. destruct m, m'. simpl in *. f_equal; lia.
Qed.

Lemma range_of_match_chars (m : nat * nat) :
  forallb range_char (range_of_match m) = true /\
  has_chr "," (range_of_match m) = false /\ range_of_match m <> [].
Proof.
  destruct m as [a b]. unfold range_of_match. cbn [fst snd].
  destruct (str_of_Z_digits (Z.of_nat a)) as [Da Na]; [lia|].
  assert (Db : forallb range_char (str_of_Z (Z.of_nat b - 1)) = true /\
               has_chr "," (str_of_Z (Z.of_nat b - 1)) = false).
  { destruct b as [|b].
    - split; reflexivity.
    - destruct (str_of_Z_digits (Z.of_nat (S b) - 1)) as [D _]; [lia|].
      split; [now apply digits_range_chars | now apply digits_no_chr]. }
  destruct Db as [Db1 Db2]. split; [|split].
  - rewrite forallb_app. simpl. now rewrite digits_range_chars, Db1.
  - unfold has_chr. rewrite existsb_app. simpl.
    fold (has_chr "," (str_of_Z (Z.of_nat a))).
    fold (has_chr "," (str_of_Z (Z.of_nat b - 1))).
    now rewrite digits_no_chr, Db2.
  - destruct (str_of_Z (Z.of_nat a)); discriminate.
Qed.

(** The range strings of matches, joined and split again *)
Lemma split_join_matches (ms : list (nat * nat)) :
  ms <> [] ->
  split "," (strip (join [","%char] (map range_of_match ms))) = map range_of_match ms.
Proof.
  intros Hne.
  assert (Hall : Forall (fun s => forallb range_char s = true /\
                                  has_chr "," s = false /\ s <> [])
                   (map range_of_match ms)).
  { apply List.Forall_map, List.Forall_forall. intros m _. apply range_of_match_chars. }
  rewrite strip_id.
  - apply split_join; [destruct ms; [congruence | discriminate]|].
    eapply List.Forall_impl; [|exact Hall]. simpl. tauto.
  - apply forallb_forall. intros c Hc. apply range_char_not_space.
    revert c Hc. apply forallb_forall. apply forallb_join; [reflexivity|].
    eapply List.Forall_impl; [|exact Hall]. simpl. tauto.
Qed.

Lemma parse_pieces_matches (ms : list (nat * nat)) :
  Forall (fun m => (1 <= snd m)%nat) ms ->
  parse_pieces (map range_of_match ms) = Ok (expand (map flag_range ms)).
Proof.
  induction 1 as [|m ms Hm _ IH]; [reflexivity|].
  cbn [map parse_pieces]. rewrite IH.
  destruct (range_of_match_split m Hm) as [-> ->].
  cbn [map_int]. rewrite !int_str_of_Z. reflexivity.
Qed.

Lemma parse_int_list_matches (ms : list (nat * nat)) :
  Forall (fun m => (1 <= snd m)%nat) ms ->
  parse_int_list (join [","%char] (map range_of_match ms))
  = Ok (sortedZ (expand (map flag_range ms))).
Proof.
  intros H. unfold parse_int_list. destruct ms as [|m ms]; [reflexivity|].
  rewrite split_join_matches by discriminate. now rewrite parse_pieces_matches.
Qed.

(** [int_ranges_from_int_list] on a range string [parse_int_list] reads as
    integers that are not negative: their runs. *)
Lemma int_ranges_from_int_list_parsed (range_string : str) (l : list Z) :
  parse_int_list range_string = Ok l -> Forall (fun x => 0 <= x) l ->
  int_ranges_from_int_list range_string = Ok (runs l).
Proof.
  intros E Hl. unfold int_ranges_from_int_list. rewrite E. cbn [mbind result_bind].
  rewrite format_int_list_runs.
  assert (Hnn : Forall (fun r => 0 <= fst r <= snd r) (runs l)) by now apply runs_nonneg.
  destruct (runs l) as [|r rs'] eqn:Er; [reflexivity|].
  destruct (join [","%char] (map range_substr_of (r :: rs'))) as [|c t] eqn:Ej.
  - exfalso. revert Ej. apply join_nonempty.
    apply List.Forall_cons_iff in Hnn as [Hr _].
    now apply (encodes_chars _ r), encodes_range_substr.
  - rewrite <- Ej, split_join_runs by (exact Hnn || discriminate).
    now apply int_tuples_runs.
Qed.

Lemma flag_range_nonneg (m : nat * nat) :
  (1 <= snd m)%nat -> 0 <= fst (flag_range m) <= snd (flag_range m).
Proof. intros H. unfold flag_range. simpl. lia. Qed.

Section HighlightRanges.
Variable finditer : str -> str -> bool -> result (list (nat * nat)).
Variables (string : str) (ignore_case : bool).

(** The range strings gathered by the loop are those of the matches. *)
Lemma highlight_matches_In (substrings : list str) (acc : list str) :
  (forall part, In part substrings -> exists ms, finditer part string ignore_case = Ok ms) ->
  exists ranges,
    highlight_matches finditer acc substrings string ignore_case = Ok ranges /\
    forall s, In s ranges <->
      In s acc \/
      exists part ms m, In part substrings /\ finditer part string ignore_case = Ok ms /\
                        In m ms /\ s = range_of_match m.
Proof.
  revert acc. induction substrings as [|part substrings IH]; intros acc H; simpl.
  - exists acc. split; [reflexivity|]. intros s. split; [now left|].
    intros [Hs | (p & ms & m & [] & _)]. exact Hs.
  - destruct (H part (or_introl eq_refl)) as (ms & E). rewrite E. cbn [mbind result_bind].
    destruct (IH (set_update acc (map range_of_match ms))) as (ranges & Er & Hr);
      [intros p Hp; apply H; now right|].
    exists ranges. split; [exact Er|]. intros s. rewrite Hr, In_set_update, in_map_iff.
    split.
    + intros [[Hs | (m & <- & Hm)] | (p & ms' & m & Hp & E' & Hm & ->)].
      * now left.
      * right. exists part, ms, m. auto.
      * right. exists p, ms', m. auto.
    + intros [Hs | (p & ms' & m & [<- | Hp] & E' & Hm & ->)].
      * now left; left.
      * left; right. exists m. split; [reflexivity|]. congruence.
      * right. exists p, ms', m. auto.
Qed.

(** The ranges [highlight] works with, when no match ends at index 0: the
    highlighted ranges are the runs of the flagged indices, the untouched
    ranges the runs of the other indices of the string. *)
Lemma highlight_ranges_flagged (substrings : list str) :
  no_match_ends_at_0 finditer string substrings ignore_case ->
  exists highlight_ranges untouched_ranges,
    highlight_ranges_of finditer string substrings ignore_case
      = Ok (highlight_ranges, untouched_ranges) /\
    (forall k, In k (expand highlight_ranges) <->
               flagged finditer string substrings ignore_case k) /\
    (forall k, In k (expand untouched_ranges) <->
               0 <= k < Z.of_nat (length string) /\
               ~ flagged finditer string substrings ignore_case k) /\
    (separated highlight_ranges /\ Forall (fun r => fst r <= snd r) highlight_ranges) /\
    (separated untouched_ranges /\ Forall (fun r => fst r <= snd r) untouched_ranges).
Proof.
  intros Hm.
  destruct (highlight_matches_In substrings []) as (ranges & Eranges & Hin).
  { intros p Hp. destruct (Hm p Hp) as (ms & E & _). now exists ms. }
  assert (Hpieces : forall s, In s ranges ->
            exists m, (1 <= snd m)%nat /\ s = range_of_match m /\
                      exists part ms, In part substrings /\
                        finditer part string ignore_case = Ok ms /\ In m ms).
  { intros s Hs. apply Hin in Hs as [[] | (p & ms & m & Hp & E & Hms & ->)].
    exists m. destruct (Hm p Hp) as (ms' & E' & F). rewrite E in E'. injection E' as <-.
    rewrite List.Forall_forall in F. split; [now apply F|]. split; [reflexivity|].
    now exists p, ms. }
  assert (Hsel : exists sel, ranges = map range_of_match sel /\
            Forall (fun m => (1 <= snd m)%nat /\
                      exists part ms, In part substrings /\
                        finditer part string ignore_case = Ok ms /\ In m ms) sel).
  { clear Eranges Hin. induction ranges as [|s ranges IH].
    - exists []. split; [reflexivity | constructor].
    - destruct IH as (sel & -> & F); [intros s' Hs'; apply Hpieces; now right|].
      destruct (Hpieces s (or_introl eq_refl)) as (m & Hlt & -> & Hmatch).
      exists (m :: sel). split; [reflexivity|]. constructor; auto. }
  destruct Hsel as (sel & -> & Hsel).
  assert (Hsel1 : Forall (fun m => (1 <= snd m)%nat) sel)
    by (eapply List.Forall_impl; [|exact Hsel]; simpl; tauto).
  set (rs := map flag_range sel).
  set (len := Z.of_nat (length string)) in *.
  assert (Hcov : forall k, In k (expand rs) <->
                           flagged finditer string substrings ignore_case k).
  { intros k. rewrite In_expand. unfold rs. split.
    - intros (r & Hr & Hk). apply in_map_iff in Hr as (m & <- & Hr).
      rewrite List.Forall_forall in Hsel.
      destruct (Hsel _ Hr) as (_ & p & ms & Hp & E & Hms).
      now exists p, ms, m.
    - intros (p & ms & m & Hp & E & Hms & Hk).
      assert (Hs : In (range_of_match m) (map range_of_match sel)).
      { apply Hin. right. now exists p, ms, m. }
      apply in_map_iff in Hs as (m' & Em & Hm').
      destruct (Hm p Hp) as (ms' & E' & F). rewrite E in E'. injection E' as <-.
      rewrite List.Forall_forall in F, Hsel1.
      apply range_of_match_inj in Em; [| now apply Hsel1 | now apply F]. subst m'.
      exists (flag_range m). split; [now apply in_map | exact Hk]. }
  assert (Hpos : Forall (fun x => 0 <= x) (expand rs)).
  { rewrite List.Forall_forall. intros k Hk. apply In_expand in Hk as (r & Hr & Hk).
    unfold rs in Hr. apply in_map_iff in Hr as (m & <- & Hr).
    rewrite List.Forall_forall in Hsel1.
    pose proof (flag_range_nonneg m (Hsel1 _ Hr)). lia. }
  set (H := sortedZ (expand rs)).
  set (hr := runs H).
  set (U := List.filter (fun x => negb (memZ x H)) (rangeZ 0 len)).
  set (cr := runs U).
  set (ur := runs (sortedZ (expand cr))).
  assert (HinH : forall k, In k H <-> In k (expand rs)) by (intros; apply In_sortedZ).
  assert (HinU : forall k, In k U <-> 0 <= k < len /\ ~ In k H).
  { intros k. unfold U. rewrite filter_In, In_rangeZ, negb_true_iff.
    rewrite <- memZ_In. destruct (memZ k H); intuition congruence. }
  destruct (runs_spec H) as (Ihr & Mhr & Nhr). fold hr in Ihr, Mhr, Nhr.
  destruct (runs_spec U) as (Icr & Mcr & Ncr). fold cr in Icr, Mcr, Ncr.
  destruct (runs_spec (sortedZ (expand cr))) as (Iur & Mur & Nur).
  fold ur in Iur, Mur, Nur.
  assert (Hcr : Forall (fun r => 0 <= fst r <= snd r) cr).
  { apply runs_nonneg. rewrite List.Forall_forall. intros k Hk. apply HinU in Hk. lia. }
  pose proof (parse_int_list_matches sel Hsel1) as Eparse. fold rs in Eparse. fold H in Eparse.
  exists hr, ur. split; [|split; [|split; [|split]]].
  - unfold highlight_ranges_of. rewrite Eranges. cbn [mbind result_bind].
    rewrite (int_ranges_from_int_list_parsed _ _ Eparse) by now apply sortedZ_nonneg.
    cbn [mbind result_bind].
    unfold complement_int_list. rewrite Eparse.
    cbn [mbind result_bind]. rewrite format_int_list_runs.
    change (runs (List.filter _ _)) with cr.
    rewrite (int_ranges_from_int_list_encoded _ _ (Forall2_encodes_runs _ Hcr)).
    reflexivity.
  - intros k. now rewrite Mhr, HinH, Hcov.
  - intros k. now rewrite Mur, In_sortedZ, Mcr, HinU, HinH, Hcov.
  - split; [apply runs_separated | exact Nhr].
  - split; [apply runs_separated | exact Nur].
Qed.

(** Matches that are not empty flag the indices they cover. *)
Lemma proper_no_match_ends_at_0 (substrings : list str) :
  proper_matches finditer string substrings ignore_case ->
  no_match_ends_at_0 finditer string substrings ignore_case.
Proof.
  intros Hm p Hp. destruct (Hm p Hp) as (ms & E & F). exists ms. split; [exact E|].
  eapply List.Forall_impl; [|exact F]. simpl. intros; lia.
Qed.

Lemma proper_flagged_covered (substrings : list str) (k : Z) :
  proper_matches finditer string substrings ignore_case ->
  flagged finditer string substrings ignore_case k <->
  covered finditer string substrings ignore_case k.
Proof.
  intros Hm. split; intros (p & ms & m & Hp & E & Hms & Hk); exists p, ms, m;
    (split; [exact Hp|]; split; [exact E|]; split; [exact Hms|]);
    destruct (Hm p Hp) as (ms' & E' & F); rewrite E in E'; injection E' as <-;
    rewrite List.Forall_forall in F; specialize (F _ Hms);
    unfold flag_range in *; simpl in *; lia.
Qed.

(** The same for matches none of which is empty. *)
Lemma highlight_ranges_runs (substrings : list str) :
  proper_matches finditer string substrings ignore_case ->
  exists highlight_ranges untouched_ranges,
    highlight_ranges_of finditer string substrings ignore_case
      = Ok (highlight_ranges, untouched_ranges) /\
    (forall k, In k (expand highlight_ranges) <->
               covered finditer string substrings ignore_case k) /\
    (forall k, In k (expand untouched_ranges) <->
               0 <= k < Z.of_nat (length string) /\
               ~ covered finditer string substrings ignore_case k) /\
    (separated highlight_ranges /\ Forall (fun r => fst r <= snd r) highlight_ranges) /\
    (separated untouched_ranges /\ Forall (fun r => fst r <= snd r) untouched_ranges).
Proof.
  intros Hm.
  destruct (highlight_ranges_flagged substrings (proper_no_match_ends_at_0 _ Hm))
    as (hr & ur & E & Mhr & Mur & Shr & Sur).
  exists hr, ur. split; [exact E|]. split; [|split; [|split; assumption]].
  - intros k. now rewrite Mhr, proper_flagged_covered.
  - intros k. now rewrite Mur, proper_flagged_covered.
Qed.
End HighlightRanges.

Lemma highlight_segments_nil (s : str) (styling_method : IStyle) (rs : list (Z * Z)) :
  highlight_segments s styling_method [] rs = plain_segments s rs.
Proof. induction rs as [|[i j] rs IH]; simpl; [reflexivity | now rewrite IH]. Qed.

Lemma slice_middle (pre mid post : str) :
  slice (pre ++ mid ++ post) (Z.of_nat (length pre))
        (Z.of_nat (length pre) + Z.of_nat (length mid)) = mid.
Proof.
  unfold slice. rewrite <- Nat2Z.inj_add, !Nat2Z.id.
  replace (length pre + length mid - length pre)%nat with (length mid) by lia.
  rewrite List.skipn_app, List.skipn_all, Nat.sub_diag.
  change (skipn 0 (mid ++ post)) with (mid ++ post). cbn [app].
  rewrite List.firstn_app, List.firstn_all, Nat.sub_diag. cbn [firstn]. apply app_nil_r.
Qed.

Lemma pair_leb_lt (a b : Z * Z) : fst a < fst b -> pair_leb a b = true.
Proof. intros H. unfold pair_leb. destruct (Z.ltb_spec (fst a) (fst b)); [reflexivity | lia]. Qed.

Lemma pair_leb_gt (a b : Z * Z) : fst b < fst a -> pair_leb a b = false.
Proof.
  intros H. unfold pair_leb.
  destruct (Z.ltb_spec (fst a) (fst b)); [lia|].
  destruct (Z.eqb_spec (fst a) (fst b)); [lia | reflexivity].
Qed.

(** The indices within a match, for one substring. *)
Lemma covered_single (finditer : str -> str -> bool -> result (list (nat * nat)))
  (string part : str) (ignore_case : bool) (ms : list (nat * nat)) (k : Z) :
  finditer part string ignore_case = Ok ms ->
  covered finditer string [part] ignore_case k <->
  exists m, In m ms /\ Z.of_nat (fst m) <= k < Z.of_nat (snd m).
Proof.
  intros E. split.
  - intros (p & ms' & m & [<- | []] & E' & Hm & Hk). rewrite E in E'. injection E' as <-.
    now exists m.
  - intros (m & Hm & Hk). exists part, ms, m. split; [now left | auto].
Qed.

(** X1. When none of the [substrings] matches anywhere in the string (an
    empty collection of substrings included), [highlight] returns the
    string as it is, whatever the styling function. *)
Theorem highlight_without_match_returns_string
  (finditer : str -> str -> bool -> result (list (nat * nat)))
  (string : str) (substrings : list str) (styling_method : IStyle) (ignore_case : bool) :
  (forall part, In part substrings -> finditer part string ignore_case = Ok []) ->
  highlight finditer string substrings styling_method ignore_case = Ok string.
Proof.
  intros Hnone.
  assert (Hm : proper_matches finditer string substrings ignore_case).
  { intros p Hp. exists []. split; [now apply Hnone | constructor]. }
  destruct (highlight_ranges_runs _ _ _ _ Hm) as (hr & ur & E & Mhr & _ & [_ Nhr] & _).
  assert (hr = []) as ->.
  { apply expand_nil_inv; [exact Nhr|]. intros k Hk.
    apply Mhr in Hk as (p & ms & m & Hp & Ems & Hin & _).
    rewrite (Hnone p Hp) in Ems. injection Ems as <-. destruct Hin. }
  destruct (highlight_ranges_tile _ _ _ _ Hm) as (hr' & ur' & E' & _ & _ & _ & Hid).
  unfold highlight in *. rewrite E in *. cbn [mbind result_bind fst snd] in *.
  rewrite highlight_segments_nil, <- (highlight_segments_identity _ []). exact Hid.
Qed.

Lemma highlight_without_match_returns_string_witness :
  highlight re3_finditer (s2l "abc") [s2l "x"; s2l "bd"] (Style "32" true) false
  = Ok (s2l "abc").
Proof.
  apply highlight_without_match_returns_string.
  intros part [<- | [<- | []]]; vm_compute; reflexivity.
Defined.

(** X2. When no match is empty, the highlighted ranges hold exactly the
    indices that lie within a match of one of the substrings, and the
    untouched ranges exactly the other indices of the string. *)
Theorem highlight_ranges_cover_the_matches
  (finditer : str -> str -> bool -> result (list (nat * nat)))
  (string : str) (substrings : list str) (ignore_case : bool) :
  proper_matches finditer string substrings ignore_case ->
  exists highlight_ranges untouched_ranges,
    highlight_ranges_of finditer string substrings ignore_case
      = Ok (highlight_ranges, untouched_ranges) /\
    (forall k, In k (expand highlight_ranges) <->
               covered finditer string substrings ignore_case k) /\
    (forall k, In k (expand untouched_ranges) <->
               0 <= k < Z.of_nat (length string) /\
               ~ covered finditer string substrings ignore_case k).
Proof.
  intros Hm.
  destruct (highlight_ranges_runs _ _ _ _ Hm) as (hr & ur & E & Mhr & Mur & _).
  exists hr, ur. auto.
Qed.

Lemma highlight_ranges_cover_the_matches_witness :
  exists highlight_ranges untouched_ranges,
    highlight_ranges_of re3_finditer (s2l "xaaay") [s2l "aa"] false
      = Ok (highlight_ranges, untouched_ranges) /\
    (forall k, In k (expand highlight_ranges) <->
               covered re3_finditer (s2l "xaaay") [s2l "aa"] false k) /\
    (forall k, In k (expand untouched_ranges) <->
               0 <= k < Z.of_nat (length (s2l "xaaay")) /\
               ~ covered re3_finditer (s2l "xaaay") [s2l "aa"] false k).
Proof.
  apply highlight_ranges_cover_the_matches.
  intros part [<- | []]. exists [(1, 3); (2, 4)]%nat.
  split; [vm_compute; reflexivity | repeat constructor; simpl; lia].
Defined.

(** X3. When no match is empty, overlapping and adjacent matches are
    merged: between two highlighted ranges at least one index is left
    out, and likewise between two untouched ranges; no range is empty. *)
Theorem highlight_ranges_are_maximal
  (finditer : str -> str -> bool -> result (list (nat * nat)))
  (string : str) (substrings : list str) (ignore_case : bool) :
  proper_matches finditer string substrings ignore_case ->
  exists highlight_ranges untouched_ranges,
    highlight_ranges_of finditer string substrings ignore_case
      = Ok (highlight_ranges, untouched_ranges) /\
    separated highlight_ranges /\ separated untouched_ranges /\
    Forall (fun r => fst r <= snd r) (highlight_ranges ++ untouched_ranges).
Proof.
  intros Hm.
  destruct (highlight_ranges_runs _ _ _ _ Hm)
    as (hr & ur & E & _ & _ & [Shr Nhr] & [Sur Nur]).
  exists hr, ur. repeat split; auto. apply Forall_app. auto.
Qed.

Lemma highlight_ranges_are_maximal_witness :
  exists highlight_ranges untouched_ranges,
    highlight_ranges_of re3_finditer (s2l "abcab") [s2l "ab"; s2l "bc"] false
      = Ok (highlight_ranges, untouched_ranges) /\
    separated highlight_ranges /\ separated untouched_ranges /\
    Forall (fun r => fst r <= snd r) (highlight_ranges ++ untouched_ranges).
Proof.
  apply highlight_ranges_are_maximal.
  intros part [<- | [<- | []]].
  - exists [(0, 2); (3, 5)]%nat.
    split; [vm_compute; reflexivity | repeat constructor; simpl; lia].
  - exists [(1, 3)]%nat.
    split; [vm_compute; reflexivity | repeat constructor; simpl; lia].
Defined.

Lemma slice_empty (s : str) (a b : Z) : b <= a -> slice s a b = [].
Proof.
  intros H. unfold slice.
  replace (Z.to_nat b - Z.to_nat a)%nat with 0%nat by lia. reflexivity.
Qed.

(** When the flagged indices are those of one interval, [highlight] styles
    the slice of that interval and leaves the slices around it. *)
Lemma highlight_flagged_interval
  (finditer : str -> str -> bool -> result (list (nat * nat)))
  (string : str) (substrings : list str) (styling_method : IStyle) (ignore_case : bool)
  (p q : Z) :
  no_match_ends_at_0 finditer string substrings ignore_case ->
  0 <= p < q -> p <= Z.of_nat (length string) ->
  (forall k, flagged finditer string substrings ignore_case k <-> p <= k < q) ->
  highlight finditer string substrings styling_method ignore_case
    = Ok (slice string 0 p ++ styling_method (slice string p q)
            ++ slice string q (Z.of_nat (length string))).
Proof.
  intros Hm Hpq Hplen Hcov.
  destruct (highlight_ranges_flagged _ _ _ _ Hm)
    as (hr & ur & E & Mhr & Mur & [Shr Nhr] & [Sur Nur]).
  set (len := Z.of_nat (length string)) in *.
  assert (Ehr : hr = [(p, q - 1)]).
  { apply separated_ext; auto.
    - repeat constructor.
    - repeat constructor. simpl. lia.
    - intros k. rewrite Mhr, Hcov. cbn [expand flat_map fst snd].
      rewrite app_nil_r, In_rangeZ. lia. }
  set (cand := (if 0 <? p then [(0, p - 1)] else [])
               ++ (if q <? len then [(q, len - 1)] else [])).
  assert (Eur : ur = cand).
  { apply separated_ext; auto.
    - unfold cand. destruct (Z.ltb_spec 0 p), (Z.ltb_spec q len); repeat constructor.
      simpl. lia.
    - unfold cand. destruct (Z.ltb_spec 0 p), (Z.ltb_spec q len); repeat constructor;
        simpl; lia.
    - intros k. rewrite Mur, Hcov. unfold cand.
      destruct (Z.ltb_spec 0 p), (Z.ltb_spec q len);
        cbn [app expand flat_map fst snd]; rewrite ?in_app_iff, ?In_rangeZ;
        cbn [In]; lia. }
  unfold highlight. rewrite E. cbn [mbind result_bind fst snd]. f_equal.
  rewrite Ehr, Eur. unfold cand.
  destruct (Z.ltb_spec 0 p) as [P | P], (Z.ltb_spec q len) as [Q | Q];
    cbn [app sorted_pairs fold_right insert_pair];
    repeat (first [rewrite pair_leb_lt by (simpl; lia) | rewrite pair_leb_gt by (simpl; lia)];
            cbn [insert_pair]);
    cbn [highlight_segments mem_pair existsb fst snd];
    rewrite Z.eqb_refl, Z.eqb_refl;
    repeat match goal with
           | |- context [?a =? ?b] => destruct (Z.eqb_spec a b); try lia
           end;
    cbn [orb andb];
    replace (p - 1 + 1) with p by lia; replace (q - 1 + 1) with q by lia;
    replace (len - 1 + 1) with len by lia;
    rewrite ?app_nil_r.
  - reflexivity.
  - now rewrite (slice_empty string q len), app_nil_r by lia.
  - now rewrite (slice_empty string 0 p) by lia.
  - now rewrite (slice_empty string 0 p), (slice_empty string q len), app_nil_r by lia.
Qed.

(** X4. When the matches, none of them empty, cover together one stretch
    [mid] of the string [pre ++ mid ++ post] and nothing else, [highlight]
    returns [pre], then [mid] styled in one piece, then [post]. *)
Theorem highlight_styles_covered_interval
  (finditer : str -> str -> bool -> result (list (nat * nat)))
  (substrings : list str) (styling_method : IStyle) (ignore_case : bool)
  (pre mid post : str) :
  mid <> [] ->
  proper_matches finditer (pre ++ mid ++ post) substrings ignore_case ->
  (forall k, covered finditer (pre ++ mid ++ post) substrings ignore_case k <->
             Z.of_nat (length pre) <= k < Z.of_nat (length pre) + Z.of_nat (length mid)) ->
  highlight finditer (pre ++ mid ++ post) substrings styling_method ignore_case
    = Ok (pre ++ styling_method mid ++ post).
Proof.
  intros Hmid Hm Hcov.
  rewrite (highlight_flagged_interval _ _ _ _ _ (Z.of_nat (length pre))
             (Z.of_nat (length pre) + Z.of_nat (length mid))).
  - rewrite (slice_middle pre mid post).
    assert (Spre : slice (pre ++ mid ++ post) 0 (Z.of_nat (length pre)) = pre)
      by exact (slice_middle [] pre (mid ++ post)).
    rewrite Spre.
    pose proof (slice_middle (pre ++ mid) post []) as Spost.
    rewrite app_nil_r, <- app_assoc, length_app, Nat2Z.inj_add in Spost.
    replace (Z.of_nat (length (pre ++ mid ++ post)))
      with (Z.of_nat (length pre) + Z.of_nat (length mid) + Z.of_nat (length post))
      by (rewrite !length_app; lia).
    now rewrite Spost.
  - now apply proper_no_match_ends_at_0.
  - destruct mid; [congruence | simpl; lia].
  - rewrite length_app. lia.
  - intros k. now rewrite proper_flagged_covered.
Qed.

Lemma highlight_styles_covered_interval_witness :
  highlight re3_finditer (s2l "x" ++ s2l "abc" ++ s2l "y") [s2l "ab"; s2l "bc"]
    (Style "32" true) false
  = Ok (s2l "x" ++ Style "32" true (s2l "abc") ++ s2l "y").
Proof.
  assert (E1 : re3_finditer (s2l "ab") (s2l "x" ++ s2l "abc" ++ s2l "y") false
               = Ok [(1, 3)]%nat) by (vm_compute; reflexivity).
  assert (E2 : re3_finditer (s2l "bc") (s2l "x" ++ s2l "abc" ++ s2l "y") false
               = Ok [(2, 4)]%nat) by (vm_compute; reflexivity).
  apply highlight_styles_covered_interval.
  - discriminate.
  - intros part [<- | [<- | []]]; eexists; (split; [eassumption|]);
      repeat constructor; simpl; lia.
  - intros k. split.
    + intros (part & ms & m & [<- | [<- | []]] & E & Hm & Hk).
      * rewrite E1 in E. injection E as <-. destruct Hm as [<- | []]. simpl in *. lia.
      * rewrite E2 in E. injection E as <-. destruct Hm as [<- | []]. simpl in *. lia.
    + simpl. intros Hk. destruct (Z.lt_ge_cases k 3).
      * exists (s2l "ab"), [(1, 3)]%nat, (1, 3)%nat.
        split; [now left|]. split; [exact E1|]. split; [now left | simpl; lia].
      * exists (s2l "bc"), [(2, 4)]%nat, (2, 4)%nat.
        split; [right; now left|]. split; [exact E2|]. split; [now left | simpl; lia].
Defined.

(** X5. When no match is empty, the result of [highlight] depends only on
    which indices of the string lie within a match: two collections of
    substrings (or two engines) that cover the same indices give the same
    result.  So neither the order of the substrings nor a repetition among
    them matters. *)
Theorem highlight_depends_on_covered_indices
  (finditer finditer' : str -> str -> bool -> result (list (nat * nat)))
  (string : str) (substrings substrings' : list str) (ignore_case ignore_case' : bool)
  (styling_method : IStyle) :
  proper_matches finditer string substrings ignore_case ->
  proper_matches finditer' string substrings' ignore_case' ->
  (forall k, covered finditer string substrings ignore_case k <->
             covered finditer' string substrings' ignore_case' k) ->
  highlight finditer string substrings styling_method ignore_case
  = highlight finditer' string substrings' styling_method ignore_case'.
Proof.
  intros Hm Hm' Hcov.
  destruct (highlight_ranges_runs _ _ _ _ Hm)
    as (hr & ur & E & Mhr & Mur & [Shr Nhr] & [Sur Nur]).
  destruct (highlight_ranges_runs _ _ _ _ Hm')
    as (hr' & ur' & E' & Mhr' & Mur' & [Shr' Nhr'] & [Sur' Nur']).
  assert (hr = hr') as <-.
  { apply separated_ext; auto. intros k. now rewrite Mhr, Mhr'. }
  assert (ur = ur') as <-.
  { apply separated_ext; auto. intros k. now rewrite Mur, Mur', Hcov. }
  unfold highlight. now rewrite E, E'.
Qed.

Lemma highlight_depends_on_covered_indices_witness :
  highlight re3_finditer (s2l "xabcy") [s2l "ab"; s2l "bc"] (Style "32" true) false
  = highlight re3_finditer (s2l "xabcy") [s2l "abc"] (Style "32" true) true.
Proof.
  assert (E1 : re3_finditer (s2l "ab") (s2l "xabcy") false = Ok [(1, 3)]%nat)
    by (vm_compute; reflexivity).
  assert (E2 : re3_finditer (s2l "bc") (s2l "xabcy") false = Ok [(2, 4)]%nat)
    by (vm_compute; reflexivity).
  assert (E3 : re3_finditer (s2l "abc") (s2l "xabcy") true = Ok [(1, 4)]%nat)
    by (vm_compute; reflexivity).
  apply highlight_depends_on_covered_indices.
  - intros part [<- | [<- | []]]; eexists; (split; [eassumption|]);
      repeat constructor; simpl; lia.
  - intros part [<- | []]. eexists. split; [eassumption|]. repeat constructor; simpl; lia.
  - intros k. rewrite (covered_single _ _ _ _ _ k E3). split.
    + intros (part & ms & m & [<- | [<- | []]] & E & Hm & Hk).
      * rewrite E1 in E. injection E as <-. destruct Hm as [<- | []].
        exists (1, 4)%nat. split; [now left | simpl in *; lia].
      * rewrite E2 in E. injection E as <-. destruct Hm as [<- | []].
        exists (1, 4)%nat. split; [now left | simpl in *; lia].
    + intros (m & [<- | []] & Hk). simpl in Hk. destruct (Z.lt_ge_cases k 3).
      * exists (s2l "ab"), [(1, 3)]%nat, (1, 3)%nat.
        split; [now left|]. split; [exact E1|]. split; [now left | simpl; lia].
      * exists (s2l "bc"), [(2, 4)]%nat, (2, 4)%nat.
        split; [right; now left|]. split; [exact E2|]. split; [now left | simpl; lia].
Defined.

(** *** A match that ends at index 0 *)

Lemma map_int_raises (xs : list str) (e : exn) : map_int xs = Raise e -> e = ValueError.
Proof.
  induction xs as [|x xs IH]; simpl; [discriminate|].
  unfold int at 1. destruct (NilZero.int_of_string _); cbn [mbind result_bind].
  - destruct (map_int xs) as [ns | e']; cbn [mbind result_bind]; [discriminate|].
    intros [= <-]. now apply IH.
  - now intros [= <-].
Qed.

Lemma parse_pieces_raises (pieces : list str) (e : exn) :
  parse_pieces pieces = Raise e -> e = ValueError.
Proof.
  induction pieces as [|x pieces IH]; simpl; [discriminate|].
  destruct (has_chr "-" x).
  - destruct (map_int (split "-" x)) as [ns | e'] eqn:E; cbn [mbind result_bind].
    + destruct (parse_pieces pieces) as [o | e'']; cbn [mbind result_bind]; [discriminate|].
      intros [= <-]. now apply IH.
    + intros [= <-]. exact (map_int_raises _ _ E).
  - destruct x as [|c x]; cbn [mbind result_bind].
    + destruct (parse_pieces pieces) as [o | e'']; cbn [mbind result_bind]; [discriminate|].
      intros [= <-]. now apply IH.
    + unfold int. destruct (NilZero.int_of_string _); cbn [mbind result_bind].
      * destruct (parse_pieces pieces) as [o | e'']; cbn [mbind result_bind]; [discriminate|].
        intros [= <-]. now apply IH.
      * now intros [= <-].
Qed.

(** The range string of a match that ends at index 0 is ["a--1"]: between
    its two dashes [split] leaves an empty piece, which [int] refuses. *)
Lemma range_of_match_end_0 (m : nat * nat) :
  snd m = 0%nat ->
  has_chr "-" (range_of_match m) = true /\
  map_int (split "-" (range_of_match m)) = Raise ValueError.
Proof.
  destruct m as [a b]. simpl. intros ->. unfold range_of_match. simpl.
  destruct (str_of_Z_digits (Z.of_nat a)) as [Da _]; [lia|].
  assert (Hd : has_chr "-" (str_of_Z (Z.of_nat a)) = false) by now apply digits_no_chr.
  split.
  - unfold has_chr. rewrite existsb_app. simpl. apply orb_true_r.
  - rewrite (split_app _ _ _ Hd). change (str_of_Z (0 - 1)) with (s2l "-1").
    cbn [map_int]. rewrite int_str_of_Z. reflexivity.
Qed.

Lemma parse_pieces_end_0 (pieces : list str) (m : nat * nat) :
  snd m = 0%nat -> In (range_of_match m) pieces -> parse_pieces pieces = Raise ValueError.
Proof.
  intros Hm Hin.
  destruct (parse_pieces pieces) as [o | e] eqn:E;
    [exfalso | f_equal; eapply parse_pieces_raises; eauto].
  revert o E. induction pieces as [|x pieces IH]; intros o E; [destruct Hin|].
  cbn [parse_pieces] in E. destruct Hin as [-> | Hin].
  - destruct (range_of_match_end_0 m Hm) as [E1 E2]. rewrite E1, E2 in E. discriminate.
  - destruct (if has_chr "-" x then _ else _) as [h | e]; [|discriminate].
    cbn [mbind result_bind] in E.
    destruct (parse_pieces pieces) as [o' | e']; [|discriminate]. now apply (IH Hin o').
Qed.

Lemma highlight_raises_at_0
  (finditer : str -> str -> bool -> result (list (nat * nat)))
  (string : str) (substrings : list str) (styling_method : IStyle) (ignore_case : bool) :
  (forall part, In part substrings -> exists ms, finditer part string ignore_case = Ok ms) ->
  (exists part ms m, In part substrings /\ finditer part string ignore_case = Ok ms /\
                     In m ms /\ snd m = 0%nat) ->
  highlight finditer string substrings styling_method ignore_case = Raise ValueError.
Proof.
  intros Hok (p & ms & m & Hp & E & Hm & H0).
  destruct (highlight_matches_In finditer string ignore_case substrings [] Hok)
    as (ranges & Er & Hin).
  assert (Hbad : In (range_of_match m) ranges).
  { apply Hin. right. now exists p, ms, m. }
  assert (Hall : Forall (fun s => forallb range_char s = true /\
                                  has_chr "," s = false /\ s <> []) ranges).
  { rewrite List.Forall_forall. intros s Hs.
    apply Hin in Hs as [[] | (p' & ms' & m' & _ & _ & _ & ->)].
    apply range_of_match_chars. }
  assert (Hsplit : split "," (strip (join [","%char] ranges)) = ranges).
  { rewrite strip_id.
    - apply split_join; [intros ->; destruct Hbad|].
      eapply List.Forall_impl; [|exact Hall]. simpl. tauto.
    - apply forallb_forall. intros c Hc. apply range_char_not_space.
      revert c Hc. apply forallb_forall. apply forallb_join; [reflexivity|].
      eapply List.Forall_impl; [|exact Hall]. simpl. tauto. }
  unfold highlight, highlight_ranges_of. rewrite Er. cbn [mbind result_bind].
  unfold int_ranges_from_int_list, parse_int_list. rewrite Hsplit.
  now rewrite (parse_pieces_end_0 _ _ H0 Hbad).
Qed.

(** Either a match ends at index 0 or none does. *)
Lemma match_ends_at_0_or_not
  (finditer : str -> str -> bool -> result (list (nat * nat)))
  (string : str) (substrings : list str) (ignore_case : bool) :
  (forall part, In part substrings -> exists ms, finditer part string ignore_case = Ok ms) ->
  (exists part ms m, In part substrings /\ finditer part string ignore_case = Ok ms /\
                     In m ms /\ snd m = 0%nat) \/
  no_match_ends_at_0 finditer string substrings ignore_case.
Proof.
  induction substrings as [|part substrings IH]; intros Hok.
  - right. intros p [].
  - destruct (Hok part (or_introl eq_refl)) as (ms & E).
    assert (Hms : (exists m, In m ms /\ snd m = 0%nat) \/
                  Forall (fun m => (1 <= snd m)%nat) ms).
    { clear E. induction ms as [|m ms IHms]; [right; constructor|].
      destruct (snd m) as [|n] eqn:Em.
      - left. exists m. split; [now left | exact Em].
      - destruct IHms as [(m' & Hm' & E') | F].
        + left. exists m'. split; [now right | exact E'].
        + right. constructor; [lia | exact F]. }
    destruct Hms as [(m & Hm & E0) | F].
    { left. exists part, ms, m. split; [now left | auto]. }
    destruct IH as [(p & ms' & m & Hp & E' & Hm & E0) | Hno].
    + intros p Hp. apply Hok. now right.
    + left. exists p, ms', m. split; [now right | auto].
    + right. intros p [<- | Hp]; [exists ms; auto | now apply Hno].
Qed.

(** X6. When every element of [substrings] is a pattern the engine
    accepts, [highlight] raises [ValueError] exactly when one of the
    matches ends at index 0 (a match of the empty string at the start of
    the text), whatever the other matches are; and it returns a string
    exactly when no match ends at index 0. *)
Theorem highlight_raises_iff_match_ends_at_0
  (finditer : str -> str -> bool -> result (list (nat * nat)))
  (string : str) (substrings : list str) (styling_method : IStyle) (ignore_case : bool) :
  (forall part, In part substrings -> exists ms, finditer part string ignore_case = Ok ms) ->
  (highlight finditer string substrings styling_method ignore_case = Raise ValueError <->
   exists part ms m, In part substrings /\ finditer part string ignore_case = Ok ms /\
                     In m ms /\ snd m = 0%nat) /\
  ((exists styled_str,
      highlight finditer string substrings styling_method ignore_case = Ok styled_str) <->
   no_match_ends_at_0 finditer string substrings ignore_case).
Proof.
  intros Hok.
  assert (Hret : no_match_ends_at_0 finditer string substrings ignore_case ->
                 exists styled_str,
                   highlight finditer string substrings styling_method ignore_case
                   = Ok styled_str).
  { intros Hno. destruct (highlight_ranges_flagged _ _ _ _ Hno) as (hr & ur & E & _).
    unfold highlight. rewrite E. cbn [mbind result_bind]. eauto. }
  pose proof (highlight_raises_at_0 finditer string substrings styling_method
                ignore_case Hok) as Hraise.
  destruct (match_ends_at_0_or_not finditer string substrings ignore_case Hok)
    as [H0 | Hno].
  - specialize (Hraise H0). split; [split | split].
    + intros _. exact H0.
    + intros _. exact Hraise.
    + intros (out & E). rewrite Hraise in E. discriminate.
    + intros Hno. destruct (Hret Hno) as (out & E). rewrite Hraise in E. discriminate.
  - destruct (Hret Hno) as (out & E). split; [split | split].
    + rewrite E. discriminate.
    + intros H0. rewrite (Hraise H0) in E. discriminate.
    + intros _. exact Hno.
    + intros _. now exists out.
Qed.

Lemma highlight_raises_iff_match_ends_at_0_witness :
  (highlight re3_finditer (s2l "ab") [s2l "b"; []] (Style "32" true) false
   = Raise ValueError <->
   exists part ms m, In part [s2l "b"; []] /\
                     re3_finditer part (s2l "ab") false = Ok ms /\
                     In m ms /\ snd m = 0%nat) /\
  ((exists styled_str,
      highlight re3_finditer (s2l "ab") [s2l "b"; []] (Style "32" true) false
      = Ok styled_str) <->
   no_match_ends_at_0 re3_finditer (s2l "ab") [s2l "b"; []] false).
Proof.
  apply highlight_raises_iff_match_ends_at_0.
  intros part [<- | [<- | []]]; eexists; vm_compute; reflexivity.
Defined.

(** *** An empty match after index 0 *)

(** X23. An empty match at an index [s] that is not 0 does not make
    [highlight] fail: its range string has its bounds in reverse order,
    which [boltons] reads as the two indices [s - 1] and [s], so the
    character before the match and the character after it, if there is
    one, are styled together and the rest of the string is left as it
    is. *)
Theorem highlight_empty_match_styles_neighbours
  (finditer : str -> str -> bool -> result (list (nat * nat)))
  (string part : str) (styling_method : IStyle) (ignore_case : bool) (s : nat) :
  finditer part string ignore_case = Ok [(s, s)] ->
  (1 <= s <= length string)%nat ->
  highlight finditer string [part] styling_method ignore_case
    = Ok (firstn (s - 1) string
            ++ styling_method (firstn 2 (skipn (s - 1) string))
            ++ skipn (s + 1) string).
Proof.
  intros E Hs.
  rewrite (highlight_flagged_interval _ _ _ _ _ (Z.of_nat s - 1) (Z.of_nat s + 1)).
  - assert (S1 : slice string 0 (Z.of_nat s - 1) = firstn (s - 1) string).
    { unfold slice. change (Z.to_nat 0) with 0%nat. cbn [skipn]. f_equal. lia. }
    assert (S2 : slice string (Z.of_nat s - 1) (Z.of_nat s + 1)
                 = firstn 2 (skipn (s - 1) string)).
    { unfold slice. f_equal; [lia | f_equal; lia]. }
    assert (S3 : slice string (Z.of_nat s + 1) (Z.of_nat (length string))
                 = skipn (s + 1) string).
    { unfold slice. replace (Z.to_nat (Z.of_nat s + 1)) with (s + 1)%nat by lia.
      rewrite Nat2Z.id, <- (length_skipn (s + 1) string). apply firstn_all. }
    now rewrite S1, S2, S3.
  - intros p [<- | []]. exists [(s, s)]. split; [exact E|].
    repeat constructor. simpl. lia.
  - lia.
  - lia.
  - intros k. split.
    + intros (p & ms & m & [<- | []] & E' & Hm & Hk). rewrite E in E'. injection E' as <-.
      destruct Hm as [<- | []]. unfold flag_range in Hk. simpl in Hk. lia.
    + intros Hk. exists part, [(s, s)], (s, s). split; [now left|].
      split; [exact E|]. split; [now left|]. unfold flag_range. simpl. lia.
Qed.

Lemma highlight_empty_match_styles_neighbours_witness :
  highlight (fun _ _ _ => Ok [(2, 2)%nat]) (s2l "abcd") [s2l "(?<=b)"]
    (Style "32" true) false
  = Ok (firstn (2 - 1) (s2l "abcd")
          ++ Style "32" true (firstn 2 (skipn (2 - 1) (s2l "abcd")))
          ++ skipn (2 + 1) (s2l "abcd")).
Proof.
  apply (highlight_empty_match_styles_neighbours (fun _ _ _ => Ok [(2, 2)%nat])).
  - reflexivity.
  - simpl. lia.
Defined.

#[local] Close Scope Z_scope.

(** ** collect_keywords, set by set *)

Lemma In_collect_param_choices (x : str) (ps : list Param) (o c m : list str) :
  In x (snd (fst (fold_left collect_param ps (o, c, m)))) <->
  In x c \/ exists p cs, In p ps /\ type_choices p = Some cs /\ In x cs.
Proof.
  revert o c m. induction ps as [|p ps IH]; intros o c m; simpl.
  - split; [tauto | intros [H | (p & cs & [] & _)]; assumption].
  - destruct (type_choices p) as [cs|] eqn:E; rewrite IH, ?In_set_update.
    + split.
      * intros [[H | H] | (q & cs' & Hq & H)]; eauto 8.
      * intros [H | (q & cs' & [<- | Hq] & Eq & H)]; eauto 8.
        rewrite E in Eq. injection Eq as <-. auto.
    + split.
      * intros [H | (q & cs' & Hq & H)]; eauto 8.
      * intros [H | (q & cs' & [<- | Hq] & Eq & H)]; eauto 8. congruence.
Qed.

Lemma In_collect_param_metavars (x : str) (ps : list Param) (o c m : list str) :
  In x (snd (fold_left collect_param ps (o, c, m))) <->
  In x m \/ exists p, In p ps /\ x = make_metavar p.
Proof.
  revert o c m. induction ps as [|p ps IH]; intros o c m; simpl.
  - split; [tauto | intros [H | (p & [] & _)]; assumption].
  - destruct (type_choices p) as [cs|]; rewrite IH, In_set_add.
    all: split;
      [ intros [[H | H] | (q & Hq & H)]; eauto 6
      | intros [H | (q & [<- | Hq] & H)]; eauto 6 ].
Qed.

Lemma In_fold_aliases (x : str) (subs : list (str * list str)) (acc : list str) :
  In x (fold_left (fun acc sub => set_update acc (snd sub)) subs acc) <->
  In x acc \/ exists sub, In sub subs /\ In x (snd sub).
Proof.
  revert acc. induction subs as [|s subs IH]; intros acc; simpl.
  - split; [tauto | intros [H | (s & [] & _)]; assumption].
  - rewrite IH, In_set_update. split.
    + intros [[H | H] | (q & Hq & H)]; eauto 6.
    + intros [H | (q & [<- | Hq] & H)]; eauto 6.
Qed.

Lemma collect_keywords_parts (ctx : Context) :
  kw_cli_names (collect_keywords ctx) = [command_path ctx] /\
  kw_subcommands (collect_keywords ctx) =
    match list_commands (command ctx) with
    | Some subs => set_update [] (map fst subs)
    | None => []
    end /\
  kw_command_aliases (collect_keywords ctx) =
    match list_commands (command ctx) with
    | Some subs => fold_left (fun acc sub => set_update acc (snd sub)) subs []
    | None => []
    end /\
  kw_choices (collect_keywords ctx) =
    snd (fst (fold_left collect_param (params (command ctx))
                (set_update [] (help_option_names ctx), [],
                 set_update [] (collect_usage_pieces (command ctx))))) /\
  kw_metavars (collect_keywords ctx) =
    snd (fold_left collect_param (params (command ctx))
           (set_update [] (help_option_names ctx), [],
            set_update [] (collect_usage_pieces (command ctx)))).
Proof.
  unfold collect_keywords.
  destruct (list_commands (command ctx)) as [subs|].
  all: destruct (fold_left collect_param _ _) as [[o' c'] m'].
  all: destruct (fold_left split_option o' ([], [])); simpl; auto.
Qed.

(** X7. The long and the short options [collect_keywords] returns hold
    option spellings only (help option names, primary and secondary
    spellings of the parameters): the long options are the spellings of
    more than two characters, the short options the others, and no
    spelling is in both sets. *)
Theorem collect_keywords_options_are_the_spellings (ctx : Context) (x : str) :
  (In x (kw_long (collect_keywords ctx)) <-> option_spelling ctx x /\ 2 < length x) /\
  (In x (kw_short (collect_keywords ctx)) <-> option_spelling ctx x /\ length x <= 2) /\
  ~ (In x (kw_long (collect_keywords ctx)) /\ In x (kw_short (collect_keywords ctx))).
Proof.
  assert (Ho : In x (collect_options ctx) <-> option_spelling ctx x).
  { unfold collect_options, option_spelling. rewrite In_collect_param, In_set_update.
    simpl. tauto. }
  destruct (collect_keywords_split ctx) as [-> ->].
  destruct (In_split_option x (collect_options ctx) [] []) as [H1 H2].
  rewrite H1, H2, Ho. simpl. repeat split; try tauto. lia.
Qed.

(** X8. The choices [collect_keywords] returns are the choices of the
    parameters whose type is a [Choice], and nothing else; the metavars are
    the usage pieces of the command and the metavar of every parameter. *)
Theorem collect_keywords_choices_and_metavars (ctx : Context) (x : str) :
  (In x (kw_choices (collect_keywords ctx)) <->
   exists p cs, In p (params (command ctx)) /\ type_choices p = Some cs /\ In x cs) /\
  (In x (kw_metavars (collect_keywords ctx)) <->
   In x (collect_usage_pieces (command ctx)) \/
   exists p, In p (params (command ctx)) /\ x = make_metavar p).
Proof.
  destruct (collect_keywords_parts ctx) as (_ & _ & _ & -> & ->).
  rewrite In_collect_param_choices, In_collect_param_metavars, In_set_update.
  simpl. tauto.
Qed.

(** X9. The only CLI name [collect_keywords] returns is the command path
    of the context.  The subcommands are the identifiers [list_commands]
    gives and the aliases those of these subcommands; a command without
    [list_commands] has neither. *)
Theorem collect_keywords_names_and_subcommands (ctx : Context) (x : str) :
  kw_cli_names (collect_keywords ctx) = [command_path ctx] /\
  (In x (kw_subcommands (collect_keywords ctx)) <->
   exists subs aliases, list_commands (command ctx) = Some subs /\ In (x, aliases) subs) /\
  (In x (kw_command_aliases (collect_keywords ctx)) <->
   exists subs sub_id aliases,
     list_commands (command ctx) = Some subs /\ In (sub_id, aliases) subs /\ In x aliases).
Proof.
  destruct (collect_keywords_parts ctx) as (-> & -> & -> & _).
  split; [reflexivity|].
  destruct (list_commands (command ctx)) as [subs|]; split.
  - rewrite In_set_update, in_map_iff. simpl. split.
    + intros [[] | ([s a] & <- & H)]. exists subs, a. auto.
    + intros (subs' & a & [= <-] & H). right. exists (x, a). auto.
  - rewrite In_fold_aliases. simpl. split.
    + intros [[] | ([s a] & H1 & H2)]. exists subs, s, a. auto.
    + intros (subs' & s & a & [= <-] & H1 & H2). right. exists (s, a). auto.
  - simpl. split; [intros [] | intros (? & ? & [=] & _)].
  - simpl. split; [intros [] | intros (? & ? & ? & [=] & _)].
Qed.

(** ** disable_colors and the environment *)

(** A vote is for colours exactly when the boolean read in the variable is
    the polarity of the variable. *)
Lemma env_vote_var_boolean (default : bool) (var_value : string) :
  env_vote default var_value = Bool.eqb default (var_boolean var_value).
Proof.
  unfold env_vote, var_boolean.
  destruct (assoc _ _) as [[]|]; destruct default; reflexivity.
Qed.

Lemma In_colorize_from_env (environ : gmap string string) (vars : list (string * bool))
  (b : bool) :
  In b (colorize_from_env environ vars) <->
  exists var default var_value,
    In (var, default) vars /\ environ !! var = Some var_value /\
    b = env_vote default var_value.
Proof.
  induction vars as [|[var default] vars IH]; simpl.
  - split; [intros [] | intros (? & ? & ? & [] & _)].
  - destruct (environ !! var) as [v|] eqn:E; simpl; rewrite IH; split.
    + intros [<- | (var' & d' & v' & H1 & H2 & H3)].
      * exists var, default, v. auto.
      * exists var', d', v'. auto.
    + intros (var' & d' & v' & [H1 | H1] & H2 & H3).
      * injection H1 as <- <-. left. rewrite E in H2. injection H2 as <-. now symmetry.
      * right. exists var', d', v'. auto.
    + intros (var' & d' & v' & H1 & H2 & H3). exists var', d', v'. auto.
    + intros (var' & d' & v' & [H1 | H1] & H2 & H3).
      * injection H1 as <- <-. congruence.
      * exists var', d', v'. auto.
Qed.

Lemma existsb_eqb_true (l : list bool) : existsb (Bool.eqb true) l = true <-> In true l.
Proof.
  rewrite existsb_exists. split.
  - intros ([] & H & E); [exact H | discriminate].
  - intros H. exists true. auto.
Qed.

Lemma resolve_color_default_iff (environ : gmap string string) (value : bool) :
  resolve_color environ DEFAULT value = true <->
  (exists var default var_value,
     In (var, default) color_env_vars /\ environ !! var = Some var_value /\
     var_boolean var_value = default) \/
  ((forall var default, In (var, default) color_env_vars -> environ !! var = None) /\
   value = true).
Proof.
  unfold resolve_color.
  pose proof (In_colorize_from_env environ color_env_vars) as Hin.
  destruct (colorize_from_env environ color_env_vars) as [|b votes] eqn:E.
  - split.
    + intros ->. right. split; [|reflexivity]. intros var d Hv.
      destruct (environ !! var) as [v|] eqn:Ev; [|reflexivity]. exfalso.
      apply (proj2 (Hin (env_vote d v))). now exists var, d, v.
    + intros [(var & d & v & Hv & Ev & _) | [_ ->]]; [|reflexivity]. exfalso.
      apply (proj2 (Hin (env_vote d v))). now exists var, d, v.
  - cbn [ParameterSource_eqb]. rewrite existsb_eqb_true, Hin. split.
    + intros (var & d & v & Hv & Ev & Hb). left. exists var, d, v.
      rewrite env_vote_var_boolean in Hb. split; [exact Hv|]. split; [exact Ev|].
      symmetry in Hb. apply Bool.eqb_prop in Hb. now symmetry.
    + intros [(var & d & v & Hv & Ev & Hb) | [Hnone _]].
      * exists var, d, v. rewrite env_vote_var_boolean, Hb. split; [exact Hv|].
        split; [exact Ev|]. now destruct d.
      * exfalso. destruct (proj1 (Hin b) (or_introl eq_refl)) as (var & d & v & Hv & Ev & _).
        rewrite (Hnone _ _ Hv) in Ev. discriminate.
Qed.

(** X10. When the value of the option comes from its default,
    [disable_colors] stores in [ctx.color] a boolean that is [True]
    exactly when a recognized variable is set to a value that reads as the
    polarity of the variable ([NO_COLOR=0] enables colours as [COLOR=1]
    does, and one such variable is enough whatever the others say), or
    when no recognized variable is set and the default is [True].  The
    callback that resets the flag is registered exactly when that boolean
    is [False], after the callbacks already there. *)
Theorem disable_colors_default_value_follows_environment
  (environ : gmap string string) (ctx : ClickContext) (value : bool) :
  color_source ctx = DEFAULT ->
  exists enabled,
    color (disable_colors environ ctx value) = Some enabled /\
    on_close (disable_colors environ ctx value)
      = on_close ctx ++ (if enabled then [] else [restore_original_styling]) /\
    color_source (disable_colors environ ctx value) = DEFAULT /\
    (enabled = true <->
     (exists var default var_value,
        In (var, default) color_env_vars /\ environ !! var = Some var_value /\
        var_boolean var_value = default) \/
     ((forall var default, In (var, default) color_env_vars -> environ !! var = None) /\
      value = true)).
Proof.
  intros Hsrc. exists (resolve_color environ DEFAULT value).
  unfold disable_colors. rewrite Hsrc.
  split; [|split; [|split]].
  - now destruct (resolve_color environ DEFAULT value).
  - destruct (resolve_color environ DEFAULT value); simpl; [now rewrite app_nil_r | reflexivity].
  - now destruct (resolve_color environ DEFAULT value).
  - apply resolve_color_default_iff.
Qed.

Lemma disable_colors_default_value_follows_environment_witness :
  exists enabled,
    color (disable_colors {[ "NO_COLOR"%string := "0"%string ]}
             {| color_source := DEFAULT; color := None; on_close := [] |} false)
      = Some enabled /\
    on_close (disable_colors {[ "NO_COLOR"%string := "0"%string ]}
                {| color_source := DEFAULT; color := None; on_close := [] |} false)
      = [] ++ (if enabled then [] else [restore_original_styling]) /\
    color_source (disable_colors {[ "NO_COLOR"%string := "0"%string ]}
                    {| color_source := DEFAULT; color := None; on_close := [] |} false)
      = DEFAULT /\
    (enabled = true <->
     (exists var default var_value,
        In (var, default) color_env_vars /\
        ({[ "NO_COLOR"%string := "0"%string ]} : gmap string string) !! var
          = Some var_value /\
        var_boolean var_value = default) \/
     ((forall var default, In (var, default) color_env_vars ->
         ({[ "NO_COLOR"%string := "0"%string ]} : gmap string string) !! var = None) /\
      false = true)).
Proof.
  apply (disable_colors_default_value_follows_environment
           {[ "NO_COLOR"%string := "0"%string ]}
           {| color_source := DEFAULT; color := None; on_close := [] |} false).
  reflexivity.
Defined.

(** X24. When the value of the option does not come from its default
    (command line, the option's own environment variable, configuration
    file, prompt), [disable_colors] stores it in [ctx.color] as it is,
    whatever the recognized variables say; the callback that resets the
    flag is registered exactly when the value is [False]. *)
Theorem disable_colors_other_sources_keep_value
  (environ : gmap string string) (ctx : ClickContext) (value : bool) :
  color_source ctx <> DEFAULT ->
  color (disable_colors environ ctx value) = Some value /\
  on_close (disable_colors environ ctx value)
    = on_close ctx ++ (if value then [] else [restore_original_styling]) /\
  color_source (disable_colors environ ctx value) = color_source ctx.
Proof.
  intros Hsrc. unfold disable_colors.
  rewrite (resolve_color_other_source environ _ value Hsrc).
  destruct value; simpl; rewrite ?app_nil_r; auto.
Qed.

Lemma disable_colors_other_sources_keep_value_witness :
  color (disable_colors {[ "NO_COLOR"%string := "1"%string ]}
           {| color_source := ENVIRONMENT; color := None; on_close := [] |} true)
    = Some true /\
  on_close (disable_colors {[ "NO_COLOR"%string := "1"%string ]}
              {| color_source := ENVIRONMENT; color := None; on_close := [] |} true)
    = [] ++ [] /\
  color_source (disable_colors {[ "NO_COLOR"%string := "1"%string ]}
                  {| color_source := ENVIRONMENT; color := None; on_close := [] |} true)
    = ENVIRONMENT.
Proof.
  apply (disable_colors_other_sources_keep_value {[ "NO_COLOR"%string := "1"%string ]}
           {| color_source := ENVIRONMENT; color := None; on_close := [] |} true).
  discriminate.
Defined.

(** ** colorize and its assertion *)

Lemma style_group_raises (t : HelpExtraTheme) (text : str) (id : string) (e : exn) :
  style_group t text id = Raise e -> e = KeyError.
Proof.
  unfold style_group. destruct (theme_getattr t id); [discriminate|].
  destruct (assoc id (style_alias t)); [discriminate|]. now intros [= <-].
Qed.

Lemma colorize_groups_raises (t : HelpExtraTheme) (match_group : list (str * string))
  (gs : list str) (e : exn) :
  colorize_groups t match_group gs = Raise e -> e = KeyError.
Proof.
  induction gs as [|g gs IH]; simpl; [discriminate|].
  destruct (dict_get g match_group) as [id|].
  - destruct (style_group t g id) as [piece | e'] eqn:E; cbn [mbind result_bind].
    + destruct (colorize_groups t match_group gs); cbn [mbind result_bind]; [discriminate|].
      intros [= <-]. now apply IH.
    + intros [= <-]. exact (style_group_raises _ _ _ _ E).
  - cbn [mbind result_bind].
    destruct (colorize_groups t match_group gs); cbn [mbind result_bind]; [discriminate|].
    intros [= <-]. now apply IH.
Qed.

(** X11. Whatever the theme, [colorize] fails on its assertion exactly
    when two named groups of the match captured the same text. *)
Theorem colorize_assertion_fails_iff_shared_text (t : HelpExtraTheme) (m : list captured) :
  colorize t m = Raise AssertionError <-> ~ List.NoDup (map snd (groupdict m)).
Proof.
  rewrite <- groups_invertible_NoDup. unfold colorize.
  change (length (invert (groupdict m)) =? length (groupdict m)) with (groups_invertible m).
  destruct (groups_invertible m); split.
  - intros H. apply colorize_groups_raises in H. discriminate.
  - intros H. now destruct H.
  - intros _. discriminate.
  - reflexivity.
Qed.

(** ** A keyword wrapped after a dash *)

Lemma star_greedy_all {R} (p : ascii -> bool) (k : @cont R) (acc blanks s : str) (r : R) :
  forallb p blanks = true ->
  match s with [] => True | c :: _ => p c = false end ->
  k (rev blanks ++ acc) s = Some r ->
  star_greedy p k acc (blanks ++ s) = Some r.
Proof.
  revert acc. induction blanks as [|b blanks IH]; intros acc Hb Hs Hk.
  - simpl in *. destruct s as [|c s]; [exact Hk|]. simpl. now rewrite Hs.
  - simpl in Hb. apply andb_true_iff in Hb as [Hb1 Hb2].
    cbn [app star_greedy]. rewrite Hb1. rewrite (IH (b :: acc)); auto.
    simpl in Hk. now rewrite <- app_assoc in Hk.
Qed.

Lemma spaced_head (keyword t : str) (c : ascii) :
  spaced (c :: keyword) t -> exists t', t = c :: t'.
Proof. intros H. inversion H; subst; eauto. Qed.

Lemma plain_keyword_tail (c : ascii) (keyword : str) :
  plain_keyword (c :: keyword) ->
  not_space c = true /\ plain_keyword keyword /\ (c = "-"%char -> keyword <> []).
Proof.
  intros [H1 H2]. simpl in H1. apply andb_true_iff in H1 as [Hc Hk].
  split; [exact Hc|]. split; [split; [exact Hk|] |].
  - destruct keyword as [|d keyword]; [discriminate | exact H2].
  - intros -> ->. now apply H2.
Qed.

(** The nodes of an escaped keyword consume the keyword with blank
    characters after its dashes, in one go. *)
Lemma m_nodes_spaced {R} (keyword t : str) :
  spaced keyword t -> plain_keyword keyword ->
  forall (k : @cont R) (acc tail : str) (r : R),
    k (rev t ++ acc) tail = Some r ->
    m_nodes (escape_for_help_sceen keyword) k acc (t ++ tail) = Some r.
Proof.
  induction 1 as [|c keyword t Hc Hs IH | keyword blanks t Hb Hs IH]; intros Hp k acc tail r Hk.
  - exact Hk.
  - apply plain_keyword_tail in Hp as (_ & Hp & _).
    cbn [escape_for_help_sceen flat_map].
    assert (chr_eqb c "-" = false) as ->.
    { destruct (chr_eqb c "-") eqn:E; [|reflexivity]. apply chr_eqb_eq in E. congruence. }
    cbn [app m_nodes]. rewrite one_cons_true by (unfold chr; now apply chr_eqb_eq).
    apply IH; [exact Hp|]. simpl in Hk. now rewrite <- app_assoc in Hk.
  - apply plain_keyword_tail in Hp as (_ & Hp & Hne). specialize (Hne eq_refl).
    cbn [escape_for_help_sceen flat_map]. change (chr_eqb "-" "-") with true.
    cbn [app m_nodes]. rewrite one_cons_true by reflexivity.
    fold (escape_for_help_sceen keyword).
    rewrite <- app_assoc. apply star_greedy_all; [exact Hb | |].
    + destruct keyword as [|d keyword]; [congruence|].
      destruct (spaced_head _ _ _ Hs) as (t' & ->). simpl.
      destruct Hp as [Hp _]. simpl in Hp. apply andb_true_iff in Hp as [Hd _].
      unfold not_space in Hd. now apply negb_true_iff in Hd.
    + apply IH; [exact Hp|]. simpl in Hk. rewrite rev_app_distr in Hk.
      now rewrite <- !app_assoc in Hk.
Qed.

Lemma match_keyword_spaced (id : string) (keyword t : str) (l r : ascii) (rest : str) :
  plain_keyword keyword -> spaced keyword t ->
  keyword_left_context l = true -> is_word r = false ->
  match_at (keyword_pattern id keyword) (l :: t ++ r :: rest)
  = Some ([(None, [l]); (Some id, t); (None, [r])], rest).
Proof.
  intros Hp Hs Hl Hr. unfold match_at, keyword_pattern.
  cbn [m_groups m_nodes gbody gname]. rewrite one_cons_true by exact Hl.
  apply m_nodes_spaced; [exact Hs | exact Hp |].
  cbn [m_groups m_nodes gbody gname]. rewrite app_nil_r, rev_involutive.
  rewrite one_cons_true by (unfold not_word; now rewrite Hr). reflexivity.
Qed.

(** X12. For a keyword without blank character that does not end with a
    dash, the keyword pattern matches at the start of a text exactly when
    the text starts with a character of the left context, then the keyword
    with any number of blank characters (line feeds included) after each
    of its dashes, then a character that is no word character; the named
    group captures the keyword as it is written in the text. *)
Theorem keyword_pattern_matches_wrapped_keyword (id : string) (keyword s : str)
  (caps : list captured) (rest : str) :
  plain_keyword keyword ->
  (match_at (keyword_pattern id keyword) s = Some (caps, rest) <->
   exists l t r,
     caps = [(None, [l]); (Some id, t); (None, [r])] /\
     s = l :: t ++ r :: rest /\
     keyword_left_context l = true /\ is_word r = false /\ spaced keyword t).
Proof.
  intros Hp. split.
  - apply keyword_match_contexts.
  - intros (l & t & r & -> & -> & Hl & Hr & Hs). now apply match_keyword_spaced.
Qed.

Lemma keyword_pattern_matches_wrapped_keyword_witness :
  match_at (keyword_pattern "long_option" (s2l "--no-color"))
    (s2l " --no-" ++ NL ++ s2l "    color  Disable colors.")
  = Some ([(None, s2l " ");
           (Some "long_option"%string, s2l "--no-" ++ NL ++ s2l "    color");
           (None, s2l " ")], s2l " Disable colors.").
Proof.
  apply keyword_pattern_matches_wrapped_keyword.
  - split; [reflexivity | intros H; discriminate H].
  - exists " "%char, (s2l "--no-" ++ NL ++ s2l "    color"), " "%char.
    split; [reflexivity|]. split; [reflexivity|].
    split; [vm_compute; reflexivity|]. split; [reflexivity|].
    apply (spaced_dash _ []); [reflexivity|].
    apply (spaced_dash _ []); [reflexivity|].
    apply spaced_char; [discriminate|]. apply spaced_char; [discriminate|].
    apply (spaced_dash (s2l "color") (NL ++ s2l "    ") (s2l "color")); [reflexivity|].
    repeat (apply spaced_char; [discriminate|]). apply spaced_nil.
Defined.

(** ** The first match of a pass *)

Lemma sub_from_skip (pat : pattern) (repl : list captured -> result str) (u s : str) :
  sub_from pat repl (length u) (u ++ s) = sub_from pat repl 0 s.
Proof.
  induction u as [|c u IH]; simpl; [|exact IH].
  destruct s; reflexivity.
Qed.

(** [re.sub] up to and including the first match, when the text before it
    lacks a character every match needs. *)
Lemma sub_from_first_match (pat : pattern) (repl : list captured -> result str)
  (n : nat) (c : ascii) (pre s rest : str) (caps : list captured) (out : str) :
  consuming pat -> requires pat n c -> ~ In c pre -> ~ In c (firstn n s) ->
  match_at pat s = Some (caps, rest) -> repl caps = Ok out ->
  sub_from pat repl 0 (pre ++ s) =
    (tl ← sub_from pat repl 0 rest; Ok (pre ++ out ++ tl)).
Proof.
  intros Hc Hreq Hpre Hs Hm Hrepl.
  rewrite (sub_from_prefix pat repl n c pre s Hreq Hpre Hs).
  pose proof (match_at_consumes _ _ _ _ Hc Hm) as Hlen.
  destruct (match_at_sound _ _ _ _ Hm) as [_ E].
  destruct (group0 caps) as [|x u] eqn:Eg; [simpl in Hlen; lia|].
  subst s. cbn [app] in *. rewrite (sub_from_match _ _ _ _ _ _ Hm), Hrepl, Eg.
  cbn [mbind result_bind].
  replace (length (x :: u) - 1) with (length u) by (simpl; lia). rewrite sub_from_skip.
  destruct (sub_from pat repl 0 rest); reflexivity.
Qed.

(** [colorize] on a named group between two unnamed ones that captured
    other texts. *)
Lemma colorize_delimited (t : HelpExtraTheme) (id : string) (a kw b styled : str) :
  kw <> a -> kw <> b -> style_group t kw id = Ok styled ->
  colorize t [(None, a); (Some id, kw); (None, b)] = Ok (a ++ styled ++ b).
Proof.
  intros Ha Hb Hst.
  assert (E : forall x, kw <> x -> str_eqb x kw = false).
  { intros x Hx. destruct (str_eqb x kw) eqn:E; [|reflexivity].
    apply str_eqb_eq in E. congruence. }
  unfold colorize.
  cbn [groupdict invert fold_left dict_set fst snd length Nat.eqb groups map
       colorize_groups dict_get].
  rewrite (E a Ha), (E b Hb), str_eqb_refl, Hst.
  cbn [mbind result_bind app]. now rewrite app_nil_r.
Qed.


Lemma forallb_not_In (c : ascii) (s : str) :
  forallb (fun x => negb (chr_eqb x c)) s = true -> ~ In c s.
Proof.
  rewrite forallb_forall. intros H Hin. specialize (H c Hin).
  apply negb_true_iff in H. assert (chr_eqb c c = true) by now apply chr_eqb_eq. congruence.
Qed.



(** *** The deprecation label *)

Lemma starts_with_lower (pat u post : str) :
  str_lower u = str_lower pat ->
  starts_with chr_i pat (u ++ post) = true /\ length u = length pat.
Proof.
  revert u. induction pat as [|c pat IH]; intros [|x u] H; simpl in *; try discriminate.
  - auto.
  - injection H as H1 H2. destruct (IH u H2) as [-> ->]. unfold chr_i. rewrite H1.
    split; [|reflexivity]. rewrite andb_true_r. now apply chr_eqb_eq.
Qed.

Lemma match_deprecated (c : ascii) (u post : str) :
  is_space c = true -> str_lower u = s2l "(deprecated)" ->
  match_at deprecated_pattern (c :: u ++ post)
  = Some ([(None, [c]); (Some "warning"%string, u)], post).
Proof.
  intros Hc Hu. unfold match_at, deprecated_pattern.
  cbn [m_groups m_nodes gbody gname]. rewrite one_cons_true by exact Hc.
  unfold re_escape_i. rewrite m_nodes_literals.
  destruct (starts_with_lower (s2l "(DEPRECATED)") u post) as [-> Hlen]; [exact Hu|].
  rewrite <- Hlen, firstn_app, firstn_all, Nat.sub_diag, skipn_app, skipn_all, Nat.sub_diag.
  cbn [firstn skipn app m_groups]. now rewrite !app_nil_r, rev_involutive.
Qed.

(** X14. The deprecation pass finds the label in any casing
    ([(Deprecated)], [(deprecated)], ...): on a text whose first opening
    parenthesis starts the label after a blank character, the text before
    is kept, the label as written gets the [warning] style, and the pass
    goes on with the text after the label. *)
Theorem deprecated_label_styled_in_any_case (th : HelpExtraTheme) (pre u post : str)
  (c : ascii) :
  ~ In "("%char pre -> is_space c = true -> str_lower u = s2l "(deprecated)" ->
  re_sub deprecated_pattern (colorize th) (pre ++ c :: u ++ post)
  = (tl ← re_sub deprecated_pattern (colorize th) post;
     Ok (pre ++ c :: warning th u ++ tl)).
Proof.
  intros Hpre Hc Hu. unfold re_sub.
  rewrite (sub_from_first_match _ _ 1 "(" pre (c :: u ++ post) post
             [(None, [c]); (Some "warning"%string, u)] (c :: warning th u)).
  - reflexivity.
  - unfold consuming, deprecated_pattern. eauto 8.
  - apply deprecated_requires.
  - exact Hpre.
  - simpl. intros [-> | []]. discriminate Hc.
  - now apply match_deprecated.
  - assert (Hlen : length u = 12).
    { change 12 with (length (s2l "(deprecated)")). rewrite <- Hu. unfold str_lower.
      now rewrite length_map. }
    assert (E : str_eqb [c] u = false).
    { destruct u as [|x [|y u]]; simpl in Hlen; try lia. simpl. apply andb_false_r. }
    unfold colorize.
    cbn [groupdict invert fold_left dict_set fst snd length Nat.eqb groups map
         colorize_groups dict_get].
    rewrite E, str_eqb_refl. cbn [mbind result_bind style_group]. simpl.
    now rewrite app_nil_r.
Qed.

Lemma deprecated_label_styled_in_any_case_witness :
  re_sub deprecated_pattern (colorize default_theme)
    (s2l "  --old  Old option." ++ " "%char :: s2l "(Deprecated)" ++ NL)
  = (tl ← re_sub deprecated_pattern (colorize default_theme) NL;
     Ok (s2l "  --old  Old option."
           ++ " "%char :: warning default_theme (s2l "(Deprecated)") ++ tl)).
Proof.
  apply deprecated_label_styled_in_any_case.
  - apply forallb_not_In. reflexivity.
  - reflexivity.
  - reflexivity.
Defined.

(** *** Subcommands and the CLI name *)

Lemma m_nodes_re_escape {R} (text : str) (k : @cont R) (acc s : str) :
  m_nodes (re_escape text) k acc (text ++ s) = k (rev text ++ acc) s.
Proof.
  unfold re_escape. rewrite m_nodes_literals.
  assert (starts_with chr text (text ++ s) = true) as ->.
  { apply starts_with_chr. now rewrite firstn_app, firstn_all, Nat.sub_diag, app_nil_r. }
  now rewrite firstn_app, firstn_all, Nat.sub_diag, skipn_app, skipn_all, Nat.sub_diag,
    !app_nil_r.
Qed.

Lemma match_subcommand (subcommand rest : str) (c : ascii) :
  is_space c = true ->
  match_at (subcommand_pattern subcommand) (s2l "  " ++ subcommand ++ c :: rest)
  = Some ([(None, s2l "  "); (Some "subcommand"%string, subcommand); (None, [c])], rest).
Proof.
  intros Hc. unfold match_at, subcommand_pattern.
  cbn [m_groups m_nodes gbody gname s2l list_ascii_of_string app].
  rewrite !one_cons_true by reflexivity. rewrite m_nodes_re_escape.
  cbn [m_groups m_nodes gbody gname]. rewrite one_cons_true by exact Hc.
  now rewrite app_nil_r, rev_involutive.
Qed.

Lemma subcommand_requires (subcommand : str) :
  requires (subcommand_pattern subcommand) 0 " ".
Proof.
  intros s caps rest H. destruct (match_at_sound _ _ _ _ H) as [HF ->].
  inversion HF as [|g1 [n1 t1] gs1 caps1 [_ M1] HF1]; subst.
  simpl in M1. destruct M1 as (u1 & u2 & -> & (a & -> & Ha) & _).
  apply chr_eqb_eq in Ha. subst a. reflexivity.
Qed.

(** X15. The pass of a subcommand over a text whose first space starts
    two spaces, the subcommand and a blank character: the subcommand gets
    the [option] style, the rest of the match is kept, and the pass goes on
    with the text after the blank character.  The subcommand must differ
    from the two texts around it, which [colorize] would style with it. *)
Theorem subcommand_pass_styles_first_occurrence (th : HelpExtraTheme)
  (subcommand pre rest : str) (c : ascii) :
  ~ In " "%char pre -> is_space c = true ->
  subcommand <> s2l "  " -> subcommand <> [c] ->
  re_sub (subcommand_pattern subcommand) (colorize th)
    (pre ++ s2l "  " ++ subcommand ++ c :: rest)
  = (tl ← re_sub (subcommand_pattern subcommand) (colorize th) rest;
     Ok (pre ++ s2l "  " ++ option_ th subcommand ++ c :: tl)).
Proof.
  intros Hpre Hc H1 H2. unfold re_sub.
  rewrite (sub_from_first_match _ _ 0 " " pre (s2l "  " ++ subcommand ++ c :: rest) rest
             [(None, s2l "  "); (Some "subcommand"%string, subcommand); (None, [c])]
             (s2l "  " ++ option_ th subcommand ++ [c])).
  - destruct (sub_from _ _ 0 rest); cbn [mbind result_bind]; [|reflexivity].
    now rewrite <- !app_assoc.
  - unfold consuming, subcommand_pattern. eauto 8.
  - apply subcommand_requires.
  - exact Hpre.
  - intros [].
  - now apply match_subcommand.
  - now apply colorize_delimited.
Qed.

Lemma subcommand_pass_styles_first_occurrence_witness :
  re_sub (subcommand_pattern (s2l "init")) (colorize default_theme)
    ((s2l "Commands:" ++ NL) ++ s2l "  " ++ s2l "init" ++ " "%char :: s2l " Set up.")
  = (tl ← re_sub (subcommand_pattern (s2l "init")) (colorize default_theme)
            (s2l " Set up.");
     Ok ((s2l "Commands:" ++ NL) ++ s2l "  " ++ option_ default_theme (s2l "init")
           ++ " "%char :: tl)).
Proof.
  apply subcommand_pass_styles_first_occurrence.
  - apply forallb_not_In. reflexivity.
  - reflexivity.
  - discriminate.
  - discriminate.
Defined.

Lemma match_cli_name (cli_name rest : str) (l r : ascii) :
  is_space l = true -> is_space r = true ->
  match_at (cli_name_pattern cli_name) (l :: cli_name ++ r :: rest)
  = Some ([(None, [l]); (Some "invoked_command"%string, cli_name); (None, [r])], rest).
Proof.
  intros Hl Hr. unfold match_at, cli_name_pattern.
  cbn [m_groups m_nodes gbody gname].
  rewrite one_cons_true by exact Hl. rewrite m_nodes_re_escape.
  cbn [m_groups m_nodes gbody gname]. rewrite one_cons_true by exact Hr.
  now rewrite app_nil_r, rev_involutive.
Qed.

Lemma cli_name_requires (c : ascii) (cli_name : str) :
  requires (cli_name_pattern (c :: cli_name)) 1 c.
Proof.
  intros s caps rest H. destruct (match_at_sound _ _ _ _ H) as [HF ->].
  inversion HF as [|g1 [n1 t1] gs1 caps1 [_ M1] HF1]; subst.
  inversion HF1 as [|g2 [n2 t2] gs2 caps2 [_ M2] HF2]; subst.
  simpl in M1, M2.
  destruct M1 as (u1 & u2 & -> & (a & -> & _) & ->).
  destruct M2 as (v1 & v2 & -> & (x & -> & Hx) & _).
  apply chr_eqb_eq in Hx. subst x. reflexivity.
Qed.

(** X16. The pass of the CLI name over a text whose first occurrence of
    the name's first character starts the name between two blank
    characters: the name gets the [invoked_command] style, the two blank
    characters are kept, and the pass goes on with the text after the
    second one. *)
Theorem cli_name_pass_styles_first_occurrence (th : HelpExtraTheme) (c : ascii)
  (cli_name pre rest : str) (l r : ascii) :
  ~ In c pre -> is_space l = true -> is_space r = true -> l <> c ->
  c :: cli_name <> [r] ->
  re_sub (cli_name_pattern (c :: cli_name)) (colorize th)
    (pre ++ l :: (c :: cli_name) ++ r :: rest)
  = (tl ← re_sub (cli_name_pattern (c :: cli_name)) (colorize th) rest;
     Ok (pre ++ l :: invoked_command th (c :: cli_name) ++ r :: tl)).
Proof.
  intros Hpre Hl Hr Hlc Hn. unfold re_sub.
  rewrite (sub_from_first_match _ _ 1 c pre (l :: (c :: cli_name) ++ r :: rest) rest
             [(None, [l]); (Some "invoked_command"%string, c :: cli_name); (None, [r])]
             (l :: invoked_command th (c :: cli_name) ++ [r])).
  - destruct (sub_from _ _ 0 rest); cbn [mbind result_bind]; [|reflexivity].
    cbn [app]. now rewrite <- !app_assoc.
  - unfold consuming, cli_name_pattern. eauto 8.
  - apply cli_name_requires.
  - exact Hpre.
  - simpl. intros [H | []]. auto.
  - now apply match_cli_name.
  - apply (colorize_delimited th "invoked_command" [l] (c :: cli_name) [r]); auto.
    congruence.
Qed.

Lemma cli_name_pass_styles_first_occurrence_witness :
  re_sub (cli_name_pattern (s2l "mycli")) (colorize default_theme)
    (s2l "Usage:" ++ " "%char :: s2l "mycli" ++ " "%char :: s2l "[OPTIONS]")
  = (tl ← re_sub (cli_name_pattern (s2l "mycli")) (colorize default_theme)
            (s2l "[OPTIONS]");
     Ok (s2l "Usage:" ++ " "%char :: invoked_command default_theme (s2l "mycli")
           ++ " "%char :: tl)).
Proof.
  apply (cli_name_pass_styles_first_occurrence default_theme "m" (s2l "ycli")).
  - apply forallb_not_In. reflexivity.
  - reflexivity.
  - reflexivity.
  - discriminate.
  - discriminate.
Defined.

(** ** HelpExtraTheme.with_ *)

Lemma with__replace (self : HelpExtraTheme) (a : with_kwargs) :
  with_ self a = _replace self a.
Proof.
  unfold with_. destruct (kwargs a) eqn:E; [|reflexivity].
  destruct self, a as [a1 a2 a3 a4 a5 a6 a7 a8 a9 a10 a11 a12 a13 a14 a15 a16 a17 a18 a19].
  unfold kwargs in E. simpl in E.
  destruct a1; [discriminate|]. destruct a2; [discriminate|].
  destruct a3; [discriminate|]. destruct a4; [discriminate|].
  destruct a5; [discriminate|]. destruct a6; [discriminate|].
  destruct a7; [discriminate|]. destruct a8; [discriminate|].
  destruct a9; [discriminate|]. destruct a10; [discriminate|].
  destruct a11; [discriminate|]. destruct a12; [discriminate|].
  destruct a13; [discriminate|]. destruct a14; [discriminate|].
  destruct a15; [discriminate|]. destruct a16; [discriminate|].
  destruct a17; [discriminate|]. destruct a18; [discriminate|].
  destruct a19; [discriminate|]. reflexivity.
Qed.

(** X17. [with_] without argument returns the theme unchanged; with every
    role given it returns the theme made of the arguments, whatever the
    theme it is called on; and two calls in a row amount to one call with
    the arguments of both, those of the second call winning. *)
Theorem with_calls_compose (self t : HelpExtraTheme) (a b : with_kwargs) :
  with_ self no_kwargs = self /\
  with_ self (every_role t) = t /\
  with_ (with_ self a) b = with_ self (then_kwargs a b).
Proof.
  split; [reflexivity|]. split.
  - destruct t. reflexivity.
  - rewrite !with__replace.
    destruct a as [a1 a2 a3 a4 a5 a6 a7 a8 a9 a10 a11 a12 a13 a14 a15 a16 a17 a18 a19],
             b as [b1 b2 b3 b4 b5 b6 b7 b8 b9 b10 b11 b12 b13 b14 b15 b16 b17 b18 b19].
    unfold _replace, then_kwargs. simpl.
    f_equal; match goal with |- default _ ?y = _ => destruct y; reflexivity end.
Qed.

(** ** run.args_cleanup and the invoke fixture *)

Lemma flatten_app (a b : list NestedArg) : flatten (a ++ b) = flatten a ++ flatten b.
Proof. apply flat_map_app. Qed.

Lemma args_cleanup_app (a b : list NestedArg) :
  args_cleanup (a ++ b) = args_cleanup a ++ args_cleanup b.
Proof. unfold args_cleanup. now rewrite flatten_app, List.filter_app, map_app. Qed.

(** X18. For [args_cleanup] the nesting of its arguments is transparent
    and a [None] is dropped wherever it stands; the strings come out in
    the order of the arguments, and cleaning the result again changes
    nothing. *)
Theorem args_cleanup_flattens_and_drops_None (items rest args : list NestedArg) :
  args_cleanup (Nested items :: rest) = args_cleanup (items ++ rest) /\
  args_cleanup (Atom ANone :: rest) = args_cleanup rest /\
  args_cleanup (args ++ rest) = args_cleanup args ++ args_cleanup rest /\
  args_cleanup (map (fun s => Atom (AStr s)) (args_cleanup args)) = args_cleanup args.
Proof.
  split; [|split; [|split]].
  - change (Nested items :: rest) with ([Nested items] ++ rest).
    rewrite !args_cleanup_app. f_equal.
    unfold args_cleanup, flatten. simpl. now rewrite app_nil_r.
  - reflexivity.
  - apply args_cleanup_app.
  - induction (args_cleanup args) as [|s l IH]; [reflexivity|].
    change (args_cleanup (map _ (s :: l)))
      with (s :: args_cleanup (map (fun s => Atom (AStr s)) l)).
    now rewrite IH.
Qed.

Lemma forallb_is_str_paths (l : list Arg) :
  forallb is_str (List.filter is_not_None l) = false <-> exists p, In (APath p) l.
Proof.
  induction l as [|a l IH]; simpl.
  - split; [discriminate | intros (p & [])].
  - destruct a as [s | p | ]; simpl.
    + rewrite IH. split; intros (p & H); exists p; [now right|].
      destruct H as [H | H]; [discriminate | exact H].
    + split; [intros _; exists p; now left | reflexivity].
    + rewrite IH. split; intros (p & H); exists p; [now right|].
      destruct H as [H | H]; [discriminate | exact H].
Qed.

(** X19. What the [invoke] fixture does to its arguments: with a path
    among them (at any depth) it fails on its assertion; otherwise it
    hands to the command strings only, the very strings [args_cleanup]
    returns for the same arguments. *)
Theorem invoke_args_agrees_with_args_cleanup (args : list NestedArg) :
  ((exists p, In (APath p) (flatten args)) /\
   invoke_args args = Raise AssertionError) \/
  ((forall p, ~ In (APath p) (flatten args)) /\
   exists l, invoke_args args = Ok (map AStr l) /\ l = args_cleanup args).
Proof.
  pose proof (forallb_is_str_paths (flatten args)) as Hp.
  unfold invoke_args, args_cleanup.
  destruct (forallb is_str (List.filter is_not_None (flatten args))) eqn:E.
  - right. split.
    { intros p H. assert (true = false) by (apply Hp; eauto). discriminate. }
    assert (Hl : List.filter is_not_None (flatten args)
                 = map AStr (map str_ (List.filter is_not_None (flatten args)))).
    { clear Hp. induction (List.filter is_not_None (flatten args)) as [|a l IH];
        [reflexivity|].
      simpl in E. apply andb_true_iff in E as [Ea El].
      destruct a; try discriminate. simpl. now rewrite <- IH. }
    exists (map str_ (List.filter is_not_None (flatten args))). split; [|reflexivity].
    rewrite <- Hl. now destruct (List.filter is_not_None (flatten args)).
  - left. split; [now apply Hp|].
    destruct (List.filter is_not_None (flatten args)); [discriminate | reflexivity].
Qed.

(** ** run.env_copy *)

Lemma all_str_spec (d : gmap string (option string)) :
  all_str d = true <-> forall k, d !! k <> Some None.
Proof.
  unfold all_str. rewrite forallb_forall. split.
  - intros H k Hk. apply elem_of_map_to_list, list_elem_of_In in Hk.
    specialize (H _ Hk). discriminate.
  - intros H [k [v|]] Hin; [reflexivity|]. exfalso.
    apply list_elem_of_In, elem_of_map_to_list in Hin. exact (H k Hin).
Qed.

Lemma all_str_false (d : gmap string (option string)) :
  all_str d = false -> exists k, d !! k = Some None.
Proof.
  unfold all_str. intros H.
  assert (Hx : exists kv, In kv (map_to_list d) /\ snd kv = None).
  { induction (map_to_list d) as [|[k v] l IH]; [discriminate|].
    simpl in H. destruct v as [v|]; simpl in H.
    - destruct (IH H) as (kv & Hin & Hkv). exists kv. split; [now right | exact Hkv].
    - exists (k, None). split; [now left | reflexivity]. }
  destruct Hx as ([k v] & Hin & Hv). simpl in Hv. subst v. exists k.
  now apply list_elem_of_In, elem_of_map_to_list in Hin.
Qed.

Lemma lookup_updated (environ : gmap string string) (d : gmap string (option string))
  (k : string) :
  all_str d = true ->
  updated environ d !! k =
    match d !! k with
    | Some v => v
    | None => environ !! k
    end.
Proof.
  intros H. unfold updated. rewrite lookup_union, lookup_omap.
  destruct (d !! k) as [[v|]|] eqn:E; simpl.
  - now destruct (environ !! k).
  - exfalso. exact (proj1 (all_str_spec d) H k E).
  - now destruct (environ !! k).
Qed.

(** X20. Given a [dict] that is not empty and whose values are all
    strings, [env_copy] returns an environment in which every variable of
    the [dict] has the value the [dict] gives it and every other variable
    the value it has in [os.environ], and which holds no other
    variable. *)
Theorem env_copy_extends_environ (environ : gmap string string)
  (d : gmap string (option string)) :
  d <> ∅ -> (forall k, d !! k <> Some None) ->
  exists env,
    env_copy environ (DictEnvVars d) = Ok (Some env) /\
    forall k, env !! k = match d !! k with
                         | Some v => v
                         | None => environ !! k
                         end.
Proof.
  intros Hne Hstr. apply all_str_spec in Hstr.
  exists (updated environ d). split.
  - unfold env_copy. rewrite Hstr. now destruct (decide (d = ∅)).
  - intros k. now apply lookup_updated.
Qed.

Lemma env_copy_extends_environ_witness :
  exists env,
    env_copy {[ "PATH"%string := "/bin"%string; "LANG"%string := "en"%string ]}
      (DictEnvVars {[ "LANG"%string := Some "C"%string ]}) = Ok (Some env) /\
    forall k,
      env !! k =
        match ({[ "LANG"%string := Some "C"%string ]} : gmap string (option string)) !! k with
        | Some v => v
        | None =>
            ({[ "PATH"%string := "/bin"%string; "LANG"%string := "en"%string ]}
               : gmap string string) !! k
        end.
Proof.
  apply env_copy_extends_environ.
  - intros H. apply (f_equal (fun m => m !! "LANG"%string)) in H. vm_compute in H.
    discriminate H.
  - intros k H. apply lookup_singleton_Some in H as [_ H]. discriminate H.
Defined.

(** X21. [env_copy] returns [None] exactly when it is given [None] or an
    empty mapping, so an empty [dict] gives no copy of the environment;
    it fails on an assertion exactly when a value of the [dict] is [None]
    (which the type of the argument allows) or when a mapping that is no
    [dict] is not empty. *)
Theorem env_copy_None_and_assertions (environ : gmap string string) (extend : EnvVars) :
  (env_copy environ extend = Ok None <->
   extend = NoEnvVars \/ extend = DictEnvVars ∅ \/ extend = OtherEnvVars ∅) /\
  (env_copy environ extend = Raise AssertionError <->
   (exists d k, extend = DictEnvVars d /\ d !! k = Some None) \/
   (exists m, extend = OtherEnvVars m /\ m <> ∅)).
Proof.
  destruct extend as [|d|m]; simpl.
  - split; split; auto; try discriminate.
    intros [(d & k & [=] & _) | (m & [=] & _)].
  - pose proof (all_str_spec d) as Hs. destruct (all_str d) eqn:E.
    + destruct (decide (d = ∅)) as [-> | Hne]; split; split; auto; try discriminate.
      * intros [(d & k & [= <-] & H) | (m & [=] & _)]. rewrite lookup_empty in H.
        discriminate.
      * intros [[=] | [[= H] | [=]]]. contradiction.
      * intros [(d' & k & [= <-] & H) | (m & [=] & _)].
        exfalso. exact (proj1 Hs eq_refl k H).
    + split; split; auto; try discriminate.
      * intros [[=] | [[= ->] | [=]]]. vm_compute in E. discriminate.
      * intros _. left. destruct (all_str_false d E) as (k & Hk). now exists d, k.
  - destruct (decide (m = ∅)) as [-> | Hne]; split; split; auto; try discriminate.
    + intros [(d & k & [=] & _) | (m & [= <-] & H)]. contradiction.
    + intros [[=] | [[=] | [= H]]]. contradiction.
    + intros _. right. now exists m.
Qed.

(** ** The exceptions of highlight_extra_keywords *)

Lemma style_group_known (t : HelpExtraTheme) (text : str) (id : string) :
  known_id id = true -> exists out, style_group t text id = Ok out.
Proof.
  unfold known_id, style_group, theme_getattr. simpl.
  repeat (destruct (String.eqb id _); [intros _; eexists; reflexivity|]).
  discriminate.
Qed.

Lemma colorize_groups_known (t : HelpExtraTheme) (mg : list (str * string))
  (gs : list str) :
  (forall k v, dict_get k mg = Some v -> known_id v = true) ->
  exists out, colorize_groups t mg gs = Ok out.
Proof.
  intros Hmg. induction gs as [|g gs (out & IH)]; simpl; [eauto|].
  rewrite IH. destruct (dict_get g mg) as [id|] eqn:E.
  - destruct (style_group_known t g id (Hmg _ _ E)) as (piece & ->).
    cbn [mbind result_bind]. eauto.
  - cbn [mbind result_bind]. eauto.
Qed.

Lemma colorize_known (t : HelpExtraTheme) (m : list captured) :
  (forall id, In (Some id) (map fst m) -> known_id id = true) ->
  returns_or_asserts (colorize t m).
Proof.
  intros H. unfold colorize.
  destruct (_ =? _); [left | now right].
  apply colorize_groups_known. intros k v E.
  apply H, In_groupdict, (dict_get_invert _ _ _ E).
Qed.

Lemma returns_or_asserts_bind {A B} (r : result A) (k : A -> result B) :
  returns_or_asserts r -> (forall a, returns_or_asserts (k a)) ->
  returns_or_asserts (r ≫= k).
Proof.
  intros [(a & ->) | ->] Hk; cbn [mbind result_bind]; [apply Hk | now right].
Qed.

Lemma sub_from_known (t : HelpExtraTheme) (pat : pattern) (s : str) (skip : nat) :
  (forall id, In (Some id) (map gname pat) -> known_id id = true) ->
  returns_or_asserts (sub_from pat (colorize t) skip s).
Proof.
  intros Hk. revert skip. induction s as [|c s IH]; intros skip.
  - left. now exists [].
  - destruct skip as [|n]; [|simpl; apply IH]. cbn [sub_from].
    destruct (match_at pat (c :: s)) as [[caps rest]|] eqn:E.
    + destruct (match_at_sound _ _ _ _ E) as [HF _].
      apply Forall2_group_names in HF.
      apply returns_or_asserts_bind; [apply colorize_known; now rewrite HF|].
      intros out. apply returns_or_asserts_bind; [apply IH|].
      intros tl. left. eauto.
    + apply returns_or_asserts_bind; [apply IH|]. intros tl. left. eauto.
Qed.

Lemma sub_each_known (t : HelpExtraTheme) (mk : str -> pattern) (keys : list str)
  (s : str) :
  (forall k id, In (Some id) (map gname (mk k)) -> known_id id = true) ->
  returns_or_asserts (sub_each t mk keys s).
Proof.
  intros Hk. revert s. induction keys as [|k keys IH]; intros s; simpl.
  - left. eauto.
  - apply returns_or_asserts_bind; [apply sub_from_known, Hk | exact IH].
Qed.

Ltac known_ids :=
  simpl; intros;
  repeat match goal with
         | H : _ \/ _ |- _ => destruct H as [H | H]
         | H : Some _ = Some _ |- _ => injection H as <-
         | H : None = Some _ |- _ => discriminate H
         | H : False |- _ => destruct H
         end;
  reflexivity.

(** X22. Whatever the theme, the keywords and the help text,
    [highlight_extra_keywords] returns a text or fails on the assertion of
    [colorize]: every group name of its patterns is resolved by
    [style_group], so no [KeyError] comes out of it. *)
Theorem highlight_extra_keywords_returns_or_asserts (f : HelpExtraFormatter)
  (help_text : str) :
  returns_or_asserts (highlight_extra_keywords f help_text).
Proof.
  unfold highlight_extra_keywords.
  apply returns_or_asserts_bind; [apply sub_from_known; known_ids|]. intros s1.
  apply returns_or_asserts_bind; [apply sub_each_known; known_ids|]. intros s2.
  apply returns_or_asserts_bind; [apply sub_each_known; known_ids|]. intros s3.
  apply returns_or_asserts_bind; [apply sub_from_known; known_ids|]. intros s4.
  apply returns_or_asserts_bind; [apply sub_each_known; known_ids|]. intros s5.
  unfold keyword_passes, highlight_keywords.
  apply returns_or_asserts_bind; [apply sub_each_known; known_ids|]. intros s6.
  apply returns_or_asserts_bind; [apply sub_each_known; known_ids|]. intros s7.
  apply returns_or_asserts_bind; [apply sub_each_known; known_ids|]. intros s8.
  apply returns_or_asserts_bind; [apply sub_each_known; known_ids|]. intros s9.
  left. eauto.
Qed.
